(** * Bit-manipulation practice tool: evaluator and live expression analyzer

    A shallow embedding of [src/engine/evaluator.ts] (tokenizer, recursive
    descent parser, [evaluate], [checkAnswer]), of the live expression
    analyzer ([parseExpression], [tryEvaluatePartial], [safeEval],
    [buildRhsParts]), of the symbol table of [data/atmega2560.ts], of the
    question generators of [src/engine/generator.ts], of the judgement of
    an answer in [main.ts] ([evaluateLive]) and of the level loop of
    [src/engine/gamification.ts].

    Conventions of the embedding:
    - a JavaScript string is a [string] whose characters are code units
      below 256;
    - a JavaScript number that the program handles is an integer, a [Z];
      the 32-bit coercions of the bit operators are written out;
    - a plain object used as a dictionary is a [gmap string Z] of its own
      properties, read and written through [getProperty], [hasProperty]
      and [setProperty], which add what the object inherits from
      [Object.prototype];
    - a [throw] is the [Throw] result of the parser monad;
    - the call stack has no bound: the [RangeError] of a recursion that
      is too deep for the engine is not reproduced;
    - the values of the calls of [Math.random()] are a stream of rationals
      that the generators consume in the order of the calls. *)

From Stdlib Require Import ZArith Ascii String List Bool Lia.
From Stdlib Require Import QArith Qround.
From stdpp Require Import base option gmap strings list fin_maps sorting.

Local Open Scope string_scope.
Local Open Scope Z_scope.

(** ** Characters and strings *)

Module Chars.

Definition code (c : ascii) : Z := Z.of_N (N_of_ascii c).

Definition inRange (lo hi : Z) (c : ascii) : bool :=
  (lo <=? code c) && (code c <=? hi).

(** [/[0-9]/], also [\d]. *)
Definition isDigit (c : ascii) : bool := inRange 48 57 c.

(** [/[01]/] *)
Definition isBinDigit (c : ascii) : bool := inRange 48 49 c.

(** [/[0-9a-fA-F]/] *)
Definition isHexDigit (c : ascii) : bool :=
  isDigit c || inRange 97 102 c || inRange 65 70 c.

Definition isUpper (c : ascii) : bool := inRange 65 90 c.
Definition isLower (c : ascii) : bool := inRange 97 122 c.

(** [/[a-zA-Z_]/] *)
Definition isIdentStart (c : ascii) : bool :=
  isLower c || isUpper c || (code c =? 95).

(** [/[a-zA-Z0-9_]/], also [\w]. *)
Definition isIdentChar (c : ascii) : bool := isIdentStart c || isDigit c.

(** [/\s/] on code units below 256: tab, line feed, vertical tab, form
    feed, carriage return, space and no-break space.  [trim] strips the
    same set. *)
Definition isSpace (c : ascii) : bool :=
  inRange 9 13 c || (code c =? 32) || (code c =? 160).

(** [/[A-Z0-9_]/] *)
Definition isRegChar (c : ascii) : bool :=
  isUpper c || isDigit c || (code c =? 95).

(** One character of [toLowerCase] (Latin-1 capitals included). *)
Definition toLower (c : ascii) : ascii :=
  if isUpper c || (inRange 192 222 c && negb (code c =? 215))
  then ascii_of_N (N_of_ascii c + 32) else c.

(** One character of [toUpperCase]; the capitals of the Latin-1 letters
    181, 223 and 255 lie outside Latin-1 and are not reproduced. *)
Definition toUpper (c : ascii) : ascii :=
  if isLower c || (inRange 224 254 c && negb (code c =? 247))
  then ascii_of_N (N_of_ascii c - 32) else c.

End Chars.
Import Chars.

Module Str.

Fixpoint takeWhile (p : ascii -> bool) (s : string) : string :=
  match s with
  | String c r => if p c then String c (takeWhile p r) else ""
  | EmptyString => ""
  end.

Fixpoint dropWhile (p : ascii -> bool) (s : string) : string :=
  match s with
  | String c r => if p c then dropWhile p r else s
  | EmptyString => ""
  end.

Fixpoint drop (n : nat) (s : string) : string :=
  match n, s with
  | S k, String _ r => drop k r
  | _, _ => s
  end.

Fixpoint filter (p : ascii -> bool) (s : string) : string :=
  match s with
  | String c r => if p c then String c (filter p r) else filter p r
  | EmptyString => ""
  end.

Fixpoint map (f : ascii -> ascii) (s : string) : string :=
  match s with
  | String c r => String (f c) (map f r)
  | EmptyString => ""
  end.

Fixpoint last (s : string) : option ascii :=
  match s with
  | EmptyString => None
  | String c EmptyString => Some c
  | String _ r => last r
  end.

(** The string without its last character. *)
Fixpoint init (s : string) : string :=
  match s with
  | EmptyString => ""
  | String c EmptyString => ""
  | String c r => String c (init r)
  end.

Definition isEmpty (s : string) : bool :=
  match s with EmptyString => true | _ => false end.

Definition trimStart (s : string) : string := dropWhile isSpace s.

Fixpoint trimEnd (s : string) : string :=
  match s with
  | EmptyString => ""
  | String c r =>
      match trimEnd r with
      | EmptyString => if isSpace c then "" else String c ""
      | r' => String c r'
      end
  end.

Definition trim (s : string) : string := trimEnd (trimStart s).

Definition startsWith (pre s : string) : bool := String.prefix pre s.

Fixpoint includes (pat s : string) : bool :=
  String.prefix pat s ||
  match s with
  | String _ r => includes pat r
  | EmptyString => false
  end.

(** [s.indexOf(pat)], [None] for -1. *)
Fixpoint indexOf (pat s : string) : option nat :=
  if String.prefix pat s then Some 0%nat
  else match s with
       | String _ r => S <$> indexOf pat r
       | EmptyString => None
       end.

Definition endsWith (suf s : string) : bool :=
  (String.length suf <=? String.length s)%nat &&
  String.eqb (drop (String.length s - String.length suf) s) suf.

Fixpoint take (n : nat) (s : string) : string :=
  match n, s with
  | S k, String c r => String c (take k r)
  | _, _ => ""
  end.

Definition toLowerCase (s : string) : string := map toLower s.

(** [s.replace(/\s+/g, '')] *)
Definition removeSpaces (s : string) : string :=
  filter (fun c => negb (isSpace c)) s.

Fixpoint repeat (s : string) (n : nat) : string :=
  match n with
  | O => ""
  | S k => s ++ repeat s k
  end.

Definition toUpperCase (s : string) : string := map toUpper s.

(** [s.padStart(n, c)] for a single character [c]. *)
Definition padStart (n : nat) (c : string) (s : string) : string :=
  repeat c (n - String.length s) ++ s.

End Str.

(** ** Numbers *)

Module Num.

(** An integer as the nearest double (ties to even); the identity below
    2^53.  [parseInt] returns its mathematical value this way. *)
Definition roundToDouble (n : Z) : Z :=
  if n <? 2 ^ 53 then n
  else
    let e := Z.log2 n - 52 in
    let q := n / 2 ^ e in
    let r := n mod 2 ^ e in
    let half := 2 ^ (e - 1) in
    if r <? half then q * 2 ^ e
    else if half <? r then (q + 1) * 2 ^ e
    else if Z.even q then q * 2 ^ e
    else (q + 1) * 2 ^ e.

(** ToInt32 *)
Definition toInt32 (n : Z) : Z :=
  let m := n mod 2 ^ 32 in
  if m <? 2 ^ 31 then m else m - 2 ^ 32.

(** Value of a digit in a radix up to 36. *)
Definition digitValue (c : ascii) : option Z :=
  if isDigit c then Some (code c - 48)
  else if isLower c then Some (code c - 97 + 10)
  else if isUpper c then Some (code c - 65 + 10)
  else None.

Definition isRadixDigit (radix : Z) (c : ascii) : bool :=
  match digitValue c with
  | Some d => d <? radix
  | None => false
  end.

Fixpoint digitsValue (radix : Z) (acc : Z) (s : string) : Z :=
  match s with
  | String c r => digitsValue radix (acc * radix + default 0 (digitValue c)) r
  | EmptyString => acc
  end.

(** [parseInt(s, radix)]; radix 0 stands for an absent radix.  [None] is
    NaN. *)
Definition parseInt (s : string) (radix : Z) : option Z :=
  let s1 := Str.trimStart s in
  let '(sign, s2) :=
    match s1 with
    | String "-" r => (-1, r)
    | String "+" r => (1, r)
    | _ => (1, s1)
    end in
  if negb (radix =? 0) && ((radix <? 2) || (36 <? radix)) then None
  else
    let stripPrefix := (radix =? 0) || (radix =? 16) in
    let r0 := if radix =? 0 then 10 else radix in
    let '(r1, s3) :=
      if stripPrefix && (Str.startsWith "0x" s2 || Str.startsWith "0X" s2)
      then (16, Str.drop 2 s2) else (r0, s2) in
    let digits := Str.takeWhile (isRadixDigit r1) s3 in
    if Str.isEmpty digits then None
    else Some (sign * roundToDouble (digitsValue r1 0 digits)).

(** [x & 0xFF] for a number [x]. *)
Definition mask8 (n : Z) : Z := Z.land (toInt32 n) 255.

(** [parseInt(..) & 0xFF]: NaN becomes 0. *)
Definition maskParsed (o : option Z) : Z := mask8 (default 0 o).

Fixpoint digitsOfPos (fuel : nat) (n : Z) (acc : string) : string :=
  match fuel with
  | O => acc
  | S k =>
      let acc' := String (ascii_of_N (Z.to_N (48 + n mod 10))) acc in
      if n <? 10 then acc' else digitsOfPos k (n / 10) acc'
  end.

(** [String(n)] for an integer [n]; JavaScript switches to exponent
    notation from 10^21 on, which is not reproduced. *)
Definition numberToString (n : Z) : string :=
  if n <? 0 then "-" ++ digitsOfPos (Z.to_nat (Z.log2 (- n)) + 1) (- n) ""
  else digitsOfPos (Z.to_nat (Z.log2 n) + 1) n "".

(** The digit of the value [d] below 36, as [toString] writes it. *)
Definition digitChar (d : Z) : ascii :=
  ascii_of_N (Z.to_N (if d <? 10 then 48 + d else 87 + d)).

Fixpoint digitsOfRadix (fuel : nat) (radix n : Z) (acc : string) : string :=
  match fuel with
  | O => acc
  | S k =>
      let acc' := String (digitChar (n mod radix)) acc in
      if n <? radix then acc' else digitsOfRadix k radix (n / radix) acc'
  end.

(** [n.toString(radix)] for an integer [n] and a radix from 2 to 36. *)
Definition toStringRadix (n radix : Z) : string :=
  if n <? 0
  then "-" ++ digitsOfRadix (Z.to_nat (Z.log2 (- n)) + 1) radix (- n) ""
  else digitsOfRadix (Z.to_nat (Z.log2 n) + 1) radix n "".

End Num.
Import Num.

(** ** Values and plain objects *)

(** What a property read of a dictionary object can give: a number, a
    member inherited from [Object.prototype] (a function, or the
    prototype object itself for [__proto__]), or [undefined]. *)
Inductive jsval : Type :=
  | VNum (n : Z)
  | VProto (name : string)
  | VUndefined.

#[global] Instance jsval_eq_dec : EqDecision jsval.
Proof. solve_decision. Defined.

Module Obj.

(** The property names every plain object inherits. *)
Definition objectPrototypeKeys : list string :=
  [ "constructor"; "hasOwnProperty"; "isPrototypeOf"; "propertyIsEnumerable";
    "toLocaleString"; "toString"; "valueOf"; "__proto__";
    "__defineGetter__"; "__defineSetter__"; "__lookupGetter__";
    "__lookupSetter__" ].

Definition inherited (k : string) : bool :=
  existsb (String.eqb k) objectPrototypeKeys.

(** [k in o] *)
Definition hasProperty (o : gmap string Z) (k : string) : bool :=
  match o !! k with
  | Some _ => true
  | None => inherited k
  end.

(** [o[k]] *)
Definition getProperty (o : gmap string Z) (k : string) : jsval :=
  match o !! k with
  | Some n => VNum n
  | None => if inherited k then VProto k else VUndefined
  end.

(** [o[k] = n] for a number [n].  Without an own property of that name,
    assigning to [__proto__] runs the inherited setter, which ignores a
    number. *)
Definition setProperty (o : gmap string Z) (k : string) (n : Z)
  : gmap string Z :=
  match o !! k with
  | None => if String.eqb k "__proto__" then o else <[k := n]> o
  | Some _ => <[k := n]> o
  end.

End Obj.
Import Obj.

Module JS.

(** ToInt32 of a value: an inherited member and [undefined] convert to
    NaN, then 0. *)
Definition int32 (v : jsval) : Z :=
  match v with
  | VNum n => toInt32 n
  | VProto _ | VUndefined => 0
  end.

(** [v ?? d] *)
Definition nullish (v d : jsval) : jsval :=
  match v with
  | VUndefined => d
  | _ => v
  end.

(** Shift count: ToUint32 of the right operand, masked with 31. *)
Definition shiftCount (v : jsval) : Z := int32 v mod 32.

Definition bitOr (a b : jsval) : Z := Z.lor (int32 a) (int32 b).
Definition bitAnd (a b : jsval) : Z := Z.land (int32 a) (int32 b).
Definition bitXor (a b : jsval) : Z := Z.lxor (int32 a) (int32 b).
Definition bitNot (a : jsval) : Z := Z.lnot (int32 a).
Definition shl (a b : jsval) : Z := toInt32 (Z.shiftl (int32 a) (shiftCount b)).
Definition shr (a b : jsval) : Z := Z.shiftr (int32 a) (shiftCount b).

(** [v & 0xFF] *)
Definition byteOf (v : jsval) : Z := Z.land (int32 v) 255.

(** Template rendering [`${v}`]; the text of a native function is the
    engine's. *)
Definition toString (v : jsval) : string :=
  match v with
  | VNum n => numberToString n
  | VProto "__proto__" => "[object Object]"
  | VProto "constructor" => "function Object() { [native code] }"
  | VProto k => "function " ++ k ++ "() { [native code] }"
  | VUndefined => "undefined"
  end.

End JS.

(** ** Symbol table ([data/atmega2560.ts]) *)

Module Atmega.

Record PortInfo := {
  name : string;
  ddr : string;
  port : string;
  pin : string;
  bits : list string;
  ddrBits : list string;
  pinBits : list string;
}.

Definition portNames : list string :=
  ["A"; "B"; "C"; "D"; "E"; "F"; "G"; "H"; "J"; "K"; "L"].

Definition indices : list Z := [0; 1; 2; 3; 4; 5; 6; 7].

Definition ports : list PortInfo :=
  (fun n =>
     {| name := n;
        ddr := "DDR" ++ n;
        port := "PORT" ++ n;
        pin := "PIN" ++ n;
        bits := (fun i => "P" ++ n ++ numberToString i) <$> indices;
        ddrBits := (fun i => "DD" ++ n ++ numberToString i) <$> indices;
        pinBits := (fun i => "PIN" ++ n ++ numberToString i) <$> indices |})
  <$> portNames.

(** The loop body [m[names[i]] = i] for [i] from 0 to 7. *)
Definition putIndexed (names : list string) (m : gmap string Z)
  : gmap string Z :=
  foldl (fun m '(k, i) => <[k := i]> m) m (zip names indices).

Definition bitNameMap : gmap string Z :=
  foldl (fun m p => putIndexed (pinBits p) (putIndexed (ddrBits p)
                      (putIndexed (bits p) m)))
        ∅ ports.

Definition namedRegisterBits : list (string * list (string * Z)) :=
  [ ("UCSR0A", [("MPCM0", 0); ("U2X0", 1); ("UPE0", 2); ("DOR0", 3);
                ("FE0", 4); ("UDRE0", 5); ("TXC0", 6); ("RXC0", 7)]);
    ("UCSR0B", [("TXB80", 0); ("RXB80", 1); ("UCSZ02", 2); ("TXEN0", 3);
                ("RXEN0", 4); ("UDRIE0", 5); ("TXCIE0", 6); ("RXCIE0", 7)]);
    ("UCSR0C", [("UCPOL0", 0); ("UCSZ00", 1); ("UCSZ01", 2); ("USBS0", 3);
                ("UPM00", 4); ("UPM01", 5); ("UMSEL00", 6); ("UMSEL01", 7)]);
    ("TCCR0A", [("WGM00", 0); ("WGM01", 1); ("COM0B0", 4); ("COM0B1", 5);
                ("COM0A0", 6); ("COM0A1", 7)]);
    ("TCCR0B", [("CS00", 0); ("CS01", 1); ("CS02", 2); ("WGM02", 3);
                ("FOC0B", 6); ("FOC0A", 7)]);
    ("TCCR1A", [("WGM10", 0); ("WGM11", 1); ("COM1C0", 2); ("COM1C1", 3);
                ("COM1B0", 4); ("COM1B1", 5); ("COM1A0", 6); ("COM1A1", 7)]);
    ("TCCR1B", [("CS10", 0); ("CS11", 1); ("CS12", 2); ("WGM12", 3);
                ("WGM13", 4); ("ICES1", 6); ("ICNC1", 7)]);
    ("TCCR3A", [("WGM30", 0); ("WGM31", 1); ("COM3C0", 2); ("COM3C1", 3);
                ("COM3B0", 4); ("COM3B1", 5); ("COM3A0", 6); ("COM3A1", 7)]);
    ("TCCR3B", [("CS30", 0); ("CS31", 1); ("CS32", 2); ("WGM32", 3);
                ("WGM33", 4); ("ICES3", 6); ("ICNC3", 7)]);
    ("ADMUX", [("MUX0", 0); ("MUX1", 1); ("MUX2", 2); ("MUX3", 3);
               ("MUX4", 4); ("ADLAR", 5); ("REFS0", 6); ("REFS1", 7)]);
    ("ADCSRA", [("ADPS0", 0); ("ADPS1", 1); ("ADPS2", 2); ("ADIE", 3);
                ("ADIF", 4); ("ADATE", 5); ("ADSC", 6); ("ADEN", 7)]);
    ("SPCR", [("SPR0", 0); ("SPR1", 1); ("CPHA", 2); ("CPOL", 3);
              ("MSTR", 4); ("DORD", 5); ("SPE", 6); ("SPIE", 7)]);
    ("EICRA", [("ISC00", 0); ("ISC01", 1); ("ISC10", 2); ("ISC11", 3);
               ("ISC20", 4); ("ISC21", 5); ("ISC30", 6); ("ISC31", 7)]);
    ("EIMSK", [("INT0", 0); ("INT1", 1); ("INT2", 2); ("INT3", 3);
               ("INT4", 4); ("INT5", 5); ("INT6", 6); ("INT7", 7)]) ].

(** [{ ...bitNameMap }] overlaid with every named register bit. *)
Definition allNamedBits : gmap string Z :=
  foldl (fun m reg =>
           foldl (fun m '(k, v) => <[k := v]> m) m (snd reg))
        bitNameMap namedRegisterBits.

Definition allRegisterNames : gset string :=
  list_to_set (fst <$> namedRegisterBits) ∪
  foldl (fun s p => {[pin p]} ∪ ({[port p]} ∪ ({[ddr p]} ∪ s))) ∅ ports.

End Atmega.
Import Atmega.

(** ** Tokenizer ([evaluator.ts], [tokenize]) *)

Inductive TokenType : Type :=
  | NUMBER | IDENTIFIER | LPAREN | RPAREN
  | OR | AND | XOR | NOT | LSHIFT | RSHIFT
  | ASSIGN | OR_ASSIGN | AND_ASSIGN | XOR_ASSIGN
  | SEMICOLON | EOF.

#[global] Instance TokenType_eq_dec : EqDecision TokenType.
Proof. solve_decision. Defined.

Record Token := mkToken {
  type : TokenType;
  value : string;
  numValue : option Z;
}.

#[global] Instance Token_eq_dec : EqDecision Token.
Proof. solve_decision. Defined.

Definition tok (t : TokenType) (v : string) : Token := mkToken t v None.
Definition numTok (v : string) (n : Z) : Token := mkToken NUMBER v (Some n).
Definition eofToken : Token := tok EOF "".

(** Name of a token type, as the error messages print it. *)
Definition typeName (t : TokenType) : string :=
  match t with
  | NUMBER => "NUMBER" | IDENTIFIER => "IDENTIFIER"
  | LPAREN => "LPAREN" | RPAREN => "RPAREN"
  | OR => "OR" | AND => "AND" | XOR => "XOR" | NOT => "NOT"
  | LSHIFT => "LSHIFT" | RSHIFT => "RSHIFT"
  | ASSIGN => "ASSIGN" | OR_ASSIGN => "OR_ASSIGN"
  | AND_ASSIGN => "AND_ASSIGN" | XOR_ASSIGN => "XOR_ASSIGN"
  | SEMICOLON => "SEMICOLON" | EOF => "EOF"
  end.

Module Lexer.

(** The two-character operators, tried when a next character exists. *)
Definition twoCharOp (c d : ascii) : option Token :=
  if Ascii.eqb c "|" && Ascii.eqb d "=" then Some (tok OR_ASSIGN "|=")
  else if Ascii.eqb c "&" && Ascii.eqb d "=" then Some (tok AND_ASSIGN "&=")
  else if Ascii.eqb c "^" && Ascii.eqb d "=" then Some (tok XOR_ASSIGN "^=")
  else if Ascii.eqb c "<" && Ascii.eqb d "<" then Some (tok LSHIFT "<<")
  else if Ascii.eqb c ">" && Ascii.eqb d ">" then Some (tok RSHIFT ">>")
  else None.

Definition oneCharOp (c : ascii) : option Token :=
  if Ascii.eqb c "=" then Some (tok ASSIGN "=")
  else if Ascii.eqb c "|" then Some (tok OR "|")
  else if Ascii.eqb c "&" then Some (tok AND "&")
  else if Ascii.eqb c "^" then Some (tok XOR "^")
  else if Ascii.eqb c "~" then Some (tok NOT "~")
  else if Ascii.eqb c "(" then Some (tok LPAREN "(")
  else if Ascii.eqb c ")" then Some (tok RPAREN ")")
  else None.

(** The number literal that starts with the digit [c], followed by
    [rest]: the token and how many characters of [rest] it takes. *)
Definition lexNumber (c : ascii) (rest : string) : Token * nat :=
  let decimal :=
    let numStr := String c (Str.takeWhile isDigit rest) in
    (numTok numStr (maskParsed (parseInt numStr 10)),
     String.length (Str.takeWhile isDigit rest)) in
  match rest with
  | String x r =>
      if Ascii.eqb c "0" && (Ascii.eqb x "x" || Ascii.eqb x "X") then
        let numStr := "0x" ++ Str.takeWhile isHexDigit r in
        (numTok numStr (maskParsed (parseInt numStr 16)),
         S (String.length (Str.takeWhile isHexDigit r)))
      else if Ascii.eqb c "0" && (Ascii.eqb x "b" || Ascii.eqb x "B") then
        let numStr := "0b" ++ Str.takeWhile isBinDigit r in
        (numTok numStr (maskParsed (parseInt (Str.drop 2 numStr) 2)),
         S (String.length (Str.takeWhile isBinDigit r)))
      else decimal
  | EmptyString => decimal
  end.

(** One turn of the loop at a position holding [c], with [rest] after
    it: the token pushed, if any, and how many characters of [rest] the
    turn consumes besides [c]. *)
Definition tokenAt (c : ascii) (rest : string) : option Token * nat :=
  if isSpace c then (None, 0%nat)
  else if Ascii.eqb c ";" then (Some (tok SEMICOLON ";"), 0%nat)
  else
    match (match rest with
           | String d _ => twoCharOp c d
           | EmptyString => None
           end) with
    | Some t => (Some t, 1%nat)
    | None =>
        match oneCharOp c with
        | Some t => (Some t, 0%nat)
        | None =>
            if isDigit c then
              let '(t, n) := lexNumber c rest in (Some t, n)
            else if isIdentStart c then
              let id := Str.takeWhile isIdentChar rest in
              (Some (tok IDENTIFIER (String c id)), String.length id)
            else (None, 0%nat)
        end
    end.

(** The loop over the index [i]: [skip] characters are already consumed
    by the token before. *)
Fixpoint tokenizeFrom (s : string) (skip : nat) : list Token :=
  match s with
  | EmptyString => [eofToken]
  | String c rest =>
      match skip with
      | S k => tokenizeFrom rest k
      | O =>
          match tokenAt c rest with
          | (Some t, n) => t :: tokenizeFrom rest n
          | (None, n) => tokenizeFrom rest n
          end
      end
  end.

Definition tokenize (input : string) : list Token :=
  tokenizeFrom (Str.trim input) 0.

End Lexer.
Import Lexer.

(** ** Parser ([evaluator.ts], class [Parser]) *)

Inductive result (A : Type) : Type :=
  | Ok (a : A)
  | Throw (msg : string).
Arguments Ok {A} a.
Arguments Throw {A} msg.

Module Parser.

(** The cursor [(tokens, pos)] is kept as the tokens from [pos] on.  A
    parser step returns [None] when its recursion budget is used up
    (see [parseStatement_fuel]), else the value or the thrown error. *)
Definition M (A : Type) : Type :=
  list Token -> option (result (A * list Token)).

Definition ret {A} (a : A) : M A := fun ts => Some (Ok (a, ts)).
Definition throw {A} (msg : string) : M A := fun _ => Some (Throw msg).
Definition outOfFuel {A} : M A := fun _ => None.

Definition bind {A B} (m : M A) (f : A -> M B) : M B :=
  fun ts =>
    match m ts with
    | Some (Ok (a, ts')) => f a ts'
    | Some (Throw msg) => Some (Throw msg)
    | None => None
    end.

#[export] Instance M_bind : MBind M := fun A B f m => bind m f.

(** [this.tokens[this.pos] || { type: 'EOF', value: '' }] *)
Definition peek : M Token :=
  fun ts => Some (Ok (hd eofToken ts, ts)).

(** [this.pos++] *)
Definition advance : M unit :=
  fun ts => Some (Ok (tt, tl ts)).

Definition expect (ty : TokenType) : M Token :=
  t ← peek;
  if decide (type t = ty) then advance;; ret t
  else throw ("Expected " ++ typeName ty ++ " but got " ++ typeName (type t)
              ++ " ('" ++ value t ++ "')").

Definition byte (n : Z) : jsval := VNum (Z.land n 255).

Fixpoint parseOr (n : nat) : M jsval :=
  match n with
  | O => outOfFuel
  | S n => left ← parseXor n; orLoop n left
  end
with orLoop (n : nat) (left : jsval) : M jsval :=
  match n with
  | O => outOfFuel
  | S n =>
      t ← peek;
      if decide (type t = OR) then
        advance;; r ← parseXor n; orLoop n (byte (JS.bitOr left r))
      else ret left
  end
with parseXor (n : nat) : M jsval :=
  match n with
  | O => outOfFuel
  | S n => left ← parseAnd n; xorLoop n left
  end
with xorLoop (n : nat) (left : jsval) : M jsval :=
  match n with
  | O => outOfFuel
  | S n =>
      t ← peek;
      if decide (type t = XOR) then
        advance;; r ← parseAnd n; xorLoop n (byte (JS.bitXor left r))
      else ret left
  end
with parseAnd (n : nat) : M jsval :=
  match n with
  | O => outOfFuel
  | S n => left ← parseShift n; andLoop n left
  end
with andLoop (n : nat) (left : jsval) : M jsval :=
  match n with
  | O => outOfFuel
  | S n =>
      t ← peek;
      if decide (type t = AND) then
        advance;; r ← parseShift n; andLoop n (byte (JS.bitAnd left r))
      else ret left
  end
with parseShift (n : nat) : M jsval :=
  match n with
  | O => outOfFuel
  | S n => left ← parseUnary n; shiftLoop n left
  end
with shiftLoop (n : nat) (left : jsval) : M jsval :=
  match n with
  | O => outOfFuel
  | S n =>
      op ← peek;
      if decide (type op = LSHIFT) then
        advance;; right ← parseUnary n;
        shiftLoop n (byte (JS.shl left right))
      else if decide (type op = RSHIFT) then
        advance;; right ← parseUnary n;
        shiftLoop n (byte (JS.shr left right))
      else ret left
  end
with parseUnary (n : nat) : M jsval :=
  match n with
  | O => outOfFuel
  | S n =>
      t ← peek;
      if decide (type t = NOT) then
        advance;; v ← parseUnary n; ret (byte (JS.bitNot v))
      else parsePrimary n
  end
with parsePrimary (n : nat) : M jsval :=
  match n with
  | O => outOfFuel
  | S n =>
      t ← peek;
      match type t with
      | NUMBER =>
          advance;;
          ret (match numValue t with Some v => VNum v | None => VUndefined end)
      | IDENTIFIER =>
          advance;;
          if hasProperty allNamedBits (value t)
          then ret (getProperty allNamedBits (value t))
          else throw ("Unknown identifier: " ++ value t)
      | LPAREN =>
          advance;; val ← parseOr n; expect RPAREN;; ret val
      | _ =>
          throw ("Unexpected token: " ++ typeName (type t)
                 ++ " ('" ++ value t ++ "')")
      end
  end.

Definition parseExpression (n : nat) : M jsval := parseOr n.

Record Statement := {
  register : string;
  stmtValue : jsval;
  op : string;
}.

(** [parseStatement]; [None] inside [Ok] is the [null] return. *)
Definition parseStatement_fuel (n : nat) : M (option Statement) :=
  t ← peek;
  if decide (type t = EOF) then ret None
  else if decide (type t = SEMICOLON) then advance;; ret None
  else
    regToken ← expect IDENTIFIER;
    opToken ← peek;
    op ← match type opToken with
         | ASSIGN => advance;; ret "="
         | OR_ASSIGN => advance;; ret "|="
         | AND_ASSIGN => advance;; ret "&="
         | XOR_ASSIGN => advance;; ret "^="
         | _ => throw ("Expected assignment operator but got '"
                       ++ value opToken ++ "'")
         end;
    exprValue ← parseExpression n;
    t' ← peek;
    (if decide (type t' = SEMICOLON) then advance else ret tt);;
    ret (Some {| register := value regToken; stmtValue := exprValue;
                 op := op |}).

(** A recursion budget that the tokens left cannot use up
    (see [parseStatement_total]). *)
Definition fuelFor (ts : list Token) : nat := (10 * length ts + 20)%nat.

Definition parseStatement : M (option Statement) :=
  fun ts => parseStatement_fuel (fuelFor ts) ts.

End Parser.

(** ** [evaluate] and [checkAnswer] *)

Record Step := {
  stepRegister : string;
  stepOp : string;
  exprValue : jsval;
  before : jsval;
  after : Z;
}.

Record EvalResult := {
  success : bool;
  registerStates : gmap string Z;
  error : option string;
  steps : list Step;
}.

Module Eval.

Import Parser.

(** The [switch (stmt.op)]: the new register value, or the message of
    the thrown error. *)
Definition applyOp (o : string) (before v : jsval) : result Z :=
  if String.eqb o "=" then Ok (JS.byteOf v)
  else if String.eqb o "|=" then Ok (Z.land (JS.bitOr before v) 255)
  else if String.eqb o "&=" then Ok (Z.land (JS.bitAnd before v) 255)
  else if String.eqb o "^=" then Ok (Z.land (JS.bitXor before v) 255)
  else Throw ("Unknown operator: " ++ o).

(** The [catch] branch; [e.message || 'Parse error']. *)
Definition failed (states : gmap string Z) (steps : list Step)
    (msg : string) : EvalResult :=
  {| success := false; registerStates := states;
     error := Some (if Str.isEmpty msg then "Parse error" else msg);
     steps := steps |}.

Definition succeeded (states : gmap string Z) (steps : list Step)
  : EvalResult :=
  {| success := true; registerStates := states; error := None;
     steps := steps |}.

(** [tokens[parser['pos']]?.type === 'EOF'] *)
Definition atEOF (ts : list Token) : bool :=
  match ts with
  | t :: _ => bool_decide (type t = EOF)
  | [] => false
  end.

(** The [while] loop of [evaluate]; [safety] counts the turns left of
    the 100 allowed.  [None] only if the parser ran out of budget. *)
Fixpoint evalLoop (safety : nat) (ts : list Token)
    (states : gmap string Z) (steps : list Step) : option EvalResult :=
  match safety with
  | O => Some (succeeded states steps)
  | S safety' =>
      match parseStatement ts with
      | None => None
      | Some (Throw msg) => Some (failed states steps msg)
      | Some (Ok (None, ts')) =>
          if atEOF ts' then Some (succeeded states steps)
          else evalLoop safety' ts' states steps
      | Some (Ok (Some stmt, ts')) =>
          let before := JS.nullish (getProperty states (register stmt))
                                   (VNum 0) in
          match applyOp (op stmt) before (stmtValue stmt) with
          | Throw msg => Some (failed states steps msg)
          | Ok after =>
              evalLoop safety' ts'
                (setProperty states (register stmt) after)
                (steps ++ [ {| stepRegister := register stmt;
                               stepOp := op stmt;
                               exprValue := stmtValue stmt;
                               before := before;
                               after := after |} ])
          end
      end
  end.

(** The bound of the [safety] counter. *)
Definition maxStatements : nat := 100.

Definition evaluate (code : string) (initialStates : gmap string Z)
  : option EvalResult :=
  evalLoop maxStatements (tokenize code) initialStates [].

Record CheckResult := {
  correct : bool;
  userResult : option jsval;
  expected : Z;
  checkError : option string;
  checkSteps : list Step;
}.

(** [a === n] for a number [n] *)
Definition strictEqNum (a : jsval) (n : Z) : bool :=
  match a with
  | VNum m => m =? n
  | _ => false
  end.

Definition checkAnswer (userCode targetRegister : string)
    (initialValue expectedValue : Z) : option CheckResult :=
  result ← evaluate userCode {[ targetRegister := initialValue ]};
  Some
    (if negb (success result) then
       {| correct := false; userResult := None; expected := expectedValue;
          checkError := error result; checkSteps := steps result |}
     else
       let userResult :=
         JS.nullish (getProperty (registerStates result) targetRegister)
                    (VNum initialValue) in
       {| correct := strictEqNum userResult expectedValue;
          userResult := Some userResult; expected := expectedValue;
          checkError := None; checkSteps := steps result |}).

End Eval.
Import Eval.

(** ** Live expression analyzer ([expressionDisplay.ts]) *)

Inductive PartType : Type :=
  | PRegister | POperator | PValue | PParen | PShadow | PShiftOp | PSeparator.

Record ExpressionPart := mkPart {
  text : string;
  partType : PartType;
  binaryValue : option jsval;
  label : option string;
}.

Record ExpressionBreakdown := {
  parts : list ExpressionPart;
  resultPreview : option Z;
  registerName : option string;
  operator : option string;
  operandValue : option jsval;
  description : string;
}.

Module Analyzer.

(** [null] is [None]. *)
Definition resolveIdentifier (name : string) : option jsval :=
  if hasProperty allNamedBits name then Some (getProperty allNamedBits name)
  else None.

Definition parseNumberLiteral (s : string) : option Z :=
  let cleaned := Str.toLowerCase (Str.trim s) in
  if Str.startsWith "0x" cleaned then
    mask8 <$> parseInt cleaned 16
  else if Str.startsWith "0b" cleaned then
    mask8 <$> parseInt (Str.drop 2 cleaned) 2
  else if negb (Str.isEmpty cleaned)
          && Str.isEmpty (Str.dropWhile isDigit cleaned) then
    mask8 <$> parseInt cleaned 10
  else None.

Fixpoint isBalancedFrom (depth : Z) (s : string) : bool :=
  match s with
  | EmptyString => depth =? 0
  | String c r =>
      let d1 := if Ascii.eqb c "(" then depth + 1 else depth in
      let d2 := if Ascii.eqb c ")" then d1 - 1 else d1 in
      if d2 <? 0 then false else isBalancedFrom d2 r
  end.

Definition isBalanced (s : string) : bool := isBalancedFrom 0 s.

(** [s[i + 1] === d] *)
Definition nextIs (rest : string) (d : ascii) : bool :=
  match rest with
  | String x _ => Ascii.eqb x d
  | EmptyString => false
  end.

Fixpoint splitLoop (op : ascii) (s : string) (depth : Z) (current : string)
    (parts : list string) : list string :=
  match s with
  | EmptyString =>
      if Str.isEmpty current then parts else parts ++ [current]
  | String c rest =>
      let d1 := if Ascii.eqb c "(" then depth + 1 else depth in
      let d2 := if Ascii.eqb c ")" then d1 - 1 else d1 in
      if (d2 =? 0) && Ascii.eqb c op
         && negb (Ascii.eqb op "&" && nextIs rest "=")
         && negb (Ascii.eqb op "|" && nextIs rest "=")
         && negb (Ascii.eqb op "^" && nextIs rest "=")
      then
        if Ascii.eqb op "<" && nextIs rest "<" then
          splitLoop op rest d2 (current ++ String c "") parts
        else if Ascii.eqb op ">" && nextIs rest ">" then
          splitLoop op rest d2 (current ++ String c "") parts
        else splitLoop op rest d2 "" (parts ++ [current])
      else splitLoop op rest d2 (current ++ String c "") parts
  end.

Definition splitOnOperator (s : string) (op : ascii) : list string :=
  splitLoop op s 0 "" [].

(** The loop that removes outer parentheses; it runs at most
    [length s] times. *)
Fixpoint stripOuterParens (turns : nat) (s : string) : string :=
  match turns with
  | O => s
  | S k =>
      if Str.startsWith "(" s && Str.endsWith ")" s
         && isBalanced (Str.init (Str.drop 1 s))
      then stripOuterParens k (Str.init (Str.drop 1 s))
      else s
  end.

Section SafeEvalLoops.

(** The recursive call, with its budget. *)
Variable rec : string -> option (option jsval).

Fixpoint orParts (ps : list string) (acc : Z) : option (option jsval) :=
  match ps with
  | [] => Some (Some (VNum (mask8 acc)))
  | p :: ps' =>
      match rec p with
      | None => None
      | Some None => Some None
      | Some (Some val) => orParts ps' (JS.bitOr (VNum acc) val)
      end
  end.

Fixpoint andParts (ps : list string) (acc : Z) : option (option jsval) :=
  match ps with
  | [] => Some (Some (VNum (mask8 acc)))
  | p :: ps' =>
      match rec p with
      | None => None
      | Some None => Some None
      | Some (Some val) => andParts ps' (JS.bitAnd (VNum acc) val)
      end
  end.

Fixpoint xorParts (ps : list string) (first : bool) (acc : jsval)
  : option (option jsval) :=
  match ps with
  | [] => Some (Some (VNum (JS.byteOf acc)))
  | p :: ps' =>
      match rec p with
      | None => None
      | Some None => Some None
      | Some (Some val) =>
          xorParts ps' false
            (if first then val else VNum (JS.bitXor acc val))
      end
  end.

End SafeEvalLoops.

(** [safeEval]; the outer [None] is an exhausted recursion budget. *)
Fixpoint safeEval_fuel (fuel : nat) (expr : string)
  : option (option jsval) :=
  match fuel with
  | O => None
  | S fuel' =>
      let s0 := Str.removeSpaces expr in
      let s := stripOuterParens (String.length s0) s0 in
      let orPs := splitOnOperator s "|" in
      if (1 <? length orPs)%nat then orParts (safeEval_fuel fuel') orPs 0
      else
        let andPs := splitOnOperator s "&" in
        if (1 <? length andPs)%nat
        then andParts (safeEval_fuel fuel') andPs 255
        else
          let xorPs := splitOnOperator s "^" in
          if (1 <? length xorPs)%nat
          then xorParts (safeEval_fuel fuel') xorPs true (VNum 0)
          else if Str.startsWith "~" s then
            match safeEval_fuel fuel' (Str.drop 1 s) with
            | None => None
            | Some None => Some None
            | Some (Some val) => Some (Some (VNum (Z.land (JS.bitNot val) 255)))
            end
          else
            match Str.indexOf "<<" s with
            | Some i =>
                match safeEval_fuel fuel' (Str.take i s),
                      safeEval_fuel fuel' (Str.drop (i + 2) s) with
                | Some (Some l), Some (Some r) =>
                    Some (Some (VNum (Z.land (JS.shl l r) 255)))
                | None, _ | _, None => None
                | _, _ => Some None
                end
            | None =>
                match Str.indexOf ">>" s with
                | Some i =>
                    match safeEval_fuel fuel' (Str.take i s),
                          safeEval_fuel fuel' (Str.drop (i + 2) s) with
                    | Some (Some l), Some (Some r) =>
                        Some (Some (VNum (Z.land (JS.shr l r) 255)))
                    | None, _ | _, None => None
                    | _, _ => Some None
                    end
                | None =>
                    match parseNumberLiteral s with
                    | Some num => Some (Some (VNum num))
                    | None =>
                        if hasProperty allNamedBits s
                        then Some (Some (getProperty allNamedBits s))
                        else Some None
                    end
                end
            end
  end.

(** Every recursive call of [safeEval] is on a shorter string, so this
    budget is never used up (see [safeEval_fuel_returns]). *)
Definition safeEval (expr : string) : option (option jsval) :=
  safeEval_fuel (S (String.length expr)) expr.

Definition tryEvaluatePartial (expr : string) : option jsval :=
  let trimmed := Str.trim expr in
  if Str.isEmpty trimmed then None
  else
    match parseNumberLiteral trimmed with
    | Some num => Some (VNum num)
    | None =>
        match resolveIdentifier trimmed with
        | Some resolved => Some resolved
        | None =>
            match safeEval trimmed with
            | Some r => r
            | None => None (* the [catch] *)
            end
        end
    end.

Fixpoint countUnmatchedFrom (depth : Z) (s : string) : Z :=
  match s with
  | EmptyString => depth
  | String c r =>
      let d1 := if Ascii.eqb c "(" then depth + 1 else depth in
      let d2 := if Ascii.eqb c ")" then Z.max 0 (d1 - 1) else d1 in
      countUnmatchedFrom d2 r
  end.

Definition countUnmatchedParens (s : string) : Z := countUnmatchedFrom 0 s.

Fixpoint bitsOf (width : nat) (n : Z) (acc : string) : string :=
  match width with
  | O => acc
  | S k => bitsOf k (n / 2) (String (if Z.odd n then "1" else "0")%char acc)
  end.

(** [(n & 0xFF).toString(2).padStart(8, '0')] *)
Definition toBin8 (v : jsval) : string := bitsOf 8 (JS.byteOf v) "".

Definition part (t : string) (ty : PartType) : ExpressionPart :=
  mkPart t ty None None.

(** [/^\(?(\d+)\s*<<\s*(\w+)\)?$/]: the two groups of a match. *)
Definition matchShift (rhs : string) : option (string * string) :=
  let s0 := match rhs with
            | String "(" r => r
            | _ => rhs
            end in
  let digits := Str.takeWhile isDigit s0 in
  if Str.isEmpty digits then None
  else
    match Str.dropWhile isSpace (Str.dropWhile isDigit s0) with
    | String "<" (String "<" s2) =>
        let s3 := Str.dropWhile isSpace s2 in
        let word := Str.takeWhile isIdentChar s3 in
        if Str.isEmpty word then None
        else
          match Str.dropWhile isIdentChar s3 with
          | EmptyString => Some (digits, word)
          | String ")" EmptyString => Some (digits, word)
          | _ => None
          end
    | _ => None
    end.

(** The parts of the single-shift pattern. *)
Definition shiftParts (rhs digits shiftBy : string) : list ExpressionPart :=
  let base := default 0 (parseInt digits 0) in
  let shiftNum :=
    match parseNumberLiteral shiftBy with
    | Some n => Some (VNum n)
    | None => resolveIdentifier shiftBy
    end in
  let evaluated :=
    (fun n => Z.land (JS.shl (VNum base) n) 255) <$> shiftNum in
  ([ part "(" PParen;
     mkPart (numberToString base) PValue (Some (VNum (mask8 base)))
            (Some (numberToString base));
     part "<<" PShiftOp;
     mkPart shiftBy PValue shiftNum
            (Some (match shiftNum with
                   | Some n => ("bit " ++ JS.toString n)%string
                   | None => shiftBy
                   end)) ]
   ++ (if Str.endsWith ")" rhs || Str.endsWith ");" rhs
       then [ part ")" PParen ] else [])
   ++ match evaluated with
      | Some e => [ mkPart ("= " ++ toBin8 (VNum e))%string PSeparator
                           (Some (VNum e)) None ]
      | None => []
      end)%list.

(** [rhs.replace(/^\(/, '').replace(/\)$/, '')] *)
Definition stripOneParenEachSide (rhs : string) : string :=
  let a := match rhs with
           | String "(" r => r
           | _ => rhs
           end in
  if Str.endsWith ")" a then Str.init a else a.

Section OrSegments.

Variable rec : string -> option (list ExpressionPart).

Fixpoint orSegmentParts (first : bool) (segs : list string)
  : option (list ExpressionPart) :=
  match segs with
  | [] => Some []
  | seg :: segs' =>
      segParts ← rec (Str.trim seg);
      more ← orSegmentParts false segs';
      Some ((if first then [] else [ part "|" POperator ])
            ++ segParts ++ more)%list
  end.

End OrSegments.

(** [buildRhsParts]; [None] when [fuel] nested calls did not reach a
    return. *)
Fixpoint buildRhsParts (fuel : nat) (rhs : string)
  : option (list ExpressionPart) :=
  match fuel with
  | O => None
  | S fuel' =>
      match matchShift rhs with
      | Some (digits, shiftBy) => Some (shiftParts rhs digits shiftBy)
      | None =>
          if Str.startsWith "~" rhs then
            innerParts ← buildRhsParts fuel' (Str.drop 1 rhs);
            Some (part "~" POperator :: innerParts)
          else if Str.includes "|" rhs && Str.includes "<<" rhs then
            orSegmentParts (buildRhsParts fuel') true
              (splitOnOperator (stripOneParenEachSide rhs) "|")
          else
            Some [ mkPart rhs PValue (tryEvaluatePartial rhs) None ]
      end
  end.

(** The leading register name: a capital, then capitals, digits and
    underscores. *)
Definition matchRegister (s : string) : option string :=
  match s with
  | String c r =>
      if isUpper c then Some (String c (Str.takeWhile isRegChar r)) else None
  | EmptyString => None
  end.

(** [/^(\|=|&=|\^=|=)/] *)
Definition matchOperator (s : string) : option string :=
  if Str.startsWith "|=" s then Some "|="
  else if Str.startsWith "&=" s then Some "&="
  else if Str.startsWith "^=" s then Some "^="
  else if Str.startsWith "=" s then Some "="
  else None.

(** [s.replace(/;$/, '')] *)
Definition dropFinalSemicolon (s : string) : string :=
  if Str.endsWith ";" s then Str.init s else s.

(** The operator tables; the arrows are written in UTF-8. *)
Definition opLabel (o : string) : string :=
  if String.eqb o "=" then "←" else o.

Definition opDesc (o : string) : string :=
  if String.eqb o "=" then "Assign to"
  else if String.eqb o "|=" then "OR with"
  else if String.eqb o "&=" then "AND with"
  else "XOR with".

Definition opWord (o : string) : string :=
  if String.eqb o "=" then "Set"
  else if String.eqb o "|=" then "OR"
  else if String.eqb o "&=" then "AND"
  else "XOR".

(** The [switch (operator)] of the result preview. *)
Definition preview (o : string) (initialValue : Z) (operand : jsval)
  : option Z :=
  if String.eqb o "=" then Some (JS.byteOf operand)
  else if String.eqb o "|=" then
    Some (Z.land (JS.bitOr (VNum initialValue) operand) 255)
  else if String.eqb o "&=" then
    Some (Z.land (JS.bitAnd (VNum initialValue) operand) 255)
  else if String.eqb o "^=" then
    Some (Z.land (JS.bitXor (VNum initialValue) operand) 255)
  else None.

(** [parseExpression(input, _registerName, initialValue)]; [None] when
    [buildRhsParts] does not return within [fuel] nested calls. *)
Definition parseExpression (fuel : nat) (input _registerName : string)
    (initialValue : Z) : option ExpressionBreakdown :=
  let trimmed := Str.trim input in
  if Str.isEmpty trimmed then
    Some {| parts := []; resultPreview := None; registerName := None;
            operator := None; operandValue := None; description := "" |}
  else
    match matchRegister trimmed with
    | Some foundRegister =>
        let regPart :=
          mkPart foundRegister PRegister (Some (VNum initialValue)) None in
        let afterReg :=
          Str.trim (Str.drop (String.length foundRegister) trimmed) in
        if Str.isEmpty afterReg then
          Some {| parts := [regPart]; resultPreview := Some initialValue;
                  registerName := Some foundRegister; operator := None;
                  operandValue := None;
                  description := "Register " ++ foundRegister |}
        else
          match matchOperator afterReg with
          | Some o =>
              let opPart := part (opLabel o) POperator in
              let afterOp :=
                Str.trim (Str.drop (String.length o) afterReg) in
              if Str.isEmpty afterOp then
                Some {| parts := [regPart; opPart]; resultPreview := None;
                        registerName := Some foundRegister;
                        operator := Some o; operandValue := None;
                        description :=
                          opDesc o ++ " " ++ foundRegister ++ " ..." |}
              else
                let rhsClean := Str.trim (dropFinalSemicolon afterOp) in
                let operand := tryEvaluatePartial rhsClean in
                rhsParts ← buildRhsParts fuel rhsClean;
                let unmatched := countUnmatchedParens rhsClean in
                let shadow :=
                  if 0 <? unmatched
                  then [ part (Str.repeat ")" (Z.to_nat unmatched)) PShadow ]
                  else [] in
                Some {| parts := ([regPart; opPart] ++ rhsParts ++ shadow)%list;
                        resultPreview := v ← operand; preview o initialValue v;
                        registerName := Some foundRegister;
                        operator := Some o;
                        operandValue := operand;
                        description :=
                          match operand with
                          | Some v => opWord o ++ " → " ++ toBin8 v
                          | None => "typing..."
                          end |}
          | None =>
              Some {| parts := [regPart; part afterReg POperator];
                      resultPreview := None;
                      registerName := Some foundRegister;
                      operator := None; operandValue := None;
                      description :=
                        foundRegister ++ " " ++ afterReg ++ " ..." |}
          end
    | None =>
        Some {| parts := [ part trimmed PValue ]; resultPreview := None;
                registerName := None; operator := None;
                operandValue := None; description := "typing..." |}
    end.

End Analyzer.

(** ** Random choices ([Math.random]) *)

Module Random.

(** The values that the calls of [Math.random()] return, in the order
    of the calls: the next call returns [src 0].  The function returns
    numbers from 0 up to, not including, 1; what is proved of the
    generators assumes it of the source. *)
Definition Source : Type := nat -> Q.

(** A computation that draws random numbers.  [None] is a thrown
    [TypeError]. *)
Definition Gen (A : Type) : Type := Source -> option (A * Source).

Definition ret {A} (a : A) : Gen A := fun src => Some (a, src).

Definition typeError {A} : Gen A := fun _ => None.

Definition bind {A B} (m : Gen A) (f : A -> Gen B) : Gen B :=
  fun src =>
    match m src with
    | Some (a, src') => f a src'
    | None => None
    end.

#[global] Instance Gen_bind : MBind Gen := fun A B f m => bind m f.

(** [Math.random()] *)
Definition random : Gen Q :=
  fun src => Some (src 0%nat, fun i => src (S i)).

(** [Math.floor(Math.random() * n)] for an integer [n].  The product is
    exact here; the source rounds it to a double, which is again the
    floor of an exact product for some number from 0 up to 1, so that
    the two have the same outcomes. *)
Definition randomIndex (n : Z) : Gen Z :=
  r ← random; ret (Qfloor (Qmult r (inject_Z n))).

(** [a.splice(idx, 1)[0]] for an index that is not negative: the element
    removed, [None] for [undefined], and the array that is left. *)
Definition spliceOne {A} (idx : Z) (a : list A) : option A * list A :=
  match a !! Z.to_nat idx with
  | Some x => (Some x, delete (Z.to_nat idx) a)
  | None => (None, a)
  end.

(** The loop that moves [count] random elements of [available] to the
    end of [taken]. *)
Fixpoint pick {A} (count : nat) (available : list A)
    (taken : list (option A)) : Gen (list (option A)) :=
  match count with
  | O => ret taken
  | S k =>
      idx ← randomIndex (Z.of_nat (length available));
      let '(x, rest) := spliceOne idx available in
      pick k rest (taken ++ [x])
  end.

End Random.

(** ** Question generator ([generator.ts]) *)

Module Generator.

Import Random.

Inductive QuestionTopic : Type :=
  | hex_assign | set_bits | clear_bits | toggle_bits
  | combined_ops | named_bits | read_state.

#[global] Instance QuestionTopic_eq_dec : EqDecision QuestionTopic.
Proof. solve_decision. Defined.

(** [Object.keys(TOPIC_LABELS)] *)
Definition ALL_TOPICS : list QuestionTopic :=
  [ hex_assign; set_bits; clear_bits; toggle_bits; combined_ops;
    named_bits; read_state ].

(** A question, without its [id], a random text. *)
Record Question := {
  topic : QuestionTopic;
  difficulty : Z;
  prompt : string;
  register : string;
  initialValue : Z;
  expectedValue : Z;
  hint : string;
  acceptsMultipleStatements : bool;
  isReadState : bool;
  sampleAnswer : string;
}.

(** The line feed of the templates. *)
Definition nl : string := String (ascii_of_nat 10) "".

(** An array element that may be [undefined], as a value. *)
Definition valueOf (b : option Z) : jsval :=
  match b with
  | Some n => VNum n
  | None => VUndefined
  end.

(** The text of a name that may be [undefined]. *)
Definition textOf (n : option string) : string := default "undefined" n.

Definition randInt (min max : Z) : Gen Z :=
  r ← random; ret (Qfloor (Qmult r (inject_Z (max - min + 1))) + min).

(** [bits.sort((a, b) => a - b)]: the numbers in ascending order, then
    the [undefined] elements. *)
Definition sortBits (bits : list (option Z)) : list (option Z) :=
  (Some <$> merge_sort Z.le (omap id bits))
    ++ List.filter (fun b => negb (bool_decide (is_Some b))) bits.

Definition randBits (count : Z) : Gen (list (option Z)) :=
  bits ← pick (Z.to_nat count) [0; 1; 2; 3; 4; 5; 6; 7] [];
  ret (sortBits bits).

Definition toBin8 (n : Z) : string :=
  Str.padStart 8 "0" (toStringRadix (mask8 n) 2).

Definition toHex (n : Z) : string :=
  "0x" ++ Str.padStart 2 "0" (Str.toUpperCase (toStringRadix (mask8 n) 16)).

(** [uid] draws a number for the question's [id]. *)
Definition uid : Gen unit := _ ← random; ret tt.

(** [ports.filter(p => ['A','B','C','D'].includes(p.name))] *)
Definition commonPorts : list PortInfo :=
  List.filter (fun p => existsb (String.eqb (name p)) ["A"; "B"; "C"; "D"])
              ports.

(** [getCommonPort] of [data/atmega2560.ts]; [None] is [undefined]. *)
Definition getCommonPort : Gen (option PortInfo) :=
  idx ← randomIndex (Z.of_nat (length commonPorts));
  ret (commonPorts !! Z.to_nat idx).

(** The object of a property access: reading a property of [undefined]
    throws. *)
Definition defined {A} (o : option A) : Gen A :=
  match o with
  | Some a => ret a
  | None => typeError
  end.

(** [port.bits[b]], as the templates print it. *)
Definition bitName (p : PortInfo) (b : option Z) : string :=
  textOf (n ← b; bits p !! Z.to_nat n).

(** [1 << b] *)
Definition bit (b : jsval) : Z := JS.shl (VNum 1) b.

(** [for (const b of bits) expected |= (1 << b)] *)
Definition orBits (start : Z) (bits : list (option Z)) : Z :=
  foldl (fun e b => JS.bitOr (VNum e) (VNum (bit (valueOf b)))) start bits.

(** [for (const b of bits) expected &= ~(1 << b)] *)
Definition clearBits (start : Z) (bits : list (option Z)) : Z :=
  foldl (fun e b =>
           JS.bitAnd (VNum e) (VNum (JS.bitNot (VNum (bit (valueOf b))))))
        start bits.

(** [for (const b of bits) expected ^= (1 << b)] *)
Definition xorBits (start : Z) (bits : list (option Z)) : Z :=
  foldl (fun e b => JS.bitXor (VNum e) (VNum (bit (valueOf b)))) start bits.

(** [bits.map(b => `(1<<${port.bits[b]})`).join('|')] *)
Definition shiftTerms (p : PortInfo) (bits : list (option Z)) : string :=
  String.concat "|" ((fun b => "(1<<" ++ bitName p b ++ ")") <$> bits).

(** [`Current value: \`${toHex(initial)}\` (${toBin8(initial)})`] *)
Definition currentValue (initial : Z) : string :=
  "Current value: `" ++ toHex initial ++ "` (" ++ toBin8 initial ++ ")".

(** [bits.map(b => `**${port.bits[b]}** (bit ${b})`).join(' and ')] *)
Definition bitDesc (p : PortInfo) (bits : list (option Z)) : string :=
  String.concat " and "
    ((fun b => "**" ++ bitName p b ++ "** (bit " ++ JS.toString (valueOf b)
               ++ ")") <$> bits).

(** The number of bits of the three single-operation topics. *)
Definition bitCountFor (difficulty : Z) : Gen Z :=
  if difficulty <=? 3 then ret 1
  else if difficulty <=? 6 then randInt 1 3
  else randInt 2 4.

Definition genHexAssign (difficulty : Z) : Gen Question :=
  port ← getCommonPort ≫= defined;
  let reg := Atmega.port port in
  n ← (if difficulty <=? 3 then randInt 1 3
       else if difficulty <=? 6 then randInt 2 5
       else randInt 3 8);
  let bitCount := Z.min 8 n in
  bits ← randBits bitCount;
  let expected := orBits 0 bits in
  let bitNames :=
    String.concat ", "
      ((fun b => bitName port b ++ " (bit " ++ JS.toString (valueOf b) ++ ")")
       <$> bits) in
  uid;;
  ret {| topic := hex_assign;
         difficulty := difficulty;
         prompt :=
           "Set **" ++ reg ++ "** so that " ++ bitNames ++ " "
           ++ (if (length bits =? 1)%nat then "is" else "are")
           ++ " HIGH and all other bits are LOW." ++ nl ++ nl
           ++ "Write a single assignment using hex notation.";
         register := reg;
         initialValue := 0;
         expectedValue := expected;
         hint := "Think about which bits are HIGH: " ++ toBin8 expected
                 ++ ". Convert to hex.";
         acceptsMultipleStatements := false;
         isReadState := false;
         sampleAnswer := reg ++ " = " ++ toHex expected ++ ";" |}.

Definition genSetBits (difficulty : Z) : Gen Question :=
  port ← getCommonPort ≫= defined;
  let reg := Atmega.port port in
  initial ← (if difficulty <=? 4 then ret 0 else randInt 0 255);
  bitCount ← bitCountFor difficulty;
  bits ← randBits bitCount;
  let expected := mask8 (orBits initial bits) in
  uid;;
  ret {| topic := set_bits;
         difficulty := difficulty;
         prompt :=
           "Set " ++ bitDesc port bits ++ " of **" ++ reg
           ++ "** HIGH without affecting the other bits." ++ nl ++ nl
           ++ (if negb (initial =? 0) then currentValue initial
               else "Register starts at `0x00`.");
         register := reg;
         initialValue := initial;
         expectedValue := expected;
         hint := "Use the OR assignment: " ++ reg
                 ++ " |= (1<<bit). For multiple bits: " ++ reg
                 ++ " |= (1<<a)|(1<<b);";
         acceptsMultipleStatements := false;
         isReadState := false;
         sampleAnswer :=
           if (length bits =? 1)%nat
           then reg ++ " |= (1<<" ++ bitName port (mjoin (head bits)) ++ ");"
           else reg ++ " |= " ++ shiftTerms port bits ++ ";" |}.

Definition genClearBits (difficulty : Z) : Gen Question :=
  port ← getCommonPort ≫= defined;
  let reg := Atmega.port port in
  bitCount ← bitCountFor difficulty;
  bits ← randBits bitCount;
  initial0 ← randInt 0 255;
  let initial := mask8 (orBits initial0 bits) in
  let expected := mask8 (clearBits initial bits) in
  uid;;
  ret {| topic := clear_bits;
         difficulty := difficulty;
         prompt :=
           "Clear " ++ bitDesc port bits ++ " of **" ++ reg
           ++ "** (set to LOW) without affecting the other bits."
           ++ nl ++ nl ++ currentValue initial;
         register := reg;
         initialValue := initial;
         expectedValue := expected;
         hint := "Use AND with complement: " ++ reg
                 ++ " &= ~(1<<bit); For multiple: " ++ reg
                 ++ " &= ~((1<<a)|(1<<b));";
         acceptsMultipleStatements := false;
         isReadState := false;
         sampleAnswer :=
           if (length bits =? 1)%nat
           then reg ++ " &= ~(1<<" ++ bitName port (mjoin (head bits)) ++ ");"
           else reg ++ " &= ~(" ++ shiftTerms port bits ++ ");" |}.

Definition genToggleBits (difficulty : Z) : Gen Question :=
  port ← getCommonPort ≫= defined;
  let reg := Atmega.port port in
  initial ← randInt 0 255;
  bitCount ← bitCountFor difficulty;
  bits ← randBits bitCount;
  let expected := mask8 (xorBits initial bits) in
  uid;;
  ret {| topic := toggle_bits;
         difficulty := difficulty;
         prompt :=
           "Toggle " ++ bitDesc port bits ++ " of **" ++ reg
           ++ "** (flip the bit value) without affecting the other bits."
           ++ nl ++ nl ++ currentValue initial;
         register := reg;
         initialValue := initial;
         expectedValue := expected;
         hint := "Use XOR assignment: " ++ reg
                 ++ " ^= (1<<bit); For multiple: " ++ reg
                 ++ " ^= (1<<a)|(1<<b);";
         acceptsMultipleStatements := false;
         isReadState := false;
         sampleAnswer :=
           if (length bits =? 1)%nat
           then reg ++ " ^= (1<<" ++ bitName port (mjoin (head bits)) ++ ");"
           else reg ++ " ^= " ++ shiftTerms port bits ++ ";" |}.

(** [bits.map(b => `**${port.bits[b]}**`).join(', ')] *)
Definition boldNames (p : PortInfo) (bits : list (option Z)) : string :=
  String.concat ", " ((fun b => "**" ++ bitName p b ++ "**") <$> bits).

Definition genCombinedOps (difficulty : Z) : Gen Question :=
  port ← getCommonPort ≫= defined;
  let reg := Atmega.port port in
  initial ← randInt 0 255;
  n ← randInt 3 5;
  allBits ← randBits (Z.min 6 n);
  (* [Math.ceil(allBits.length / 2)] *)
  let mid := ((length allBits + 1) / 2)%nat in
  let setBits := take mid allBits in
  let clearBits' := drop mid allBits in
  let expected := mask8 (clearBits (orBits initial setBits) clearBits') in
  uid;;
  ret {| topic := combined_ops;
         difficulty := difficulty;
         prompt :=
           "Starting with **" ++ reg ++ "** = `" ++ toHex initial ++ "` ("
           ++ toBin8 initial ++ "):" ++ nl
           ++ "    " ++ nl
           ++ "1. **Set** " ++ boldNames port setBits ++ " HIGH" ++ nl
           ++ "2. **Clear** " ++ boldNames port clearBits' ++ " LOW" ++ nl
           ++ nl
           ++ "Write the statements to achieve this "
           ++ "(without affecting other bits).";
         register := reg;
         initialValue := initial;
         expectedValue := expected;
         hint := "Use two separate statements: one with |= to set, "
                 ++ "one with &= ~ to clear.";
         acceptsMultipleStatements := true;
         isReadState := false;
         sampleAnswer :=
           reg ++ " |= " ++ shiftTerms port setBits ++ ";" ++ nl
           ++ reg ++ " &= ~(" ++ shiftTerms port clearBits' ++ ");" |}.

(** [chosen.map(n => `(1<<${n})`).join('|')] *)
Definition namedTerms (chosen : list (option string)) : string :=
  String.concat "|" ((fun n => "(1<<" ++ textOf n ++ ")") <$> chosen).

(** [bits[name]] for the object [bits] of a register. *)
Definition namedBit (bits : list (string * Z)) (name : option string)
  : jsval :=
  getProperty (list_to_map bits) (textOf name).

Definition genNamedBits (difficulty : Z) : Gen Question :=
  (* [Object.keys(namedRegisterBits)] are the first components. *)
  idx ← randomIndex (Z.of_nat (length namedRegisterBits));
  (* [Object.keys] of [undefined] throws. *)
  '(regName, bits) ← defined (namedRegisterBits !! Z.to_nat idx);
  let bitNames := fst <$> bits in
  n ← (if difficulty <=? 4 then randInt 1 2 else randInt 2 4);
  let count := Z.min (Z.of_nat (length bitNames)) n in
  chosen ← pick (Z.to_nat count) bitNames [];
  let expected :=
    mask8 (foldl (fun e name =>
                    JS.bitOr (VNum e) (VNum (bit (namedBit bits name))))
                 0 chosen) in
  let bitDesc :=
    String.concat ", "
      ((fun n => "**" ++ textOf n ++ "** (bit "
                 ++ JS.toString (namedBit bits n) ++ ")") <$> chosen) in
  uid;;
  ret {| topic := named_bits;
         difficulty := difficulty;
         prompt :=
           "Configure **" ++ regName ++ "** to enable " ++ bitDesc ++ "."
           ++ nl ++ nl ++ "Use the named bit constants (not raw numbers) "
           ++ "and set all other bits LOW.";
         register := regName;
         initialValue := 0;
         expectedValue := expected;
         hint := "Use: " ++ regName ++ " = " ++ namedTerms chosen ++ ";";
         acceptsMultipleStatements := false;
         isReadState := false;
         sampleAnswer := regName ++ " = " ++ namedTerms chosen ++ ";" |}.

(** The loop of [genReadState]: [numOps] random operations on [state],
    their texts added to [ops]. *)
Fixpoint readStateOps (numOps : nat) (p : PortInfo) (ops : list string)
    (state : Z) : Gen (list string * Z) :=
  match numOps with
  | O => ret (ops, state)
  | S k =>
      b ← randInt 0 7;
      opType ← randInt 0 2;
      let reg := Atmega.port p in
      let name := bitName p (Some b) in
      let '(text, state') :=
        if opType =? 0 then
          (reg ++ " |= (1<<" ++ name ++ ");",
           JS.bitOr (VNum state) (VNum (bit (VNum b))))
        else if opType =? 1 then
          (reg ++ " &= ~(1<<" ++ name ++ ");",
           JS.bitAnd (VNum state) (VNum (JS.bitNot (VNum (bit (VNum b))))))
        else
          (reg ++ " ^= (1<<" ++ name ++ ");",
           JS.bitXor (VNum state) (VNum (bit (VNum b)))) in
      readStateOps k p (ops ++ [text]) (mask8 state')
  end.

(** The text before and after the operations in the prompt of a
    read-state question. *)
Definition readStateIntro (reg : string) (initial : Z) : string :=
  "Given **" ++ reg ++ "** starts at `" ++ toHex initial ++ "` ("
  ++ toBin8 initial ++ "), what is the final value after:" ++ nl ++ nl
  ++ "```c" ++ nl.

Definition readStateOutro : string :=
  nl ++ "```" ++ nl ++ nl
  ++ "Enter the result in hex (e.g. `0xAB`) or binary (e.g. `10101011`).".

Definition genReadState (difficulty : Z) : Gen Question :=
  port ← getCommonPort ≫= defined;
  let reg := Atmega.port port in
  initial ← randInt 0 255;
  let numOps :=
    if difficulty <=? 3 then 1%nat
    else if difficulty <=? 6 then 2%nat else 3%nat in
  '(ops, state) ← readStateOps numOps port [] initial;
  uid;;
  ret {| topic := read_state;
         difficulty := difficulty;
         prompt := readStateIntro reg initial ++ String.concat nl ops
                   ++ readStateOutro;
         register := reg;
         initialValue := initial;
         expectedValue := state;
         hint := "Work through each operation step by step on the "
                 ++ "binary representation.";
         acceptsMultipleStatements := false;
         isReadState := true;
         sampleAnswer := toHex state |}.

Definition generators (t : QuestionTopic) : Z -> Gen Question :=
  match t with
  | hex_assign => genHexAssign
  | set_bits => genSetBits
  | clear_bits => genClearBits
  | toggle_bits => genToggleBits
  | combined_ops => genCombinedOps
  | named_bits => genNamedBits
  | read_state => genReadState
  end.

Definition topicUnlockLevel (t : QuestionTopic) : Z :=
  match t with
  | hex_assign => 1
  | set_bits => 1
  | clear_bits => 2
  | toggle_bits => 3
  | combined_ops => 4
  | named_bits => 5
  | read_state => 2
  end.

Definition unlocked (playerLevel : Z) (t : QuestionTopic) : bool :=
  topicUnlockLevel t <=? playerLevel.

(** [generateQuestion(selectedTopics, playerLevel)] for a whole
    [playerLevel]; [None] for [selectedTopics] is ['all'].
    [Math.ceil(playerLevel * 1.2)] is the ceiling of six fifths of the
    level, also in doubles. *)
Definition generateQuestion (selectedTopics : option (list QuestionTopic))
    (playerLevel : Z) : Gen Question :=
  let available0 :=
    List.filter (unlocked playerLevel) (default ALL_TOPICS selectedTopics) in
  let available :=
    if (length available0 =? 0)%nat then [hex_assign; set_bits]
    else available0 in
  idx ← randomIndex (Z.of_nat (length available));
  let baseDifficulty := Z.min 10 ((6 * playerLevel + 4) / 5) in
  d ← randInt (-2) 1;
  let difficulty := Z.max 1 (Z.min 10 (baseDifficulty + d)) in
  (* calling [undefined] throws *)
  t ← defined (available !! Z.to_nat idx);
  generators t difficulty.

Definition getAvailableTopics (playerLevel : Z) : list QuestionTopic :=
  List.filter (unlocked playerLevel) ALL_TOPICS.

End Generator.

(** ** Judging the input ([main.ts], [evaluateLive]) *)

Record LiveResult := {
  liveValue : option jsval;
  liveError : option string;
  isCorrect : bool;
}.

#[global] Instance LiveResult_eq_dec : EqDecision LiveResult.
Proof. solve_decision. Defined.

Module Live.

(** The number that a read-state answer stands for; [None] when no
    pattern fits or the digits are missing ([null] or [NaN]). *)
Definition readAnswer (cleaned : string) : option Z :=
  if Str.startsWith "0x" cleaned then parseInt cleaned 16
  else if Str.startsWith "0b" cleaned then parseInt (Str.drop 2 cleaned) 2
  else if (String.length cleaned =? 8)%nat
          && Str.isEmpty (Str.dropWhile isBinDigit cleaned)
  then parseInt cleaned 2
  else if negb (Str.isEmpty cleaned)
          && Str.isEmpty (Str.dropWhile isDigit cleaned)
  then parseInt cleaned 10
  else None.

(** What [evaluateLive] stores in [state.liveResult], for a current
    question [q] that is not completed: [Some None] is [null]; the
    outer [None] is the evaluator running out of its budget.  The
    [catch] around [checkAnswer] has nothing to catch. *)
Definition evaluateLive (q : Generator.Question) (inputValue : string)
  : option (option LiveResult) :=
  let trimmed := Str.trim inputValue in
  if Str.isEmpty trimmed then Some None
  else if Generator.isReadState q then
    let cleaned := Str.removeSpaces (Str.toLowerCase trimmed) in
    match readAnswer cleaned with
    | None =>
        Some (Some {| liveValue := None; liveError := None;
                      isCorrect := false |})
    | Some userValue =>
        let userValue := mask8 userValue in
        Some (Some {| liveValue := Some (VNum userValue); liveError := None;
                      isCorrect := userValue =? Generator.expectedValue q |})
    end
  else
    check ← checkAnswer trimmed (Generator.register q)
                        (Generator.initialValue q)
                        (Generator.expectedValue q);
    Some (Some {| liveValue := userResult check;
                  (* [check.error || null] *)
                  liveError :=
                    match checkError check with
                    | Some msg => if Str.isEmpty msg then None else Some msg
                    | None => None
                    end;
                  isCorrect := correct check |}).

End Live.

(** ** Levels ([gamification.ts]) *)

Module Gamification.

(** A whole number as the nearest double; the identity between -2^53
    and 2^53. *)
Definition double (n : Z) : Z :=
  if n <? 0 then - roundToDouble (- n) else roundToDouble n.

(** [Math.floor(50 * level * (level + 1))] for a whole [level]: each
    product and the sum are rounded to a double, and the product of
    whole numbers is whole, so that [Math.floor] changes nothing. *)
Definition xpForLevel (level : Z) : Z :=
  double (double (50 * level) * double (level + 1)).

(** The loop [while (stats.xp >= xpForLevel(stats.level)) stats.level++]
    of [recordAnswer], for whole points and levels: the level it ends
    with, [None] if [fuel] turns do not reach the end.  [stats.level++]
    rounds to a double as well. *)
Fixpoint levelUp (fuel : nat) (xp level : Z) : option Z :=
  match fuel with
  | O => None
  | S k =>
      if xpForLevel level <=? xp then levelUp k xp (double (level + 1))
      else Some level
  end.

End Gamification.

(** * Specification vocabulary *)

Import Parser.
Import Analyzer.

(** The final value of a register, when the evaluation returns. *)
Definition finalOf (r : option EvalResult) (reg : string) : option Z :=
  r' ← r; registerStates r' !! reg.

(** The value the strict evaluator computes for the right-hand side [e]
    of the assignment [X = e;]. *)
Definition strictValue (e : string) : option jsval :=
  r ← evaluate ("X = " ++ e ++ ";") ∅;
  if success r then exprValue <$> head (steps r) else None.

(** A string that is empty or ends in a character that is no space. *)
Definition noTrailingSpace (s : string) : Prop :=
  match Str.last s with
  | Some c => isSpace c = false
  | None => True
  end.

(** The right-hand side that [parseExpression] passes to
    [buildRhsParts], when it gets that far. *)
Definition rhsOf (input : string) : option string :=
  let trimmed := Str.trim input in
  foundRegister ← matchRegister trimmed;
  let afterReg := Str.trim (Str.drop (String.length foundRegister) trimmed) in
  o ← matchOperator afterReg;
  let afterOp := Str.trim (Str.drop (String.length o) afterReg) in
  if Str.isEmpty afterOp then None
  else Some (Str.trim (dropFinalSemicolon afterOp)).

(** [wp m ts Q]: from the cursor [ts], [m] ends within its budget, and
    if it returns a value, the value and the new cursor satisfy [Q]. *)
Definition wp {A} (m : M A) (ts : list Token)
    (Q : A -> list Token -> Prop) : Prop :=
  match m ts with
  | None => False
  | Some (Throw _) => True
  | Some (Ok (a, ts')) => Q a ts'
  end.

(** A byte, as a value. *)
Definition isByte (n : Z) : Prop := 0 <= n <= 255.

(** Tokens as [tokenize] makes them: a number token carries a byte. *)
Definition goodTok (t : Token) : Prop :=
  type t = NUMBER -> exists n, numValue t = Some n /\ isByte n.

(** What an expression can evaluate to: a byte, or a member inherited
    by the symbol table object. *)
Definition goodValue (v : jsval) : Prop :=
  match v with
  | VNum n => isByte n
  | VProto k => inherited k = true
  | VUndefined => False
  end.

(** Postcondition of the expression parsers: the cursor moved on
    ([strict]) or did not move back, and the value is an expression
    value. *)
Definition post (strict : bool) (ts : list Token) (v : jsval)
    (ts' : list Token) : Prop :=
  (if strict then length ts' < length ts else length ts' <= length ts)%nat /\
  Forall goodTok ts' /\ goodValue v.

Definition validOp (o : string) : Prop :=
  o = "=" \/ o = "|=" \/ o = "&=" \/ o = "^=".

(** Postcondition of [parseStatement]. *)
Definition stmtPost (ts : list Token) (o : option Statement)
    (ts' : list Token) : Prop :=
  (length ts' <= length ts)%nat /\ Forall goodTok ts' /\
  match o with
  | Some st => goodValue (stmtValue st) /\ validOp (op st)
  | None => True
  end.

(** The assignment [states[stmt.register] = after] of a recorded step,
    as the code performs it. *)
Definition commit (st : gmap string Z) (s : Step) : gmap string Z :=
  setProperty st (stepRegister s) (after s).

(** The code's assignments of the steps, in order. *)
Definition replay (init : gmap string Z) (steps : list Step)
  : gmap string Z :=
  foldl commit init steps.

(** Each step reads its register as the code does, after the
    assignments of the steps before it. *)
Fixpoint consistent (st : gmap string Z) (steps : list Step) : Prop :=
  match steps with
  | [] => True
  | s :: rest =>
      before s = JS.nullish (getProperty st (stepRegister s)) (VNum 0) /\
      applyOp (stepOp s) (before s) (exprValue s) = Ok (after s) /\
      consistent (commit st s) rest
  end.

(** The states updated by the steps, as the specification words it:
    after a step, its register holds the step's new value. *)
Definition updated (init : gmap string Z) (steps : list Step)
  : gmap string Z :=
  foldl (fun st s => <[stepRegister s := after s]> st) init steps.

(** The value that a statement on the register [k] starts from: the
    value that the states hold for [k]; without one, the member that
    every object inherits under that name, if there is one, and 0
    otherwise. *)
Definition startValue (st : gmap string Z) (k : string) : jsval :=
  match st !! k with
  | Some v => VNum v
  | None => if inherited k then VProto k else VNum 0
  end.

(** Each step starts from the value that the steps before it left for
    its register, and its new value is that of its operator. *)
Fixpoint follows (st : gmap string Z) (steps : list Step) : Prop :=
  match steps with
  | [] => True
  | s :: rest =>
      before s = startValue st (stepRegister s) /\
      applyOp (stepOp s) (before s) (exprValue s) = Ok (after s) /\
      follows (<[stepRegister s := after s]> st) rest
  end.

(** The statement that a step records. *)
Definition stepStatement (s : Step) : Statement :=
  {| register := stepRegister s; stmtValue := exprValue s; op := stepOp s |}.

(** The statements that the parser reads from the tokens in at most
    [turns] calls, without regard to any register, and the message of
    the error that ended the reading, if one did ([None] in the second
    place: the end of the code or of the turns was reached).  The outer
    [None]: the parser ran out of budget. *)
Fixpoint readStatements (turns : nat) (ts : list Token)
  : option (list Statement * option string) :=
  match turns with
  | O => Some ([], None)
  | S n =>
      match parseStatement ts with
      | None => None
      | Some (Throw msg) => Some ([], Some msg)
      | Some (Ok (None, ts')) =>
          if atEOF ts' then Some ([], None) else readStatements n ts'
      | Some (Ok (Some stmt, ts')) =>
          match readStatements n ts' with
          | Some (l, e) => Some (stmt :: l, e)
          | None => None
          end
      end
  end.

(** What the steps and the final state hold when the initial state
    holds bytes: every new register value and every final value is a
    byte; an operand, and a value read before the update, is a byte or
    an inherited member. *)
Definition stepInRange (s : Step) : Prop :=
  isByte (after s) /\ goodValue (exprValue s) /\ goodValue (before s).

(** Every character of [s] satisfies [p]. *)
Fixpoint allChars (p : ascii -> bool) (s : string) : bool :=
  match s with
  | String c r => p c && allChars p r
  | EmptyString => true
  end.

(** [/^[A-Z][A-Z0-9_]*$/]: a register name and nothing else. *)
Definition registerOnly (s : string) : bool :=
  match s with
  | String c r => isUpper c && allChars isRegChar r
  | EmptyString => false
  end.

(** [s] is empty or starts with a character that fails [p]. *)
Definition stopsAt (p : ascii -> bool) (s : string) : bool :=
  match s with
  | String c _ => negb (p c)
  | EmptyString => true
  end.

(** An identifier of the tokenizer: a letter or underscore, then
    letters, digits and underscores. *)
Definition isIdentifier (s : string) : bool :=
  match s with
  | String c r => isIdentStart c && allChars isIdentChar r
  | EmptyString => false
  end.

(** A decimal literal: one or more digits. *)
Definition isDecimal (s : string) : bool :=
  negb (Str.isEmpty s) && allChars isDigit s.

(** All the characters. *)
Definition allAscii : list ascii := ascii_of_nat <$> seq 0 256.

(** The bytes. *)
Definition allBytes : list Z := Z.of_nat <$> seq 0 256.

(** The statement [X = a op k;], with [op] a shift operator, as
    text. *)
Definition shiftStatement (X o : string) (a k : Z) : string :=
  X ++ " = " ++ numberToString a ++ " " ++ o ++ " " ++ numberToString k ++ ";".

(** The statement [X o (1<<k);], with [o] an assignment operator, as
    text. *)
Definition bitStatement (X o : string) (k : Z) : string :=
  X ++ " " ++ o ++ " (1<<" ++ numberToString k ++ ");".

(** The tokens of [X o (1<<k);], before those of what follows. *)
Definition bitTokens (X : string) (ty : TokenType) (o : string) (k : Z)
    (rest : list Token) : list Token :=
  tok IDENTIFIER X :: tok ty o :: tok LPAREN "(" :: numTok "1" 1
  :: tok LSHIFT "<<" :: numTok (numberToString k) k :: tok RPAREN ")"
  :: tok SEMICOLON ";" :: rest.

(** The registers that the steps assign. *)
Definition stepRegisters (steps : list Step) : list string :=
  stepRegister <$> steps.

(** A character that yields no token and is no part of one: white space
    or a semicolon's neighbour in an empty statement. *)
Definition isBlank (c : ascii) : bool := isSpace c || Ascii.eqb c ";".

(** The statement [X = a | b ^ c & ~d << e;], as text. *)
Definition mixedStatement (X : string) (a b c d e : Z) : string :=
  X ++ " = " ++ numberToString a ++ " | " ++ numberToString b ++ " ^ "
    ++ numberToString c ++ " & ~" ++ numberToString d ++ " << "
    ++ numberToString e ++ ";".

(** The statement [X = a << b >> c;], as text. *)
Definition shiftChain (X : string) (a b c : Z) : string :=
  X ++ " = " ++ numberToString a ++ " << " ++ numberToString b ++ " >> "
    ++ numberToString c ++ ";".

(** A token that continues no expression. *)
Definition stopsExpression (t : Token) : Prop :=
  type t <> OR /\ type t <> XOR /\ type t <> AND /\
  type t <> LSHIFT /\ type t <> RSHIFT.

(** *** Vocabulary of the question generator *)

(** A number that [Math.random] returns. *)
Definition unitDraw (r : Q) : Prop := (0 <= r)%Q /\ (r < 1)%Q.

Definition unitSource (src : Random.Source) : Prop :=
  forall i, unitDraw (src i).

(** [gwp m P]: with the numbers of [Math.random], [m] returns, without a
    [TypeError], a value that satisfies [P]. *)
Definition gwp {A} (m : Random.Gen A) (P : A -> Prop) : Prop :=
  forall src, unitSource src ->
    match m src with
    | Some (a, src') => unitSource src' /\ P a
    | None => False
    end.

(** The lists that taking [k] elements of [l], one by one at any
    position of what is left, can give. *)
Fixpoint arrangements {A} (k : nat) (l : list A) : list (list A) :=
  match k with
  | O => [[]]
  | S k' =>
      flat_map (fun i =>
                  match l !! i with
                  | Some x => cons x <$> arrangements k' (delete i l)
                  | None => []
                  end)
               (seq 0 (length l))
  end.

(** The lists that keep some elements of [l], in the order of [l]. *)
Fixpoint sublists {A} (l : list A) : list (list A) :=
  match l with
  | [] => [[]]
  | x :: r => (cons x <$> sublists r) ++ sublists r
  end.

(** The lists of distinct bit numbers in ascending order, as arrays
    without [undefined]. *)
Definition ascendingBits : list (list (option Z)) :=
  (fun l : list Z => Some <$> l) <$> sublists [0; 1; 2; 3; 4; 5; 6; 7].

(** The sample answer of [q], typed in, is judged correct, with the
    expected value as the value shown. *)
Definition solved (q : Generator.Question) : Prop :=
  Live.evaluateLive q (Generator.sampleAnswer q) =
  Some (Some {| liveValue := Some (VNum (Generator.expectedValue q));
                liveError := None; isCorrect := true |}).

(** [parseStatement] returns, from the tokens [ts], the statement
    [reg o v] and leaves the tokens [rest]. *)
Definition parsesTo (ts : list Token) (reg o : string) (v : Z)
    (rest : list Token) : bool :=
  match parseStatement ts with
  | Some (Ok (Some st, ts')) =>
      String.eqb (register st) reg && String.eqb (op st) o
      && bool_decide (stmtValue st = VNum v) && bool_decide (ts' = rest)
  | _ => false
  end.

(** [code] has no white space around it and is the one statement
    [reg o v]. *)
Definition oneStatement (code reg o : string) (v : Z) : bool :=
  String.eqb (Str.trim code) code && negb (Str.isEmpty code)
  && parsesTo (tokenize code) reg o v [eofToken].

(** [code] has no white space around it and is the two statements
    [reg o1 v1] and [reg o2 v2]. *)
Definition twoStatements (code reg o1 : string) (v1 : Z) (o2 : string)
    (v2 : Z) : bool :=
  String.eqb (Str.trim code) code && negb (Str.isEmpty code)
  && match parseStatement (tokenize code) with
     | Some (Ok (Some st, ts')) =>
         String.eqb (register st) reg && String.eqb (op st) o1
         && bool_decide (stmtValue st = VNum v1)
         && parsesTo ts' reg o2 v2 [eofToken]
     | _ => false
     end.

(** The operator [o] turns the register value [initial] into
    [expected], for the operand [v]. *)
Definition opGives (o : string) (initial v expected : Z) : bool :=
  match applyOp o (VNum initial) (VNum v) with
  | Ok a => a =? expected
  | Throw _ => false
  end.

(** The sample answer of an operation on bits of a port: the name of
    one bit between [before1] and [after1], or the terms of several
    bits between [beforeN] and [afterN]. *)
Definition opSample (p : PortInfo) (before1 after1 beforeN afterN : string)
    (bits : list (option Z)) : string :=
  if (length bits =? 1)%nat
  then port p ++ before1 ++ Generator.bitName p (mjoin (head bits)) ++ after1
  else port p ++ beforeN ++ Generator.shiftTerms p bits ++ afterN.

Definition setSample (p : PortInfo) (bits : list (option Z)) : string :=
  opSample p " |= (1<<" ");" " |= " ";" bits.

Definition toggleSample (p : PortInfo) (bits : list (option Z)) : string :=
  opSample p " ^= (1<<" ");" " ^= " ";" bits.

Definition clearSample (p : PortInfo) (bits : list (option Z)) : string :=
  opSample p " &= ~(1<<" ");" " &= ~(" ");" bits.

(** The operand of the sample answer that clears [bits]. *)
Definition clearMask (bits : list (option Z)) : Z :=
  Z.land (JS.bitNot (VNum (Generator.orBits 0 bits))) 255.

(** What holds of a question generated for the topic [t] at the
    difficulty [d]: its sample answer solves it, and its values are
    bytes. *)
Definition sound (t : Generator.QuestionTopic) (d : Z)
    (q : Generator.Question) : Prop :=
  solved q /\ isByte (Generator.initialValue q)
  /\ isByte (Generator.expectedValue q)
  /\ Generator.topic q = t /\ Generator.difficulty q = d.

(** A bit number of a port, present. *)
Definition validBit (b : option Z) : Prop :=
  exists n, b = Some n /\ 0 <= n <= 7.

(** The sample answer of a combined question. *)
Definition combinedSample (p : PortInfo) (setBits clearBits : list (option Z))
  : string :=
  port p ++ " |= " ++ Generator.shiftTerms p setBits ++ ";" ++ Generator.nl
  ++ port p ++ " &= ~(" ++ Generator.shiftTerms p clearBits ++ ");".

(** [m'] returns what [m] returns, whenever [m] returns within its
    budget. *)
Definition stable {A} (m m' : M A) : Prop :=
  forall ts r, m ts = Some r -> m' ts = Some r.

(** *** Masks of named bits *)

(** The term [(1<<name)]. *)
Definition shiftTerm (nm : string) : string := "(1<<" ++ nm ++ ")".

(** The terms of the names, joined by [|]. *)
Definition orTerms (names : list string) : string :=
  String.concat "|" (shiftTerm <$> names).

(** The terms of the names, each after a [|]. *)
Fixpoint moreTerms (names : list string) : string :=
  match names with
  | [] => ""
  | nm :: r => "|" ++ shiftTerm nm ++ moreTerms r
  end.

Definition termTokens (nm : string) : list Token :=
  [ tok LPAREN "("; numTok "1" 1; tok LSHIFT "<<"; tok IDENTIFIER nm;
    tok RPAREN ")" ].

Fixpoint moreTokens (names : list string) : list Token :=
  match names with
  | [] => []
  | nm :: r => tok OR "|" :: termTokens nm ++ moreTokens r
  end.

(** A name of the symbol table. *)
Definition knownBit (nm : string) : Prop := is_Some (allNamedBits !! nm).

(** The bit of a name of the symbol table, as a mask. *)
Definition bitOfName (nm : string) : Z :=
  2 ^ default 0 (allNamedBits !! nm).

(** The mask with the bits of the names, starting from [acc]. *)
Definition maskOfNames (acc : Z) (names : list string) : Z :=
  foldl (fun acc nm => Z.lor acc (bitOfName nm)) acc names.

(** The token type of an assignment operator. *)
Definition assignType (o : string) : option TokenType :=
  if String.eqb o "=" then Some ASSIGN
  else if String.eqb o "|=" then Some OR_ASSIGN
  else if String.eqb o "&=" then Some AND_ASSIGN
  else if String.eqb o "^=" then Some XOR_ASSIGN
  else None.

(** The statement [R o (1<<n1)|...|(1<<nk);], as text. *)
Definition maskStatement (R o : string) (names : list string) : string :=
  R ++ " " ++ o ++ " " ++ orTerms names ++ ";".

(** *** Read-state questions *)

(** One operation of a read-state question, of the kind [opType] on the
    bit [b]: its text, *)
Definition readOpText (p : PortInfo) (c : Z * Z) : string :=
  let '(b, opType) := c in
  if opType =? 0 then port p ++ " |= (1<<" ++ Generator.bitName p (Some b) ++ ");"
  else if opType =? 1
  then port p ++ " &= ~(1<<" ++ Generator.bitName p (Some b) ++ ");"
  else port p ++ " ^= (1<<" ++ Generator.bitName p (Some b) ++ ");".

(** the state after it, as the generator computes it, *)
Definition readOpNext (state : Z) (c : Z * Z) : Z :=
  let '(b, opType) := c in
  mask8 (if opType =? 0 then
           JS.bitOr (VNum state) (VNum (Generator.bit (VNum b)))
         else if opType =? 1 then
           JS.bitAnd (VNum state)
             (VNum (JS.bitNot (VNum (Generator.bit (VNum b)))))
         else JS.bitXor (VNum state) (VNum (Generator.bit (VNum b)))).

(** its tokens, *)
Definition readOpTokens (p : PortInfo) (c : Z * Z) : list Token :=
  let '(b, opType) := c in
  let name := tok IDENTIFIER (Generator.bitName p (Some b)) in
  let term := [ tok LPAREN "("; numTok "1" 1; tok LSHIFT "<<"; name;
                tok RPAREN ")"; tok SEMICOLON ";" ] in
  tok IDENTIFIER (port p)
  :: (if opType =? 0 then tok OR_ASSIGN "|=" :: term
      else if opType =? 1 then tok AND_ASSIGN "&=" :: tok NOT "~" :: term
      else tok XOR_ASSIGN "^=" :: term).

(** and, for the evaluator, its operator and its operand. *)
Definition readOpOperator (c : Z * Z) : string :=
  if snd c =? 0 then "|=" else if snd c =? 1 then "&=" else "^=".

Definition readOpOperand (c : Z * Z) : Z :=
  if snd c =? 1 then Z.land (JS.bitNot (VNum (2 ^ fst c))) 255
  else 2 ^ fst c.

(** A bit from 0 to 7 and a kind from 0 to 2. *)
Definition validChoice (c : Z * Z) : Prop :=
  0 <= fst c <= 7 /\ 0 <= snd c <= 2.

(** The judgement of the answer to a read-state question whose expected
    value is [expected]. *)
Definition readJudgement (inputValue : string) (expected : Z)
  : option LiveResult :=
  let trimmed := Str.trim inputValue in
  if Str.isEmpty trimmed then None
  else
    match Live.readAnswer
            (Str.removeSpaces (Str.toLowerCase trimmed)) with
    | None =>
        Some {| liveValue := None; liveError := None; isCorrect := false |}
    | Some v =>
        Some {| liveValue := Some (VNum (mask8 v)); liveError := None;
                isCorrect := mask8 v =? expected |}
    end.

(** The judgement that accepts the value [e]. *)
Definition accepted (e : Z) : option LiveResult :=
  Some {| liveValue := Some (VNum e); liveError := None; isCorrect := true |}.

(** The topics that [generateQuestion] chooses from. *)
Definition topicsFor (selectedTopics : option (list Generator.QuestionTopic))
    (playerLevel : Z) : list Generator.QuestionTopic :=
  match List.filter (Generator.unlocked playerLevel)
                    (default Generator.ALL_TOPICS selectedTopics) with
  | [] => [Generator.hex_assign; Generator.set_bits]
  | ts => ts
  end.

(** The source whose every number is one half. *)
Definition halves : Random.Source := fun _ => 1 # 2.

(** * Lemmas *)

(** Closed goals: split the conjunctions, then evaluate each side. *)
Ltac split_all := repeat match goal with |- _ /\ _ => split end.
Ltac by_evaluation := split_all; vm_compute; reflexivity.

(** ** Strings *)

Lemma last_cons c s : s <> "" -> Str.last (String c s) = Str.last s.
Proof. destruct s; [congruence | reflexivity]. Qed.

Lemma trimEnd_noTrailingSpace s : noTrailingSpace (Str.trimEnd s).
Proof.
  induction s as [|c s IH]; [exact I|].
  simpl. destruct (Str.trimEnd s) as [|d r] eqn:E.
  - destruct (isSpace c) eqn:Hc; [exact I | exact Hc].
  - unfold noTrailingSpace in *. rewrite last_cons by discriminate. exact IH.
Qed.

Lemma noTrailingSpace_tail c s : noTrailingSpace (String c s) -> noTrailingSpace s.
Proof.
  unfold noTrailingSpace. destruct s as [|d r]; [intros; exact I|].
  rewrite last_cons by discriminate. auto.
Qed.

Lemma noTrailingSpace_drop n s : noTrailingSpace s -> noTrailingSpace (Str.drop n s).
Proof.
  revert s. induction n as [|n IH]; intros [|c s] H; simpl; auto.
  apply IH. eapply noTrailingSpace_tail, H.
Qed.

Lemma noTrailingSpace_dropWhile p s :
  noTrailingSpace s -> noTrailingSpace (Str.dropWhile p s).
Proof.
  induction s as [|c s IH]; intros H; simpl; auto.
  destruct (p c); auto. apply IH. eapply noTrailingSpace_tail, H.
Qed.

Lemma trimEnd_empty s : noTrailingSpace s -> Str.trimEnd s = "" -> s = "".
Proof.
  induction s as [|c s IH]; intros H E; [reflexivity|].
  simpl in E. destruct (Str.trimEnd s) eqn:Es; [|discriminate].
  destruct (isSpace c) eqn:Hc; [|discriminate].
  rewrite (IH (noTrailingSpace_tail _ _ H) eq_refl) in H.
  unfold noTrailingSpace in H. simpl in H. congruence.
Qed.

Lemma dropWhile_space_empty s :
  noTrailingSpace s -> Str.dropWhile isSpace s = "" -> s = "".
Proof.
  induction s as [|c s IH]; intros H E; [reflexivity|].
  simpl in E. destruct (isSpace c) eqn:Hc; [|discriminate].
  rewrite (IH (noTrailingSpace_tail _ _ H) E) in H.
  unfold noTrailingSpace in H. simpl in H. congruence.
Qed.

Lemma trim_empty s : noTrailingSpace s -> Str.trim s = "" -> s = "".
Proof.
  unfold Str.trim, Str.trimStart. intros H E.
  apply dropWhile_space_empty; [exact H|].
  apply trimEnd_empty; [|exact E]. apply noTrailingSpace_dropWhile, H.
Qed.

Lemma trim_noTrailingSpace s : noTrailingSpace (Str.trim s).
Proof. apply trimEnd_noTrailingSpace. Qed.

Lemma drop_takeWhile_empty p s :
  Str.drop (String.length (Str.takeWhile p s)) s = "" -> Str.takeWhile p s = s.
Proof.
  induction s as [|c s IH]; simpl; [reflexivity|].
  destruct (p c); simpl; [intros E; f_equal; auto | discriminate].
Qed.

Lemma isEmpty_true s : Str.isEmpty s = true -> s = "".
Proof. destruct s; [reflexivity | discriminate]. Qed.

Lemma matchRegister_all s r :
  noTrailingSpace s -> matchRegister s = Some r ->
  Str.trim (Str.drop (String.length r) s) = "" -> r = s.
Proof.
  intros Hs Hr E.
  apply trim_empty in E; [|apply noTrailingSpace_drop, Hs].
  destruct s as [|c s]; [discriminate|]. simpl in Hr.
  destruct (isUpper c); [|discriminate]. injection Hr as <-.
  simpl in E. f_equal. apply drop_takeWhile_empty, E.
Qed.

(** ** The analyzer's recursion *)

Lemma buildRhsParts_unfold fuel rhs :
  buildRhsParts (S fuel) rhs =
  match matchShift rhs with
  | Some (digits, shiftBy) => Some (shiftParts rhs digits shiftBy)
  | None =>
      if Str.startsWith "~" rhs then
        innerParts ← buildRhsParts fuel (Str.drop 1 rhs);
        Some (part "~" POperator :: innerParts)
      else if Str.includes "|" rhs && Str.includes "<<" rhs then
        orSegmentParts (buildRhsParts fuel) true
          (splitOnOperator (stripOneParenEachSide rhs) "|")
      else Some [ mkPart rhs PValue (tryEvaluatePartial rhs) None ]
  end.
Proof. reflexivity. Qed.

(** A right-hand side that the OR branch hands back to itself unchanged
    never leaves [buildRhsParts]. *)
Lemma buildRhsParts_self_loop rhs seg :
  matchShift rhs = None ->
  Str.startsWith "~" rhs = false ->
  Str.includes "|" rhs && Str.includes "<<" rhs = true ->
  splitOnOperator (stripOneParenEachSide rhs) "|" = [seg] ->
  Str.trim seg = rhs ->
  forall fuel, buildRhsParts fuel rhs = None.
Proof.
  intros Hm Ht Hi Hs Hseg fuel.
  induction fuel as [|fuel IH]; [reflexivity|].
  rewrite buildRhsParts_unfold, Hm, Ht, Hi, Hs. simpl.
  rewrite Hseg, IH. reflexivity.
Qed.

(** The same when the first call strips a parenthesis and the second
    call is the one that repeats. *)
Lemma buildRhsParts_loop_after_strip rhs seg :
  matchShift rhs = None ->
  Str.startsWith "~" rhs = false ->
  Str.includes "|" rhs && Str.includes "<<" rhs = true ->
  splitOnOperator (stripOneParenEachSide rhs) "|" = [seg] ->
  (forall fuel, buildRhsParts fuel (Str.trim seg) = None) ->
  forall fuel, buildRhsParts fuel rhs = None.
Proof.
  intros Hm Ht Hi Hs Hseg [|fuel]; [reflexivity|].
  rewrite buildRhsParts_unfold, Hm, Ht, Hi, Hs. simpl.
  rewrite Hseg. reflexivity.
Qed.

Lemma matchRegister_nonempty s r : matchRegister s = Some r -> s <> "".
Proof. destruct s; [discriminate | congruence]. Qed.

Lemma matchOperator_nonempty s o : matchOperator s = Some o -> s <> "".
Proof. destruct s; [discriminate | congruence]. Qed.

Lemma isEmpty_false s : s <> "" -> Str.isEmpty s = false.
Proof. destruct s; [congruence | reflexivity]. Qed.

Lemma parseExpression_diverges fuel input reg iv rhs :
  rhsOf input = Some rhs ->
  buildRhsParts fuel rhs = None ->
  parseExpression fuel input reg iv = None.
Proof.
  unfold rhsOf, parseExpression. intros H Hb.
  destruct (matchRegister (Str.trim input)) as [r|] eqn:Hr; [|discriminate].
  rewrite (isEmpty_false _ (matchRegister_nonempty _ _ Hr)).
  simpl in H.
  destruct (matchOperator _) as [o|] eqn:Ho; [|discriminate].
  rewrite (isEmpty_false _ (matchOperator_nonempty _ _ Ho)).
  simpl in H.
  destruct (Str.isEmpty (Str.trim (Str.drop (String.length o) _)));
    [discriminate|].
  injection H as ->. rewrite Hb. reflexivity.
Qed.

Lemma parseExpression_returns fuel input reg iv :
  parseExpression fuel input reg iv = None ->
  exists rhs, rhsOf input = Some rhs /\ buildRhsParts fuel rhs = None.
Proof.
  unfold rhsOf, parseExpression. intros H.
  destruct (Str.isEmpty (Str.trim input)); [discriminate|].
  destruct (matchRegister (Str.trim input)) as [r|]; [|discriminate].
  simpl.
  destruct (Str.isEmpty _); [discriminate|].
  destruct (matchOperator _) as [o|]; [|discriminate].
  simpl.
  destruct (Str.isEmpty _); [discriminate|].
  destruct (buildRhsParts fuel _) eqn:Hb; [discriminate|].
  eauto.
Qed.

(** ** The parser monad *)

Lemma wp_ret {A} (a : A) ts Q : Q a ts -> wp (ret a) ts Q.
Proof. exact id. Qed.

Lemma wp_throw {A} msg ts (Q : A -> list Token -> Prop) : wp (throw msg) ts Q.
Proof. exact I. Qed.

Lemma wp_peek ts Q : Q (hd eofToken ts) ts -> wp peek ts Q.
Proof. exact id. Qed.

Lemma wp_advance ts Q : Q tt (tl ts) -> wp advance ts Q.
Proof. exact id. Qed.

Lemma wp_bind {A B} (m : M A) (k : A -> M B) ts Q :
  wp m ts (fun a ts' => wp (k a) ts' Q) -> wp (m ≫= k) ts Q.
Proof.
  unfold wp, mbind, M_bind, bind.
  destruct (m ts) as [[[a ts']|msg]|]; auto.
Qed.

Lemma wp_mono {A} (m : M A) ts (Q Q' : A -> list Token -> Prop) :
  wp m ts Q -> (forall a ts', Q a ts' -> Q' a ts') -> wp m ts Q'.
Proof.
  unfold wp. destruct (m ts) as [[[a ts']|msg]|]; auto.
Qed.

Lemma wp_expect ty ts Q :
  (type (hd eofToken ts) = ty -> Q (hd eofToken ts) (tl ts)) ->
  wp (expect ty) ts Q.
Proof.
  intros H. unfold expect. apply wp_bind, wp_peek.
  destruct (decide _) as [E|]; [|apply wp_throw].
  apply wp_bind, wp_advance, wp_ret, H, E.
Qed.

Lemma wp_elim {A} (m : M A) ts Q a ts' :
  wp m ts Q -> m ts = Some (Ok (a, ts')) -> Q a ts'.
Proof. unfold wp. intros H E. rewrite E in H. exact H. Qed.

Lemma wp_returns {A} (m : M A) ts Q : wp m ts Q -> m ts <> None.
Proof. unfold wp. destruct (m ts); [discriminate | tauto]. Qed.

(** The definitions' equations. *)
Lemma parseOr_S n : parseOr (S n) = (left ← parseXor n; orLoop n left).
Proof. reflexivity. Qed.

Lemma orLoop_S n left :
  orLoop (S n) left =
  (t ← peek;
   if decide (type t = OR) then
     advance;; r ← parseXor n; orLoop n (byte (JS.bitOr left r))
   else ret left).
Proof. reflexivity. Qed.

Lemma parseXor_S n : parseXor (S n) = (left ← parseAnd n; xorLoop n left).
Proof. reflexivity. Qed.

Lemma xorLoop_S n left :
  xorLoop (S n) left =
  (t ← peek;
   if decide (type t = XOR) then
     advance;; r ← parseAnd n; xorLoop n (byte (JS.bitXor left r))
   else ret left).
Proof. reflexivity. Qed.

Lemma parseAnd_S n : parseAnd (S n) = (left ← parseShift n; andLoop n left).
Proof. reflexivity. Qed.

Lemma andLoop_S n left :
  andLoop (S n) left =
  (t ← peek;
   if decide (type t = AND) then
     advance;; r ← parseShift n; andLoop n (byte (JS.bitAnd left r))
   else ret left).
Proof. reflexivity. Qed.

Lemma parseShift_S n :
  parseShift (S n) = (left ← parseUnary n; shiftLoop n left).
Proof. reflexivity. Qed.

Lemma shiftLoop_S n left :
  shiftLoop (S n) left =
  (op ← peek;
   if decide (type op = LSHIFT) then
     advance;; right ← parseUnary n;
     shiftLoop n (byte (JS.shl left right))
   else if decide (type op = RSHIFT) then
     advance;; right ← parseUnary n;
     shiftLoop n (byte (JS.shr left right))
   else ret left).
Proof. reflexivity. Qed.

Lemma parseUnary_S n :
  parseUnary (S n) =
  (t ← peek;
   if decide (type t = NOT) then
     advance;; v ← parseUnary n; ret (byte (JS.bitNot v))
   else parsePrimary n).
Proof. reflexivity. Qed.

Lemma parsePrimary_S n :
  parsePrimary (S n) =
  (t ← peek;
   match type t with
   | NUMBER =>
       advance;;
       ret (match numValue t with Some v => VNum v | None => VUndefined end)
   | IDENTIFIER =>
       advance;;
       if hasProperty allNamedBits (value t)
       then ret (getProperty allNamedBits (value t))
       else throw ("Unknown identifier: " ++ value t)
   | LPAREN => advance;; val ← parseOr n; expect RPAREN;; ret val
   | _ => throw ("Unexpected token: " ++ typeName (type t)
                 ++ " ('" ++ value t ++ "')")
   end).
Proof. reflexivity. Qed.


(** ** Values of expressions *)

Lemma land_255_mod n : Z.land n 255 = n mod 256.
Proof. exact (Z.land_ones n 8 ltac:(lia)). Qed.

Lemma land_255_byte n : isByte (Z.land n 255).
Proof.
  unfold isByte. rewrite land_255_mod.
  pose proof (Z.mod_pos_bound n 256 ltac:(lia)). lia.
Qed.

Lemma byte_good n : goodValue (byte n).
Proof. apply land_255_byte. Qed.

Lemma map_forallb_lookup (m : gmap string Z) (f : string * Z -> bool) :
  forallb f (map_to_list m) = true ->
  forall k n, m !! k = Some n -> f (k, n) = true.
Proof.
  intros H k n Hk. rewrite forallb_forall in H. apply H.
  apply list_elem_of_In, elem_of_map_to_list, Hk.
Qed.

Lemma allNamedBits_indices :
  forall k n, allNamedBits !! k = Some n -> 0 <= n <= 7.
Proof.
  intros k n Hk.
  assert (H : forallb (fun kn => (0 <=? snd kn) && (snd kn <=? 7))
                (map_to_list allNamedBits) = true) by (vm_compute; reflexivity).
  pose proof (map_forallb_lookup _ _ H k n Hk) as Hin.
  apply andb_prop in Hin. destruct Hin as [H0 H7].
  apply Z.leb_le in H0, H7. exact (conj H0 H7).
Qed.

Lemma getProperty_allNamedBits_good k :
  hasProperty allNamedBits k = true -> goodValue (getProperty allNamedBits k).
Proof.
  unfold hasProperty, getProperty.
  destruct (allNamedBits !! k) as [n|] eqn:E.
  - intros _. apply allNamedBits_indices in E. unfold goodValue, isByte. lia.
  - intros H. rewrite H. exact H.
Qed.

Lemma Forall_tl {A} (P : A -> Prop) l : Forall P l -> Forall P (tl l).
Proof. destruct 1; simpl; auto. Qed.

Lemma hd_good ts : Forall goodTok ts -> goodTok (hd eofToken ts).
Proof. destruct 1; simpl; [discriminate | auto]. Qed.

Lemma length_tl_lt ts ty :
  type (hd eofToken ts) = ty -> ty <> EOF -> (length (tl ts) < length ts)%nat.
Proof. destruct ts; simpl; [congruence | lia]. Qed.

(** The three parts of a postcondition. *)
Ltac post_split := split; [|split].

Lemma parser_wp n :
  (forall ts, Forall goodTok ts -> (10 * length ts + 10 <= n)%nat ->
     wp (parseOr n) ts (post true ts)) /\
  (forall ts left, Forall goodTok ts -> goodValue left ->
     (10 * length ts + 9 <= n)%nat ->
     wp (orLoop n left) ts (post false ts)) /\
  (forall ts, Forall goodTok ts -> (10 * length ts + 8 <= n)%nat ->
     wp (parseXor n) ts (post true ts)) /\
  (forall ts left, Forall goodTok ts -> goodValue left ->
     (10 * length ts + 7 <= n)%nat ->
     wp (xorLoop n left) ts (post false ts)) /\
  (forall ts, Forall goodTok ts -> (10 * length ts + 6 <= n)%nat ->
     wp (parseAnd n) ts (post true ts)) /\
  (forall ts left, Forall goodTok ts -> goodValue left ->
     (10 * length ts + 5 <= n)%nat ->
     wp (andLoop n left) ts (post false ts)) /\
  (forall ts, Forall goodTok ts -> (10 * length ts + 4 <= n)%nat ->
     wp (parseShift n) ts (post true ts)) /\
  (forall ts left, Forall goodTok ts -> goodValue left ->
     (10 * length ts + 3 <= n)%nat ->
     wp (shiftLoop n left) ts (post false ts)) /\
  (forall ts, Forall goodTok ts -> (10 * length ts + 2 <= n)%nat ->
     wp (parseUnary n) ts (post true ts)) /\
  (forall ts, Forall goodTok ts -> (10 * length ts + 1 <= n)%nat ->
     wp (parsePrimary n) ts (post true ts)).
Proof.
  induction n as [|n IH].
  { split_all; intros; lia. }
  destruct IH as (IHor & IHorL & IHxor & IHxorL & IHand & IHandL &
                  IHshift & IHshiftL & IHunary & IHprimary).
  split_all.
  - (* parseOr *)
    intros ts Hts Hn. rewrite parseOr_S. apply wp_bind.
    eapply wp_mono; [apply IHxor; [assumption | lia]|].
    intros left ts' (Hlen & Hts' & Hleft).
    eapply wp_mono; [apply IHorL; [assumption | assumption | lia]|].
    intros v ts'' (Hlen' & Hts'' & Hv). post_split; auto. simpl in *. lia.
  - (* orLoop *)
    intros ts left Hts Hleft Hn. rewrite orLoop_S. apply wp_bind, wp_peek.
    destruct (decide _) as [E|]; [|apply wp_ret; post_split; auto].
    pose proof (length_tl_lt ts _ E ltac:(discriminate)) as Hlt.
    apply wp_bind, wp_advance, wp_bind.
    eapply wp_mono;
      [apply IHxor; [apply Forall_tl; assumption | lia]|].
    intros r ts' (Hlen & Hts' & Hr).
    eapply wp_mono;
      [apply IHorL; [assumption | apply byte_good | simpl in *; lia]|].
    intros v ts'' (Hlen' & Hts'' & Hv). post_split; auto. simpl in *. lia.
  - (* parseXor *)
    intros ts Hts Hn. rewrite parseXor_S. apply wp_bind.
    eapply wp_mono; [apply IHand; [assumption | lia]|].
    intros left ts' (Hlen & Hts' & Hleft).
    eapply wp_mono; [apply IHxorL; [assumption | assumption | lia]|].
    intros v ts'' (Hlen' & Hts'' & Hv). post_split; auto. simpl in *. lia.
  - (* xorLoop *)
    intros ts left Hts Hleft Hn. rewrite xorLoop_S. apply wp_bind, wp_peek.
    destruct (decide _) as [E|]; [|apply wp_ret; post_split; auto].
    pose proof (length_tl_lt ts _ E ltac:(discriminate)) as Hlt.
    apply wp_bind, wp_advance, wp_bind.
    eapply wp_mono;
      [apply IHand; [apply Forall_tl; assumption | lia]|].
    intros r ts' (Hlen & Hts' & Hr).
    eapply wp_mono;
      [apply IHxorL; [assumption | apply byte_good | simpl in *; lia]|].
    intros v ts'' (Hlen' & Hts'' & Hv). post_split; auto. simpl in *. lia.
  - (* parseAnd *)
    intros ts Hts Hn. rewrite parseAnd_S. apply wp_bind.
    eapply wp_mono; [apply IHshift; [assumption | lia]|].
    intros left ts' (Hlen & Hts' & Hleft).
    eapply wp_mono; [apply IHandL; [assumption | assumption | lia]|].
    intros v ts'' (Hlen' & Hts'' & Hv). post_split; auto. simpl in *. lia.
  - (* andLoop *)
    intros ts left Hts Hleft Hn. rewrite andLoop_S. apply wp_bind, wp_peek.
    destruct (decide _) as [E|]; [|apply wp_ret; post_split; auto].
    pose proof (length_tl_lt ts _ E ltac:(discriminate)) as Hlt.
    apply wp_bind, wp_advance, wp_bind.
    eapply wp_mono;
      [apply IHshift; [apply Forall_tl; assumption | lia]|].
    intros r ts' (Hlen & Hts' & Hr).
    eapply wp_mono;
      [apply IHandL; [assumption | apply byte_good | simpl in *; lia]|].
    intros v ts'' (Hlen' & Hts'' & Hv). post_split; auto. simpl in *. lia.
  - (* parseShift *)
    intros ts Hts Hn. rewrite parseShift_S. apply wp_bind.
    eapply wp_mono; [apply IHunary; [assumption | lia]|].
    intros left ts' (Hlen & Hts' & Hleft).
    eapply wp_mono; [apply IHshiftL; [assumption | assumption | lia]|].
    intros v ts'' (Hlen' & Hts'' & Hv). post_split; auto. simpl in *. lia.
  - (* shiftLoop *)
    intros ts left Hts Hleft Hn. rewrite shiftLoop_S. apply wp_bind, wp_peek.
    destruct (decide (type (hd eofToken ts) = LSHIFT)) as [E|_].
    { pose proof (length_tl_lt ts _ E ltac:(discriminate)) as Hlt.
      apply wp_bind, wp_advance, wp_bind.
      eapply wp_mono;
        [apply IHunary; [apply Forall_tl; assumption | lia]|].
      intros r ts' (Hlen & Hts' & Hr).
      eapply wp_mono;
        [apply IHshiftL; [assumption | apply byte_good | simpl in *; lia]|].
      intros v ts'' (Hlen' & Hts'' & Hv). post_split; auto.
      simpl in *. lia. }
    destruct (decide _) as [E|]; [|apply wp_ret; post_split; auto].
    pose proof (length_tl_lt ts _ E ltac:(discriminate)) as Hlt.
    apply wp_bind, wp_advance, wp_bind.
    eapply wp_mono;
      [apply IHunary; [apply Forall_tl; assumption | lia]|].
    intros r ts' (Hlen & Hts' & Hr).
    eapply wp_mono;
      [apply IHshiftL; [assumption | apply byte_good | simpl in *; lia]|].
    intros v ts'' (Hlen' & Hts'' & Hv). post_split; auto. simpl in *. lia.
  - (* parseUnary *)
    intros ts Hts Hn. rewrite parseUnary_S. apply wp_bind, wp_peek.
    destruct (decide _) as [E|];
      [|eapply wp_mono; [apply IHprimary; [assumption | lia]|]; auto].
    pose proof (length_tl_lt ts _ E ltac:(discriminate)) as Hlt.
    apply wp_bind, wp_advance, wp_bind.
    eapply wp_mono;
      [apply IHunary; [apply Forall_tl; assumption | lia]|].
    intros v ts' (Hlen & Hts' & Hv). apply wp_ret.
    post_split; auto using byte_good. simpl in *. lia.
  - (* parsePrimary *)
    intros ts Hts Hn. rewrite parsePrimary_S. apply wp_bind, wp_peek.
    destruct (type (hd eofToken ts)) eqn:E; try apply wp_throw.
    + pose proof (length_tl_lt ts _ E ltac:(discriminate)) as Hlt.
      apply wp_bind, wp_advance, wp_ret.
      destruct (hd_good ts Hts E) as (m & -> & Hm).
      post_split; auto using Forall_tl.
    + pose proof (length_tl_lt ts _ E ltac:(discriminate)) as Hlt.
      apply wp_bind, wp_advance.
      destruct (hasProperty _ _) eqn:Hp; [|apply wp_throw].
      apply wp_ret.
      post_split; auto using Forall_tl, getProperty_allNamedBits_good.
    + pose proof (length_tl_lt ts _ E ltac:(discriminate)) as Hlt.
      apply wp_bind, wp_advance, wp_bind.
      eapply wp_mono;
        [apply IHor; [apply Forall_tl; assumption | lia]|].
      intros v ts' (Hlen & Hts' & Hv).
      apply wp_bind, wp_expect. intros _. apply wp_ret.
      post_split; auto using Forall_tl.
      destruct ts'; simpl in *; lia.
Qed.


Lemma length_tl_le {A} (l : list A) : (length (tl l) <= length l)%nat.
Proof. destruct l; simpl; lia. Qed.

Lemma parseStatement_wp ts :
  Forall goodTok ts -> wp parseStatement ts (stmtPost ts).
Proof.
  intros Hts. unfold parseStatement, parseStatement_fuel.
  apply wp_bind, wp_peek.
  destruct (decide _) as [|_]; [apply wp_ret; post_split; auto|].
  destruct (decide _) as [|_].
  { apply wp_bind, wp_advance, wp_ret.
    post_split; auto using Forall_tl, length_tl_le. }
  apply wp_bind, wp_expect. intros Eid.
  pose proof (length_tl_lt ts _ Eid ltac:(discriminate)) as Hlt.
  apply wp_bind, wp_peek, wp_bind.
  assert (Hexpr : forall o, validOp o ->
    wp (ret o) (tl (tl ts))
       (fun o' ts' => wp
          (exprValue ← Parser.parseExpression (fuelFor ts);
           t' ← peek;
           (if decide (type t' = SEMICOLON) then advance else ret ());;
           ret (Some {| register := value (hd eofToken ts);
                        stmtValue := exprValue; op := o' |}))
          ts' (stmtPost ts))).
  { intros o Ho. apply wp_ret, wp_bind. unfold Parser.parseExpression.
    pose proof (length_tl_le (tl ts)).
    eapply wp_mono;
      [apply parser_wp; [auto using Forall_tl | unfold fuelFor; lia]|].
    intros v ts' (Hlen & Hts' & Hv).
    apply wp_bind, wp_peek, wp_bind.
    destruct (decide _) as [|_];
      [apply wp_advance | apply wp_ret]; apply wp_ret;
      post_split; auto using Forall_tl.
    - pose proof (length_tl_le ts'). simpl in *. lia.
    - simpl in *. lia. }
  destruct (type (hd eofToken (tl ts))) eqn:Eop; try apply wp_throw;
    apply wp_bind, wp_advance, Hexpr; unfold validOp; auto.
Qed.

(** ** The tokenizer's output *)

Lemma twoCharOp_type c d t : twoCharOp c d = Some t -> type t <> NUMBER.
Proof.
  unfold twoCharOp. intros H.
  repeat (destruct (_ && _) in H; [injection H as <-; discriminate|]).
  discriminate.
Qed.

Lemma oneCharOp_type c t : oneCharOp c = Some t -> type t <> NUMBER.
Proof.
  unfold oneCharOp. intros H.
  repeat (destruct (Ascii.eqb c _) in H; [injection H as <-; discriminate|]).
  discriminate.
Qed.

Lemma maskParsed_byte o : isByte (maskParsed o).
Proof. apply land_255_byte. Qed.

Lemma lexNumber_good c rest : goodTok (fst (lexNumber c rest)).
Proof.
  unfold lexNumber.
  destruct rest as [|x r]; [|destruct (_ && _); [|destruct (_ && _)]];
    intros _; eexists; (split; [reflexivity | apply maskParsed_byte]).
Qed.

Lemma tokenAt_good c rest t n : tokenAt c rest = (Some t, n) -> goodTok t.
Proof.
  unfold tokenAt. intros H.
  destruct (isSpace c); [discriminate|].
  destruct (Ascii.eqb c ";"); [injection H as <- _; discriminate|].
  destruct (match rest with String d _ => twoCharOp c d | EmptyString => None end)
    as [t2|] eqn:E2.
  { injection H as <- _. intros E. destruct rest; [discriminate|].
    apply twoCharOp_type in E2. contradiction. }
  destruct (oneCharOp c) as [t1|] eqn:E1.
  { injection H as <- _. intros E. apply oneCharOp_type in E1. contradiction. }
  destruct (isDigit c).
  { pose proof (lexNumber_good c rest) as Hg.
    destruct (lexNumber c rest) as [t' n']. injection H as <- _. exact Hg. }
  destruct (isIdentStart c); [injection H as <- _|]; discriminate.
Qed.

Lemma tokenizeFrom_good s skip : Forall goodTok (tokenizeFrom s skip).
Proof.
  revert skip. induction s as [|c rest IH]; intros skip; simpl.
  { repeat constructor. discriminate. }
  destruct skip; [|apply IH].
  destruct (tokenAt c rest) as [[t|] n] eqn:E; [|apply IH].
  constructor; [eapply tokenAt_good, E | apply IH].
Qed.

Lemma tokenize_good code : Forall goodTok (tokenize code).
Proof. apply tokenizeFrom_good. Qed.

(** ** The evaluation loop *)

Section EvalLoop.

(** An invariant of the loop, over the cursor, the state and the steps
    recorded so far. *)
Variable Inv : list Token -> gmap string Z -> list Step -> Prop.

Hypothesis Inv_skip :
  forall ts ts' st steps,
    Inv ts st steps ->
    parseStatement ts = Some (Ok (None, ts')) ->
    Inv ts' st steps.

Hypothesis Inv_step :
  forall ts ts' st steps stmt after,
    Inv ts st steps ->
    parseStatement ts = Some (Ok (Some stmt, ts')) ->
    applyOp (op stmt) (JS.nullish (getProperty st (register stmt)) (VNum 0))
            (stmtValue stmt) = Ok after ->
    Inv ts' (setProperty st (register stmt) after)
        (steps ++ [ {| stepRegister := register stmt; stepOp := op stmt;
                       exprValue := stmtValue stmt;
                       before := JS.nullish (getProperty st (register stmt))
                                            (VNum 0);
                       after := after |} ]).

Lemma evalLoop_invariant n ts st steps r :
  Inv ts st steps ->
  evalLoop n ts st steps = Some r ->
  exists ts' st' steps',
    Inv ts' st' steps' /\
    (r = succeeded st' steps' \/ exists msg, r = failed st' steps' msg).
Proof.
  revert ts st steps. induction n as [|n IH]; intros ts st steps HI H.
  { simpl in H. injection H as <-. eauto 6. }
  simpl in H.
  destruct (parseStatement ts) as [[[[stmt|] ts']|msg]|] eqn:E;
    [| | |discriminate].
  - destruct (applyOp _ _ _) as [after|msg] eqn:Ea.
    + eapply IH; [|exact H]. eapply Inv_step; eauto.
    + injection H as <-. eauto 7.
  - destruct (atEOF ts').
    + injection H as <-. eauto 7.
    + eapply IH; [|exact H]. eapply Inv_skip; eauto.
  - injection H as <-. eauto 7.
Qed.

End EvalLoop.

(** The loop returns: on tokens as the tokenizer makes them the parser's
    budget is never used up, and an assignment operator is one of the
    four of the [switch]. *)
Lemma evalLoop_total n ts st steps :
  Forall goodTok ts -> exists r, evalLoop n ts st steps = Some r.
Proof.
  revert ts st steps. induction n as [|n IH]; intros ts st steps Hts;
    [simpl; eauto|].
  simpl. pose proof (parseStatement_wp ts Hts) as Hwp.
  unfold wp in Hwp.
  destruct (parseStatement ts) as [[[[stmt|] ts']|msg]|];
    [| | eauto | contradiction].
  - destruct Hwp as (_ & Hts' & _).
    destruct (applyOp _ _ _); eauto.
  - destruct Hwp as (_ & Hts' & _). destruct (atEOF ts'); eauto.
Qed.

Theorem evaluate_total code initialStates :
  exists r, evaluate code initialStates = Some r.
Proof. exact (evalLoop_total _ _ _ _ (tokenize_good code)). Qed.

Theorem checkAnswer_total userCode targetRegister initialValue expectedValue :
  exists c,
    checkAnswer userCode targetRegister initialValue expectedValue = Some c.
Proof.
  unfold checkAnswer.
  destruct (evaluate_total userCode {[ targetRegister := initialValue ]})
    as (r & ->).
  simpl. eauto.
Qed.

(** ** States and steps *)

Lemma replay_snoc init steps s :
  replay init (steps ++ [s]) = commit (replay init steps) s.
Proof. unfold replay. rewrite foldl_app. reflexivity. Qed.

Lemma consistent_snoc init steps s :
  consistent init steps ->
  before s = JS.nullish (getProperty (replay init steps) (stepRegister s))
                        (VNum 0) ->
  applyOp (stepOp s) (before s) (exprValue s) = Ok (after s) ->
  consistent init (steps ++ [s]).
Proof.
  revert init. induction steps as [|s0 steps IH]; intros init H Hb Ha; simpl.
  - auto.
  - destruct H as (H1 & H2 & H3). auto.
Qed.

Lemma failed_error st steps msg :
  exists m, error (failed st steps msg) = Some m /\ m <> "".
Proof.
  unfold failed. simpl. destruct msg; simpl; eexists; split; eauto; discriminate.
Qed.

Lemma evalLoop_replay n ts init r :
  evalLoop n ts init [] = Some r ->
  registerStates r = replay init (steps r) /\ consistent init (steps r) /\
  (success r = false -> exists m, error r = Some m /\ m <> "").
Proof.
  intros H.
  apply (evalLoop_invariant
           (fun _ st steps => st = replay init steps /\ consistent init steps))
    in H.
  - destruct H as (ts' & st' & steps' & (-> & Hc) & [-> | (msg & ->)]).
    + split; [reflexivity|]. split; [exact Hc|]. discriminate.
    + split; [reflexivity|]. split; [exact Hc|].
      intros _. apply failed_error.
  - auto.
  - intros ? ? ? ? ? ? (-> & Hc) _ Ha. split.
    + rewrite replay_snoc. reflexivity.
    + apply consistent_snoc; auto.
  - simpl. auto.
Qed.

Lemma setProperty_lookup_is_Some st k n j :
  is_Some (st !! j) -> is_Some (setProperty st k n !! j).
Proof.
  unfold setProperty. intros H.
  destruct (st !! k) eqn:E; [|destruct (String.eqb k "__proto__"); [exact H|]];
    (destruct (decide (k = j)) as [->|];
     [rewrite lookup_insert_eq; eauto | rewrite lookup_insert_ne; auto]).
Qed.

Lemma evalLoop_keeps_own n ts st steps r k :
  is_Some (st !! k) ->
  evalLoop n ts st steps = Some r ->
  is_Some (registerStates r !! k).
Proof.
  intros Hk H.
  apply (evalLoop_invariant (fun _ st _ => is_Some (st !! k))) in H; auto.
  - destruct H as (ts' & st' & steps' & Hi & [-> | (msg & ->)]); exact Hi.
  - intros. apply setProperty_lookup_is_Some. assumption.
Qed.

Lemma applyOp_byte o b v n : applyOp o b v = Ok n -> isByte n.
Proof.
  unfold applyOp, JS.byteOf. intros H.
  repeat (destruct (String.eqb o _) in H;
          [injection H as <-; apply land_255_byte|]).
  discriminate.
Qed.

Lemma setProperty_bytes st k n :
  map_Forall (fun _ v => isByte v) st -> isByte n ->
  map_Forall (fun _ v => isByte v) (setProperty st k n).
Proof.
  unfold setProperty. intros Hst Hn.
  destruct (st !! k); [|destruct (String.eqb k "__proto__"); [exact Hst|]];
    apply map_Forall_insert_2; assumption.
Qed.

Lemma before_good st k :
  map_Forall (fun _ v => isByte v) st ->
  goodValue (JS.nullish (getProperty st k) (VNum 0)).
Proof.
  unfold getProperty. intros Hst.
  destruct (st !! k) as [n|] eqn:E; simpl.
  - exact (Hst k n E).
  - destruct (inherited k) eqn:Hi; simpl; [exact Hi | unfold isByte; lia].
Qed.

Lemma evalLoop_masking n ts init steps0 r :
  Forall goodTok ts ->
  map_Forall (fun _ v => isByte v) init ->
  Forall stepInRange steps0 ->
  evalLoop n ts init steps0 = Some r ->
  map_Forall (fun _ v => isByte v) (registerStates r) /\
  Forall stepInRange (steps r).
Proof.
  intros Hts0 Hinit Hsteps0 H.
  apply (evalLoop_invariant
           (fun ts st steps =>
              Forall goodTok ts /\ map_Forall (fun _ v => isByte v) st /\
              Forall stepInRange steps)) in H.
  - destruct H as (ts' & st' & steps' & (_ & Hst & Hsteps) &
                   [-> | (msg & ->)]); auto.
  - intros ts1 ts' st steps (Hts & Hst & Hsteps) E.
    pose proof (wp_elim _ _ _ _ _
                  (parseStatement_wp ts1 Hts) E) as (_ & Hts' & _).
    auto.
  - intros ts1 ts' st steps stmt m (Hts & Hst & Hsteps) E Ha.
    pose proof (wp_elim _ _ _ _ _
                  (parseStatement_wp ts1 Hts) E)
      as (_ & Hts' & Hv & _).
    pose proof (applyOp_byte _ _ _ _ Ha) as Hn.
    split_all; auto using setProperty_bytes.
    apply Forall_app. split; [assumption|].
    constructor; [|constructor].
    split; [exact Hn|]. split; [exact Hv | apply before_good, Hst].
  - auto.
Qed.

Lemma evaluate_unfold code init :
  evaluate code init = evalLoop maxStatements (tokenize code) init [].
Proof. reflexivity. Qed.

(** The masking invariant, as far as it holds: see [stepInRange]. *)
Theorem masking_invariant code init r :
  map_Forall (fun _ v => isByte v) init ->
  evaluate code init = Some r ->
  map_Forall (fun _ v => isByte v) (registerStates r) /\
  Forall stepInRange (steps r).
Proof.
  intros Hinit H. rewrite evaluate_unfold in H.
  exact (evalLoop_masking _ _ _ _ _ (tokenize_good code) Hinit
           (List.Forall_nil _) H).
Qed.

(** ** Characters, by enumeration *)

Lemma allAscii_complete c : In c allAscii.
Proof.
  rewrite <- (ascii_nat_embedding c). unfold allAscii.
  apply in_map, in_seq. pose proof (nat_ascii_bounded c). simpl. lia.
Qed.

Lemma forall_ascii (P : ascii -> bool) :
  forallb P allAscii = true -> forall c, P c = true.
Proof.
  intros H c. rewrite forallb_forall in H. apply H, allAscii_complete.
Qed.

Lemma allBytes_complete n : isByte n -> In n allBytes.
Proof.
  intros [H0 H255]. rewrite <- (Z2Nat.id n) by lia. unfold allBytes.
  apply in_map, in_seq. lia.
Qed.

Lemma forall_bytes (P : Z -> bool) :
  forallb P allBytes = true -> forall n, isByte n -> P n = true.
Proof.
  intros H n Hn. rewrite forallb_forall in H. apply H, allBytes_complete, Hn.
Qed.

(** A character that starts an identifier is no space, no operator and
    no digit. *)
Lemma identStart_other c :
  isIdentStart c = true ->
  isSpace c = false /\ Ascii.eqb c ";" = false /\
  Ascii.eqb c "|" = false /\ Ascii.eqb c "&" = false /\
  Ascii.eqb c "^" = false /\ Ascii.eqb c "<" = false /\
  Ascii.eqb c ">" = false /\ oneCharOp c = None /\ isDigit c = false.
Proof.
  intros H.
  pose proof (forall_ascii
    (fun c => implb (isIdentStart c)
       (negb (isSpace c) && negb (Ascii.eqb c ";") && negb (Ascii.eqb c "|")
        && negb (Ascii.eqb c "&") && negb (Ascii.eqb c "^")
        && negb (Ascii.eqb c "<") && negb (Ascii.eqb c ">")
        && match oneCharOp c with None => true | Some _ => false end && negb (isDigit c)))
    ltac:(vm_compute; reflexivity) c) as Hc.
  cbv beta in Hc. rewrite H in Hc. simpl in Hc.
  repeat (apply andb_prop in Hc; destruct Hc as [Hc ?]).
  repeat match goal with
         | H : negb _ = true |- _ => apply negb_true_iff in H
         | H : match oneCharOp ?c with None => true | Some _ => false end
               = true |- _ => destruct (oneCharOp c); [discriminate H|clear H]
         end.
  split_all; solve [assumption | reflexivity].
Qed.

(** A digit is no space and no operator, and none of [x], [X], [b],
    [B]. *)
Lemma digit_other c :
  isDigit c = true ->
  isSpace c = false /\ Ascii.eqb c ";" = false /\
  Ascii.eqb c "|" = false /\ Ascii.eqb c "&" = false /\
  Ascii.eqb c "^" = false /\ Ascii.eqb c "<" = false /\
  Ascii.eqb c ">" = false /\ oneCharOp c = None /\
  Ascii.eqb c "x" = false /\ Ascii.eqb c "X" = false /\
  Ascii.eqb c "b" = false /\ Ascii.eqb c "B" = false /\
  isIdentChar c = true.
Proof.
  intros H.
  pose proof (forall_ascii
    (fun c => implb (isDigit c)
       (negb (isSpace c) && negb (Ascii.eqb c ";") && negb (Ascii.eqb c "|")
        && negb (Ascii.eqb c "&") && negb (Ascii.eqb c "^")
        && negb (Ascii.eqb c "<") && negb (Ascii.eqb c ">")
        && match oneCharOp c with None => true | Some _ => false end
        && negb (Ascii.eqb c "x") && negb (Ascii.eqb c "X")
        && negb (Ascii.eqb c "b") && negb (Ascii.eqb c "B")
        && isIdentChar c))
    ltac:(vm_compute; reflexivity) c) as Hc.
  cbv beta in Hc. rewrite H in Hc. simpl in Hc.
  repeat (apply andb_prop in Hc; destruct Hc as [Hc ?]).
  repeat match goal with
         | H : negb _ = true |- _ => apply negb_true_iff in H
         | H : match oneCharOp ?c with None => true | Some _ => false end
               = true |- _ => destruct (oneCharOp c); [discriminate H|clear H]
         end.
  split_all; solve [assumption | reflexivity].
Qed.

(** The letters that introduce a hexadecimal or binary literal are
    identifier characters. *)
Lemma radix_letter_identChar c :
  isIdentChar c = false ->
  Ascii.eqb c "x" = false /\ Ascii.eqb c "X" = false /\
  Ascii.eqb c "b" = false /\ Ascii.eqb c "B" = false /\ isDigit c = false.
Proof.
  intros H.
  pose proof (forall_ascii
    (fun c => implb (negb (isIdentChar c))
       (negb (Ascii.eqb c "x") && negb (Ascii.eqb c "X")
        && negb (Ascii.eqb c "b") && negb (Ascii.eqb c "B")
        && negb (isDigit c)))
    ltac:(vm_compute; reflexivity) c) as Hc.
  cbv beta in Hc. rewrite H in Hc. simpl in Hc.
  repeat (apply andb_prop in Hc; destruct Hc as [Hc ?]).
  repeat match goal with
         | H : negb _ = true |- _ => apply negb_true_iff in H
         end.
  split_all; solve [assumption | reflexivity].
Qed.

(** ** The tokenizer on identifiers and decimal literals *)

Lemma takeWhile_app_stop p a b :
  allChars p a = true -> stopsAt p b = true -> Str.takeWhile p (a ++ b) = a.
Proof.
  intros Ha Hb. induction a as [|c a IH].
  - destruct b as [|d b]; [reflexivity|]. simpl in *.
    apply negb_true_iff in Hb. rewrite Hb. reflexivity.
  - simpl in *. apply andb_prop in Ha. destruct Ha as [Hc Ha].
    rewrite Hc, IH; auto.
Qed.

Lemma tokenizeFrom_skip a b :
  tokenizeFrom (a ++ b) (String.length a) = tokenizeFrom b 0.
Proof. induction a as [|c a IH]; simpl; [destruct b|]; auto. Qed.

Lemma twoCharOp_none c d :
  Ascii.eqb c "|" = false -> Ascii.eqb c "&" = false ->
  Ascii.eqb c "^" = false -> Ascii.eqb c "<" = false ->
  Ascii.eqb c ">" = false -> twoCharOp c d = None.
Proof. unfold twoCharOp. intros -> -> -> -> ->. reflexivity. Qed.

Lemma tokenAt_identStart c rest :
  isIdentStart c = true ->
  tokenAt c rest =
  (Some (tok IDENTIFIER (String c (Str.takeWhile isIdentChar rest))),
   String.length (Str.takeWhile isIdentChar rest)).
Proof.
  intros H.
  destruct (identStart_other c H)
    as (Hs & Hsemi & H1 & H2 & H3 & H4 & H5 & Hone & Hd).
  unfold tokenAt. rewrite Hs, Hsemi, Hone, Hd, H.
  destruct rest as [|d r]; [reflexivity|].
  rewrite (twoCharOp_none c d) by assumption. reflexivity.
Qed.

Lemma tokenizeFrom_identifier X rest :
  isIdentifier X = true -> stopsAt isIdentChar rest = true ->
  tokenizeFrom (X ++ rest) 0 = tok IDENTIFIER X :: tokenizeFrom rest 0.
Proof.
  destruct X as [|c X]; [discriminate|]. simpl. intros H Hrest.
  apply andb_prop in H. destruct H as [Hc HX].
  rewrite (tokenAt_identStart c _ Hc), takeWhile_app_stop by assumption.
  rewrite tokenizeFrom_skip. reflexivity.
Qed.

Lemma lexNumber_decimal c ds rest :
  isDigit c = true -> allChars isDigit ds = true ->
  stopsAt isIdentChar rest = true ->
  lexNumber c (ds ++ rest) =
  (numTok (String c ds) (maskParsed (parseInt (String c ds) 10)),
   String.length ds).
Proof.
  intros Hc Hds Hrest.
  assert (Hstop : stopsAt isDigit rest = true).
  { destruct rest as [|x r]; [reflexivity|]. simpl in *.
    apply negb_true_iff in Hrest.
    destruct (radix_letter_identChar x Hrest) as (_ & _ & _ & _ & ->).
    reflexivity. }
  unfold lexNumber. rewrite takeWhile_app_stop by assumption.
  destruct (ds ++ rest) as [|x r] eqn:E; [reflexivity|].
  assert (Hx : Ascii.eqb x "x" = false /\ Ascii.eqb x "X" = false /\
               Ascii.eqb x "b" = false /\ Ascii.eqb x "B" = false).
  { destruct ds as [|d ds'].
    - change (rest = String x r) in E. subst rest. simpl in Hrest.
      apply negb_true_iff in Hrest.
      destruct (radix_letter_identChar x Hrest) as (? & ? & ? & ? & _). auto.
    - change (String d (ds' ++ rest) = String x r) in E.
      injection E as <- _. simpl in Hds.
      apply andb_prop in Hds. destruct Hds as [Hd _].
      destruct (digit_other d Hd)
        as (_ & _ & _ & _ & _ & _ & _ & _ & ? & ? & ? & ? & _). auto. }
  destruct Hx as (-> & -> & -> & ->).
  rewrite !andb_false_r. reflexivity.
Qed.

Lemma tokenizeFrom_decimal D rest :
  isDecimal D = true -> stopsAt isIdentChar rest = true ->
  tokenizeFrom (D ++ rest) 0 =
  numTok D (maskParsed (parseInt D 10)) :: tokenizeFrom rest 0.
Proof.
  destruct D as [|c ds]; [discriminate|]. unfold isDecimal. simpl.
  intros H Hrest. apply andb_prop in H. destruct H as [Hc Hds].
  destruct (digit_other c Hc)
    as (Hs & Hsemi & H1 & H2 & H3 & H4 & H5 & Hone & _).
  unfold tokenAt. rewrite Hs, Hsemi, Hone, Hc.
  assert (E2 : match ds ++ rest with
               | String d _ => twoCharOp c d
               | EmptyString => None
               end = None).
  { destruct (ds ++ rest); [reflexivity|]. apply twoCharOp_none; assumption. }
  rewrite E2, lexNumber_decimal by assumption.
  rewrite tokenizeFrom_skip. reflexivity.
Qed.

(** The decimal text of a byte is a literal that reads back as the
    byte. *)
Lemma numberToString_byte n :
  isByte n ->
  isDecimal (numberToString n) = true /\
  maskParsed (parseInt (numberToString n) 10) = n.
Proof.
  intros Hn.
  pose proof (forall_bytes
    (fun n => isDecimal (numberToString n)
              && (maskParsed (parseInt (numberToString n) 10) =? n))
    ltac:(vm_compute; reflexivity) n Hn) as H.
  apply andb_prop in H. destruct H as [H1 H2].
  apply Z.eqb_eq in H2. auto.
Qed.

(** ** Trimming a statement *)

Lemma last_app a b : b <> "" -> Str.last (a ++ b) = Str.last b.
Proof.
  intros Hb. induction a as [|c a IH]; [reflexivity|].
  change (Str.last (String c (a ++ b)) = Str.last b).
  rewrite last_cons; [exact IH|].
  destruct a; [exact Hb | discriminate].
Qed.

Lemma trimEnd_id s : noTrailingSpace s -> Str.trimEnd s = s.
Proof.
  induction s as [|c s IH]; intros H; [reflexivity|].
  simpl. rewrite (IH (noTrailingSpace_tail _ _ H)).
  destruct s; [|reflexivity].
  unfold noTrailingSpace in H. simpl in H. rewrite H. reflexivity.
Qed.

Lemma trim_identifier_first X rest :
  isIdentifier X = true -> noTrailingSpace (X ++ rest) ->
  Str.trim (X ++ rest) = X ++ rest.
Proof.
  intros HX Hlast. unfold Str.trim, Str.trimStart.
  destruct X as [|c X]; [discriminate|]. simpl in HX.
  apply andb_prop in HX. destruct HX as [Hc _].
  destruct (identStart_other c Hc) as (Hs & _).
  simpl Str.dropWhile. rewrite Hs. apply trimEnd_id, Hlast.
Qed.

Lemma append_assoc a b c : (a ++ b) ++ c = a ++ (b ++ c).
Proof.
  induction a as [|x a IH]; [reflexivity|].
  change (String x ((a ++ b) ++ c) = String x (a ++ (b ++ c))).
  rewrite IH. reflexivity.
Qed.

Lemma noTrailingSpace_app a b :
  b <> "" -> noTrailingSpace b -> noTrailingSpace (a ++ b).
Proof. intros Hb H. unfold noTrailingSpace. rewrite last_app; assumption. Qed.

(** A text whose last, literal piece ends in a character that is no
    space. *)
Ltac no_trailing_space :=
  rewrite <- !append_assoc;
  apply noTrailingSpace_app; [discriminate | reflexivity].

(** ** 32-bit and 8-bit arithmetic *)

Lemma toInt32_small n : - 2 ^ 31 <= n < 2 ^ 31 -> toInt32 n = n.
Proof.
  intros H. unfold toInt32.
  destruct (Z.ltb_spec (n mod 2 ^ 32) (2 ^ 31)) as [Hlt|Hge].
  - destruct (Z.le_gt_cases 0 n) as [Hn|Hn].
    + apply Z.mod_small. lia.
    + rewrite <- (Z.mod_add n 1 (2 ^ 32)) in Hlt by lia.
      rewrite Z.mod_small in Hlt by lia. lia.
  - destruct (Z.le_gt_cases 0 n) as [Hn|Hn].
    + rewrite Z.mod_small in Hge by lia. lia.
    + rewrite <- (Z.mod_add n 1 (2 ^ 32)) by lia.
      rewrite Z.mod_small by lia. lia.
Qed.

Lemma toInt32_byte n : isByte n -> toInt32 n = n.
Proof. unfold isByte. intros H. apply toInt32_small. lia. Qed.

Lemma sub_2_32_mod_256 x : (x - 2 ^ 32) mod 256 = x mod 256.
Proof.
  replace (x - 2 ^ 32) with (x + (- 2 ^ 24) * 256).
  - apply Z.mod_add. lia.
  - change (2 ^ 32) with 4294967296. change (2 ^ 24) with 16777216. lia.
Qed.

Lemma toInt32_mod_256 n : toInt32 n mod 256 = n mod 256.
Proof.
  unfold toInt32.
  assert (H : (n mod 2 ^ 32) mod 256 = n mod 256).
  { apply Z.mod_mod_divide. exists (2 ^ 24). reflexivity. }
  destruct (_ <? _); [exact H|].
  rewrite sub_2_32_mod_256. exact H.
Qed.

Lemma land_255_of_byte n : isByte n -> Z.land n 255 = n.
Proof.
  unfold isByte. intros H. rewrite land_255_mod. apply Z.mod_small. lia.
Qed.

Lemma byteOf_byte n : JS.byteOf (byte n) = Z.land n 255.
Proof.
  unfold JS.byteOf, byte, JS.int32.
  rewrite toInt32_byte by apply land_255_byte.
  apply land_255_of_byte, land_255_byte.
Qed.

Lemma shiftCount_byte k : isByte k -> JS.shiftCount (VNum k) = k mod 32.
Proof. intros H. unfold JS.shiftCount, JS.int32. rewrite toInt32_byte; auto. Qed.

Lemma shl_byte a k :
  isByte a -> isByte k ->
  Z.land (JS.shl (VNum a) (VNum k)) 255 = (a * 2 ^ (k mod 32)) mod 256.
Proof.
  intros Ha Hk. unfold JS.shl. rewrite shiftCount_byte by assumption.
  unfold JS.int32. rewrite (toInt32_byte a Ha), land_255_mod, toInt32_mod_256.
  rewrite Z.shiftl_mul_pow2; [reflexivity|].
  apply Z.mod_pos_bound. lia.
Qed.

Lemma shr_byte a k :
  isByte a -> isByte k ->
  Z.land (JS.shr (VNum a) (VNum k)) 255 = (a / 2 ^ (k mod 32)) mod 256.
Proof.
  intros Ha Hk. unfold JS.shr. rewrite shiftCount_byte by assumption.
  unfold JS.int32. rewrite (toInt32_byte a Ha), land_255_mod.
  rewrite Z.shiftr_div_pow2; [reflexivity|].
  apply Z.mod_pos_bound. lia.
Qed.

Lemma bitOr_bytes a b :
  isByte a -> isByte b -> Z.land (JS.bitOr (VNum a) (VNum b)) 255 = Z.lor a b.
Proof.
  intros Ha Hb. unfold JS.bitOr, JS.int32.
  rewrite !toInt32_byte, Z.land_lor_distr_l, !land_255_of_byte by assumption.
  reflexivity.
Qed.

Lemma land_lxor_distr a b c :
  Z.land (Z.lxor a b) c = Z.lxor (Z.land a c) (Z.land b c).
Proof.
  apply Z.bits_inj'. intros n _.
  rewrite Z.land_spec, !Z.lxor_spec, !Z.land_spec.
  destruct (Z.testbit a n), (Z.testbit b n), (Z.testbit c n); reflexivity.
Qed.

Lemma bitXor_bytes a b :
  isByte a -> isByte b ->
  Z.land (JS.bitXor (VNum a) (VNum b)) 255 = Z.lxor a b.
Proof.
  intros Ha Hb. unfold JS.bitXor, JS.int32.
  rewrite !toInt32_byte, land_lxor_distr, !land_255_of_byte by assumption.
  reflexivity.
Qed.

Lemma lor_byte a b : isByte a -> isByte b -> isByte (Z.lor a b).
Proof.
  intros Ha Hb. rewrite <- (bitOr_bytes a b Ha Hb). apply land_255_byte.
Qed.

Lemma lxor_byte a b : isByte a -> isByte b -> isByte (Z.lxor a b).
Proof.
  intros Ha Hb. rewrite <- (bitXor_bytes a b Ha Hb). apply land_255_byte.
Qed.

(** ** Single statements *)

Lemma evalLoop_S n ts st steps :
  evalLoop (S n) ts st steps =
  match parseStatement ts with
  | None => None
  | Some (Throw msg) => Some (failed st steps msg)
  | Some (Ok (None, ts')) =>
      if atEOF ts' then Some (succeeded st steps)
      else evalLoop n ts' st steps
  | Some (Ok (Some stmt, ts')) =>
      let before := JS.nullish (getProperty st (register stmt)) (VNum 0) in
      match applyOp (op stmt) before (stmtValue stmt) with
      | Throw msg => Some (failed st steps msg)
      | Ok after =>
          evalLoop n ts' (setProperty st (register stmt) after)
            (steps ++ [ {| stepRegister := register stmt;
                           stepOp := op stmt;
                           exprValue := stmtValue stmt;
                           before := before;
                           after := after |} ])
      end
  end.
Proof. reflexivity. Qed.

Lemma evalLoop_commit n ts ts' st steps stmt after :
  parseStatement ts = Some (Ok (Some stmt, ts')) ->
  applyOp (op stmt) (JS.nullish (getProperty st (register stmt)) (VNum 0))
          (stmtValue stmt) = Ok after ->
  evalLoop (S n) ts st steps =
  evalLoop n ts' (setProperty st (register stmt) after)
    (steps ++ [ {| stepRegister := register stmt; stepOp := op stmt;
                   exprValue := stmtValue stmt;
                   before := JS.nullish (getProperty st (register stmt))
                                        (VNum 0);
                   after := after |} ]).
Proof. intros E Ea. rewrite evalLoop_S, E. cbv zeta. rewrite Ea. reflexivity. Qed.

Lemma evalLoop_eof n st steps :
  evalLoop (S n) [eofToken] st steps = Some (succeeded st steps).
Proof. reflexivity. Qed.

Lemma maxStatements_S : maxStatements = S (S (S 97)).
Proof. reflexivity. Qed.

(** Reading back a register after its assignment. *)
Lemma setProperty_lookup st k n :
  k <> "__proto__" \/ is_Some (st !! k) -> setProperty st k n !! k = Some n.
Proof.
  unfold setProperty. intros H.
  destruct (st !! k) eqn:E; [apply lookup_insert_eq|].
  destruct (String.eqb_spec k "__proto__") as [->|_];
    [|apply lookup_insert_eq].
  destruct H as [H|[x H]]; congruence.
Qed.

Lemma getProperty_own st k n : st !! k = Some n -> getProperty st k = VNum n.
Proof. unfold getProperty. intros ->. reflexivity. Qed.

(** * The claims *)

(** ** Scenarios of the specification *)

Example allNamedBits_RXEN0 : allNamedBits !! "RXEN0" = Some 4.
Proof. vm_compute. reflexivity. Qed.

Example allNamedBits_PINL7 : allNamedBits !! "PINL7" = Some 7.
Proof. vm_compute. reflexivity. Qed.

Example allNamedBits_size : size allNamedBits = (264 + 106)%nat.
Proof. vm_compute. reflexivity. Qed.

Example tokenize_set_bit :
  tokenize "PORTA |= (1<<3);" =
  [ tok IDENTIFIER "PORTA"; tok OR_ASSIGN "|="; tok LPAREN "(";
    numTok "1" 1; tok LSHIFT "<<"; numTok "3" 3; tok RPAREN ")";
    tok SEMICOLON ";"; eofToken ].
Proof. vm_compute. reflexivity. Qed.

Example tokenize_literals :
  tokenize "  0x1fF 0b101 300 0x 0b2 x$y " =
  [ numTok "0x1fF" 255; numTok "0b101" 5; numTok "300" 44; numTok "0x" 0;
    numTok "0b" 0; numTok "2" 2; tok IDENTIFIER "x"; tok IDENTIFIER "y";
    eofToken ].
Proof. vm_compute. reflexivity. Qed.

Example tokenize_beyond_double :
  tokenize "9007199254740993" = [ numTok "9007199254740993" 0; eofToken ].
Proof. vm_compute. reflexivity. Qed.

Example scenario_1 :
  let r := evaluate "PORTA |= (1<<3);" {[ "PORTA" := 0 ]} in
  success <$> r = Some true /\ finalOf r "PORTA" = Some 8.
Proof. vm_compute. auto. Qed.

Example scenario_2 :
  let r := evaluate "PORTB &= ~(1<<2);" {[ "PORTB" := 255 ]} in
  success <$> r = Some true /\ finalOf r "PORTB" = Some 251.
Proof. vm_compute. auto. Qed.

Example scenario_3 :
  let r := evaluate "UCSR0B = (1<<RXEN0)|(1<<TXEN0);" {[ "UCSR0B" := 77 ]} in
  success <$> r = Some true /\ finalOf r "UCSR0B" = Some 24.
Proof. vm_compute. auto. Qed.

Example scenario_4 :
  let r := evaluate "PORTD ^= (1<<5);" {[ "PORTD" := 32 ]} in
  success <$> r = Some true /\ finalOf r "PORTD" = Some 0.
Proof. vm_compute. auto. Qed.

Example unknown_identifier :
  error <$> evaluate "PORTA = FOO;" ∅ = Some (Some "Unknown identifier: FOO").
Proof. vm_compute. reflexivity. Qed.

Example missing_paren :
  error <$> evaluate "PORTA = (1<<3;" ∅ =
  Some (Some "Expected RPAREN but got SEMICOLON (';')").
Proof. vm_compute. reflexivity. Qed.

(** ** The analyzer on complete statements *)

(** C1 (fails on the code): the statement [PORTA = 1<<(PA1|PA2);] is
    accepted by the strict evaluator, yet on this statement, a non-empty
    prefix of itself, the analyzer's [buildRhsParts] calls itself on the
    unchanged text [1<<(PA1|PA2] without end: no number of nested calls
    lets [parseExpression] return a breakdown.  The statement
    [UCSR0B = (1<<RXEN0)|(1<<TXEN0);] and its prefix up to the [|] fail
    the same way. *)
Theorem C1_analyzer_never_returns :
  success <$> evaluate "PORTA = 1<<(PA1|PA2);" ∅ = Some true /\
  (forall fuel reg iv,
      parseExpression fuel "PORTA = 1<<(PA1|PA2);" reg iv = None) /\
  success <$> evaluate "UCSR0B = (1<<RXEN0)|(1<<TXEN0);" ∅ = Some true /\
  (forall fuel reg iv,
      parseExpression fuel "UCSR0B = (1<<RXEN0)|(1<<TXEN0);" reg iv = None) /\
  (forall fuel reg iv,
      parseExpression fuel "UCSR0B = (1<<RXEN0)|" reg iv = None).
Proof.
  split; [vm_compute; reflexivity|].
  split.
  { intros fuel reg iv.
    apply parseExpression_diverges with (rhs := "1<<(PA1|PA2)");
      [vm_compute; reflexivity|].
    apply buildRhsParts_loop_after_strip with (seg := "1<<(PA1|PA2");
      [by_evaluation | by_evaluation | by_evaluation | by_evaluation |].
    apply buildRhsParts_self_loop with (seg := "1<<(PA1|PA2");
      vm_compute; reflexivity. }
  split; [vm_compute; reflexivity|].
  split.
  { intros fuel reg iv.
    apply parseExpression_diverges with (rhs := "(1<<RXEN0)|(1<<TXEN0)");
      [vm_compute; reflexivity|].
    apply buildRhsParts_loop_after_strip with (seg := "1<<RXEN0)|(1<<TXEN0");
      [by_evaluation | by_evaluation | by_evaluation | by_evaluation |].
    apply buildRhsParts_self_loop with (seg := "1<<RXEN0)|(1<<TXEN0");
      vm_compute; reflexivity. }
  intros fuel reg iv.
  apply parseExpression_diverges with (rhs := "(1<<RXEN0)|");
    [vm_compute; reflexivity|].
  apply buildRhsParts_loop_after_strip with (seg := "1<<RXEN0)|");
    [by_evaluation | by_evaluation | by_evaluation | by_evaluation |].
  apply buildRhsParts_self_loop with (seg := "1<<RXEN0)|");
    vm_compute; reflexivity.
Qed.

(** ** Analyzer against strict evaluator *)

(** C2 (fails on the code): [1^3&2] is [1 ^ (3 & 2) = 3] for the strict
    evaluator, whose AND binds tighter than XOR, while the analyzer
    splits on [&] before [^] and returns [(1 ^ 3) & 2 = 2], a number
    and not null.  It also returns [1] for [0x01|0x02] (strict: 3),
    because its hexadecimal literal accepts any text after the digits,
    [~1 << 2] is [~(1 << 2)] for it, and [1<<2<<3] is [1 << (2 << 3)]. *)
Theorem C2_analyzer_differs_from_strict :
  strictValue "1^3&2" = Some (VNum 3) /\
  tryEvaluatePartial "1^3&2" = Some (VNum 2) /\
  strictValue "0x01|0x02" = Some (VNum 3) /\
  tryEvaluatePartial "0x01|0x02" = Some (VNum 1) /\
  strictValue "~1<<2" = Some (VNum 248) /\
  tryEvaluatePartial "~1<<2" = Some (VNum 251) /\
  strictValue "1<<2<<3" = Some (VNum 32) /\
  tryEvaluatePartial "1<<2<<3" = Some (VNum 0).
Proof. by_evaluation. Qed.

(** ** Concrete runs of the strict evaluator *)

(** C6 (amended): for [PORTA = 0xFQ;] the tokenizer ends the literal at
    [F] (number 15) and reads [Q] as an identifier.  The statement
    [PORTA = 0xF] is committed with [PORTA = 15]; the next statement
    starts at [Q], finds [;] where an assignment operator must be, and
    the evaluation fails with that error, keeping [PORTA = 15]. *)
Theorem C6_invalid_hex_digit :
  tokenize "PORTA = 0xFQ;" =
    [ tok IDENTIFIER "PORTA"; tok ASSIGN "="; numTok "0xF" 15;
      tok IDENTIFIER "Q"; tok SEMICOLON ";"; eofToken ] /\
  exists r,
    evaluate "PORTA = 0xFQ;" ∅ = Some r /\
    success r = false /\
    error r = Some "Expected assignment operator but got ';'" /\
    registerStates r = {[ "PORTA" := 15 ]} /\
    steps r = [ {| stepRegister := "PORTA"; stepOp := "=";
                   exprValue := VNum 15; before := VNum 0; after := 15 |} ].
Proof.
  split; [vm_compute; reflexivity|].
  eexists. split; [vm_compute; reflexivity|].
  by_evaluation.
Qed.

(** C6, as stated, fails: the evaluation of [PORTA = 0xFQ;] does not
    succeed. *)
Lemma C6_evaluation_does_not_succeed :
  success <$> evaluate "PORTA = 0xFQ;" ∅ <> Some true.
Proof. vm_compute. discriminate. Qed.

(** C3, as stated, fails at a shift count of 32: [X = 1 << 32;] leaves
    [X = 1], not [(1 * 2^32) mod 256 = 0], and [X = 255 >> 32;] leaves
    [X = 255], not [255 / 2^32 = 0]. *)
Lemma C3_shift_count_wraps_at_32 :
  finalOf (evaluate "X = 1 << 32;" ∅) "X" = Some 1 /\
  (1 * 2 ^ 32) mod 256 = 0 /\
  finalOf (evaluate "X = 255 >> 32;" ∅) "X" = Some 255 /\
  (255 / 2 ^ 32) mod 256 = 0.
Proof. by_evaluation. Qed.

(** C5 (fails on the code): every initial value lies in [0,255] (there
    is none), yet the step of [X = toString;] records as [exprValue] the
    function that the symbol table object inherits under that name, and
    the step of [toString |= 1;] records as [before] the function that
    the state object inherits: neither is a number in [0,255]. *)
Theorem C5_inherited_member_in_steps :
  (steps <$> evaluate "X = toString;" ∅) =
    Some [ {| stepRegister := "X"; stepOp := "=";
              exprValue := VProto "toString"; before := VNum 0;
              after := 0 |} ] /\
  (steps <$> evaluate "toString |= 1;" ∅) =
    Some [ {| stepRegister := "toString"; stepOp := "|=";
              exprValue := VNum 1; before := VProto "toString";
              after := 1 |} ].
Proof. by_evaluation. Qed.

(** C10 (fails on the code): the target [FOO], unknown to the symbol
    table, is assigned, but for the target [__proto__] the evaluation of
    [__proto__ = 1;] succeeds and leaves the state without that entry:
    reading [registerStates["__proto__"]] gives the inherited prototype
    object, not 1. *)
Theorem C10_target_proto_not_stored :
  (exists r, evaluate "FOO = 1;" ∅ = Some r /\ success r = true /\
             getProperty (registerStates r) "FOO" = VNum 1) /\
  (exists r, evaluate "__proto__ = 1;" ∅ = Some r /\ success r = true /\
             registerStates r = ∅ /\
             getProperty (registerStates r) "__proto__" = VProto "__proto__").
Proof.
  split; eexists; (split; [vm_compute; reflexivity|]); by_evaluation.
Qed.

(** ** Result preview of the analyzer *)

(** C7, as stated, fails: for the input [PORTA] the operand is null
    and the preview is the initial value. *)
Lemma C7_register_alone_previews_initial :
  exists bd,
    parseExpression 0 "PORTA" "PORTA" 5 = Some bd /\
    operandValue bd = None /\ resultPreview bd = Some 5.
Proof. eexists. split; [vm_compute; reflexivity|]. by_evaluation. Qed.

Lemma allChars_takeWhile p s : allChars p (Str.takeWhile p s) = true.
Proof.
  induction s as [|c s IH]; simpl; [reflexivity|].
  destruct (p c) eqn:E; simpl; [rewrite E; exact IH | reflexivity].
Qed.

Lemma takeWhile_allChars p s : allChars p s = true -> Str.takeWhile p s = s.
Proof.
  induction s as [|c s IH]; simpl; [reflexivity|].
  intros H. apply andb_true_iff in H as [-> H]. f_equal. auto.
Qed.

Lemma drop_whole s : Str.drop (String.length s) s = "".
Proof. induction s; simpl; auto. Qed.

Lemma matchRegister_registerOnly s r :
  matchRegister s = Some r -> registerOnly r = true.
Proof.
  destruct s as [|c s]; [discriminate|]. simpl.
  destruct (isUpper c) eqn:E; [|discriminate]. intros [= <-].
  simpl. rewrite E. apply allChars_takeWhile.
Qed.

Lemma registerOnly_matchRegister s :
  registerOnly s = true -> matchRegister s = Some s.
Proof.
  destruct s as [|c s]; [discriminate|]. simpl.
  intros H. apply andb_true_iff in H as [-> H].
  rewrite takeWhile_allChars by exact H. reflexivity.
Qed.

(** C7 (amended): when the trimmed input is anything but a register
    name alone, a breakdown with a null operand has a null result
    preview.  When the trimmed input is a register name and nothing
    else, the analyzer returns a breakdown with a null operand, no
    operator, that name as the register, and the initial value as the
    result preview. *)
Theorem C7_preview_absent_without_operand fuel input reg iv :
  (forall bd,
     parseExpression fuel input reg iv = Some bd ->
     operandValue bd = None ->
     registerOnly (Str.trim input) = false ->
     resultPreview bd = None) /\
  (registerOnly (Str.trim input) = true ->
   exists bd,
     parseExpression fuel input reg iv = Some bd /\
     operandValue bd = None /\
     operator bd = None /\
     registerName bd = Some (Str.trim input) /\
     resultPreview bd = Some iv).
Proof.
  unfold parseExpression. cbv zeta. split.
  - intros bd H Hop Hreg.
    destruct (Str.isEmpty (Str.trim input)); [simplify_eq; auto|].
    destruct (matchRegister (Str.trim input)) as [r|] eqn:Hr.
    2:{ simplify_eq; auto. }
    destruct (Str.isEmpty (Str.trim (Str.drop _ _))) eqn:He.
    + exfalso.
      assert (r = Str.trim input) as ->
        by (apply matchRegister_all;
            auto using trim_noTrailingSpace, isEmpty_true).
      apply matchRegister_registerOnly in Hr. congruence.
    + destruct (matchOperator _) as [o|].
      2:{ simplify_eq; auto. }
      destruct (Str.isEmpty (Str.trim (Str.drop (String.length o) _)));
        [simplify_eq; auto|].
      destruct (buildRhsParts _ _); [|simpl in H; discriminate].
      simpl in H. simplify_eq. simpl in *. rewrite Hop. auto.
  - intros Hreg.
    rewrite (registerOnly_matchRegister _ Hreg), drop_whole.
    destruct (Str.trim input); [discriminate|].
    simpl. eexists. split; [reflexivity|]. simpl. auto.
Qed.

Lemma C7_preview_witness :
  (exists bd,
     parseExpression 5 "PORTB |= (1<<" "PORTB" 7 = Some bd /\
     operandValue bd = None /\ resultPreview bd = None) /\
  (exists bd,
     parseExpression 5 " PORTB " "PORTB" 7 = Some bd /\
     operandValue bd = None /\ operator bd = None /\
     registerName bd = Some "PORTB" /\ resultPreview bd = Some 7).
Proof.
  split.
  - eexists. split; [vm_compute; reflexivity|]. split; [reflexivity|].
    apply (proj1 (C7_preview_absent_without_operand
                    5 "PORTB |= (1<<" "PORTB" 7));
      vm_compute; reflexivity.
  - apply (proj2 (C7_preview_absent_without_operand 5 " PORTB " "PORTB" 7)).
    reflexivity.
Defined.

(** ** Shifts *)

Lemma tokenize_shiftStatement X o ty a k :
  (o = "<<" /\ ty = LSHIFT) \/ (o = ">>" /\ ty = RSHIFT) ->
  isIdentifier X = true -> isByte a -> isByte k ->
  tokenize (shiftStatement X o a k) =
  [ tok IDENTIFIER X; tok ASSIGN "="; numTok (numberToString a) a;
    tok ty o; numTok (numberToString k) k; tok SEMICOLON ";"; eofToken ].
Proof.
  intros Ho HX Ha Hk.
  destruct (numberToString_byte a Ha) as [HAd HAv].
  destruct (numberToString_byte k Hk) as [HKd HKv].
  unfold tokenize, shiftStatement.
  rewrite trim_identifier_first; [|assumption|].
  2:{ no_trailing_space. }
  rewrite tokenizeFrom_identifier by (assumption || reflexivity).
  change (tokenizeFrom (" = " ++ ?s) 0)
    with (tok ASSIGN "=" :: tokenizeFrom s 0).
  rewrite tokenizeFrom_decimal by (assumption || reflexivity).
  rewrite HAv.
  destruct Ho as [[-> ->]|[-> ->]].
  - change (tokenizeFrom (" " ++ "<<" ++ " " ++ ?s) 0)
      with (tok LSHIFT "<<" :: tokenizeFrom s 0).
    rewrite tokenizeFrom_decimal by (assumption || reflexivity).
    rewrite HKv. reflexivity.
  - change (tokenizeFrom (" " ++ ">>" ++ " " ++ ?s) 0)
      with (tok RSHIFT ">>" :: tokenizeFrom s 0).
    rewrite tokenizeFrom_decimal by (assumption || reflexivity).
    rewrite HKv. reflexivity.
Qed.

Lemma parse_shift_left X A a K k :
  parseStatement
    [ tok IDENTIFIER X; tok ASSIGN "="; numTok A a; tok LSHIFT "<<";
      numTok K k; tok SEMICOLON ";"; eofToken ] =
  Some (Ok (Some {| register := X;
                    stmtValue := byte (JS.shl (VNum a) (VNum k));
                    op := "=" |}, [eofToken])).
Proof. reflexivity. Qed.

Lemma parse_shift_right X A a K k :
  parseStatement
    [ tok IDENTIFIER X; tok ASSIGN "="; numTok A a; tok RSHIFT ">>";
      numTok K k; tok SEMICOLON ";"; eofToken ] =
  Some (Ok (Some {| register := X;
                    stmtValue := byte (JS.shr (VNum a) (VNum k));
                    op := "=" |}, [eofToken])).
Proof. reflexivity. Qed.

(** C3 (amended): for every register identifier [X] other than
    [__proto__], all bytes [a] and [k] and every initial state,
    [X = a << k;] succeeds and leaves [X] equal to
    [(a * 2^(k mod 32)) mod 256], and [X = a >> k;] leaves [X] equal to
    [(a / 2^(k mod 32)) mod 256]: the shift count is taken modulo 32.
    Up to [k = 31] these are [(a * 2^k) mod 256] (0 from [k = 8] on) and
    [(a / 2^k) mod 256]. *)
Theorem C3_shift_truncates_count_mod_32 X a k st :
  isIdentifier X = true -> X <> "__proto__" -> isByte a -> isByte k ->
  let l := evaluate (shiftStatement X "<<" a k) st in
  let r := evaluate (shiftStatement X ">>" a k) st in
  success <$> l = Some true /\
  finalOf l X = Some ((a * 2 ^ (k mod 32)) mod 256) /\
  success <$> r = Some true /\
  finalOf r X = Some ((a / 2 ^ (k mod 32)) mod 256) /\
  (k <= 31 ->
   finalOf l X = Some ((a * 2 ^ k) mod 256) /\
   finalOf r X = Some ((a / 2 ^ k) mod 256) /\
   (8 <= k -> finalOf l X = Some 0)).
Proof.
  intros HX Hproto Ha Hk l r.
  assert (Hl : l = Some (succeeded
             (setProperty st X ((a * 2 ^ (k mod 32)) mod 256))
             [ {| stepRegister := X; stepOp := "=";
                  exprValue := byte (JS.shl (VNum a) (VNum k));
                  before := JS.nullish (getProperty st X) (VNum 0);
                  after := (a * 2 ^ (k mod 32)) mod 256 |} ])).
  { subst l. rewrite evaluate_unfold, maxStatements_S.
    rewrite (tokenize_shiftStatement X "<<" LSHIFT) by auto.
    erewrite evalLoop_commit; [|apply parse_shift_left|reflexivity].
    rewrite evalLoop_eof. simpl register. simpl stmtValue. simpl op.
    rewrite byteOf_byte, shl_byte by assumption. reflexivity. }
  assert (Hr : r = Some (succeeded
             (setProperty st X ((a / 2 ^ (k mod 32)) mod 256))
             [ {| stepRegister := X; stepOp := "=";
                  exprValue := byte (JS.shr (VNum a) (VNum k));
                  before := JS.nullish (getProperty st X) (VNum 0);
                  after := (a / 2 ^ (k mod 32)) mod 256 |} ])).
  { subst r. rewrite evaluate_unfold, maxStatements_S.
    rewrite (tokenize_shiftStatement X ">>" RSHIFT) by auto.
    erewrite evalLoop_commit; [|apply parse_shift_right|reflexivity].
    rewrite evalLoop_eof. simpl register. simpl stmtValue. simpl op.
    rewrite byteOf_byte, shr_byte by assumption. reflexivity. }
  assert (Fl : finalOf l X = Some ((a * 2 ^ (k mod 32)) mod 256)).
  { rewrite Hl. apply setProperty_lookup. auto. }
  assert (Fr : finalOf r X = Some ((a / 2 ^ (k mod 32)) mod 256)).
  { rewrite Hr. apply setProperty_lookup. auto. }
  split; [rewrite Hl; reflexivity|]. split; [exact Fl|].
  split; [rewrite Hr; reflexivity|]. split; [exact Fr|].
  intros Hk31. destruct Hk as [Hk0 _].
  rewrite Fl, Fr, (Z.mod_small k 32) by lia.
  split; [reflexivity|]. split; [reflexivity|].
  intros Hk8. f_equal.
  replace k with (8 + (k - 8)) by lia.
  rewrite Z.pow_add_r by lia. change (2 ^ 8) with 256.
  rewrite Z.mul_assoc, (Z.mul_comm a 256), <- Z.mul_assoc, Z.mul_comm.
  apply Z.mod_mul. lia.
Qed.

Lemma C3_shift_witness :
  finalOf (evaluate (shiftStatement "PORTA" "<<" 3 33) ∅) "PORTA" = Some 6 /\
  finalOf (evaluate (shiftStatement "PORTA" ">>" 255 2) ∅) "PORTA" = Some 63.
Proof.
  pose proof (C3_shift_truncates_count_mod_32 "PORTA" 3 33 ∅
                eq_refl ltac:(discriminate) ltac:(unfold isByte; lia)
                ltac:(unfold isByte; lia)) as (_ & H & _).
  pose proof (C3_shift_truncates_count_mod_32 "PORTA" 255 2 ∅
                eq_refl ltac:(discriminate) ltac:(unfold isByte; lia)
                ltac:(unfold isByte; lia)) as (_ & _ & _ & H' & _).
  split; [exact H | exact H'].
Defined.

(** ** Setting and toggling a bit twice *)

Lemma tokenize_bit_prefix_or s :
  tokenizeFrom (" " ++ "|=" ++ " (1<<" ++ s) 0 =
  tok OR_ASSIGN "|=" :: tok LPAREN "(" :: numTok "1" 1 :: tok LSHIFT "<<"
  :: tokenizeFrom s 0.
Proof. reflexivity. Qed.

Lemma tokenize_bit_prefix_xor s :
  tokenizeFrom (" " ++ "^=" ++ " (1<<" ++ s) 0 =
  tok XOR_ASSIGN "^=" :: tok LPAREN "(" :: numTok "1" 1 :: tok LSHIFT "<<"
  :: tokenizeFrom s 0.
Proof. reflexivity. Qed.

Lemma tokenize_bit_close s :
  tokenizeFrom (");" ++ " " ++ s) 0 =
  tok RPAREN ")" :: tok SEMICOLON ";" :: tokenizeFrom s 0.
Proof. reflexivity. Qed.

Lemma tokenizeFrom_bitStatement X o ty k :
  (o = "|=" /\ ty = OR_ASSIGN) \/ (o = "^=" /\ ty = XOR_ASSIGN) ->
  isIdentifier X = true -> isByte k ->
  tokenizeFrom (bitStatement X o k) 0 = bitTokens X ty o k [eofToken] /\
  forall s, tokenizeFrom (bitStatement X o k ++ " " ++ s) 0 =
            bitTokens X ty o k (tokenizeFrom s 0).
Proof.
  intros Ho HX Hk.
  destruct (numberToString_byte k Hk) as [HKd HKv].
  unfold bitStatement, bitTokens. split; [|intros s; rewrite !append_assoc];
    rewrite tokenizeFrom_identifier by (assumption || reflexivity);
    destruct Ho as [[-> ->]|[-> ->]];
    rewrite ?tokenize_bit_prefix_or, ?tokenize_bit_prefix_xor;
    rewrite tokenizeFrom_decimal by (assumption || reflexivity);
    rewrite HKv, ?tokenize_bit_close; reflexivity.
Qed.

Lemma trim_bitStatement X o k :
  isIdentifier X = true ->
  Str.trim (bitStatement X o k) = bitStatement X o k /\
  Str.trim (bitStatement X o k ++ " " ++ bitStatement X o k) =
  bitStatement X o k ++ " " ++ bitStatement X o k.
Proof.
  intros HX. unfold bitStatement. split; rewrite ?append_assoc;
    (apply trim_identifier_first; [assumption|]); no_trailing_space.
Qed.

Lemma parse_bitTokens_last X o ty k :
  (o = "|=" /\ ty = OR_ASSIGN) \/ (o = "^=" /\ ty = XOR_ASSIGN) ->
  parseStatement (bitTokens X ty o k [eofToken]) =
  Some (Ok (Some {| register := X;
                    stmtValue := byte (JS.shl (VNum 1) (VNum k));
                    op := o |}, [eofToken])).
Proof. intros [[-> ->]|[-> ->]]; reflexivity. Qed.

Lemma parse_bitTokens_first X o ty k rest :
  (o = "|=" /\ ty = OR_ASSIGN) \/ (o = "^=" /\ ty = XOR_ASSIGN) ->
  length rest = 9%nat ->
  parseStatement (bitTokens X ty o k rest) =
  Some (Ok (Some {| register := X;
                    stmtValue := byte (JS.shl (VNum 1) (VNum k));
                    op := o |}, rest)).
Proof.
  intros Ho Hlen. unfold parseStatement, fuelFor, bitTokens.
  cbn [length]. rewrite Hlen.
  destruct Ho as [[-> ->]|[-> ->]]; reflexivity.
Qed.

Lemma one_shl_bit k :
  0 <= k <= 7 -> Z.land (JS.shl (VNum 1) (VNum k)) 255 = 2 ^ k.
Proof.
  intros Hk. rewrite shl_byte by (unfold isByte; lia).
  rewrite (Z.mod_small k 32), Z.mul_1_l by lia.
  apply Z.mod_small. split; [apply Z.pow_nonneg; lia|].
  change 256 with (2 ^ 8). apply Z.pow_lt_mono_r; lia.
Qed.

Lemma pow2_bit_byte k : 0 <= k <= 7 -> isByte (2 ^ k).
Proof.
  intros Hk. rewrite <- one_shl_bit by assumption. apply land_255_byte.
Qed.

Section BitTwice.

Variables (X : string) (k : Z).
Hypothesis X_identifier : isIdentifier X = true.
Hypothesis k_index : 0 <= k <= 7.

(** One statement [X o (1<<k);] from a state that holds the byte [v]
    in [X]: the new value is [f v (2^k)]. *)
Lemma evaluate_bit_once o ty f st v :
  (o = "|=" /\ ty = OR_ASSIGN /\ f = Z.lor) \/
  (o = "^=" /\ ty = XOR_ASSIGN /\ f = Z.lxor) ->
  st !! X = Some v -> isByte v ->
  exists steps,
    evaluate (bitStatement X o k) st =
    Some (succeeded (<[X := f v (2 ^ k)]> st) steps).
Proof.
  intros Ho Hst Hv.
  assert (Ho' : (o = "|=" /\ ty = OR_ASSIGN) \/
                (o = "^=" /\ ty = XOR_ASSIGN)) by tauto.
  assert (Hk : isByte k) by (unfold isByte; lia).
  destruct (tokenizeFrom_bitStatement X o ty k Ho' X_identifier Hk)
    as [Htok _].
  assert (Hap : applyOp o (JS.nullish (getProperty st X) (VNum 0))
                  (byte (JS.shl (VNum 1) (VNum k))) = Ok (f v (2 ^ k))).
  { rewrite (getProperty_own _ _ _ Hst). unfold byte.
    rewrite one_shl_bit by assumption.
    destruct Ho as [(-> & _ & ->)|(-> & _ & ->)]; unfold applyOp; simpl;
      [rewrite bitOr_bytes | rewrite bitXor_bytes];
      auto using pow2_bit_byte. }
  eexists. rewrite evaluate_unfold, maxStatements_S. unfold tokenize.
  rewrite (proj1 (trim_bitStatement X o k X_identifier)), Htok.
  erewrite evalLoop_commit; [|apply parse_bitTokens_last, Ho'|exact Hap].
  rewrite evalLoop_eof. simpl register. unfold setProperty.
  rewrite Hst. reflexivity.
Qed.

(** The statement twice in one program. *)
Lemma evaluate_bit_twice o ty f st v :
  (o = "|=" /\ ty = OR_ASSIGN /\ f = Z.lor) \/
  (o = "^=" /\ ty = XOR_ASSIGN /\ f = Z.lxor) ->
  st !! X = Some v -> isByte v ->
  exists steps,
    evaluate (bitStatement X o k ++ " " ++ bitStatement X o k) st =
    Some (succeeded (<[X := f (f v (2 ^ k)) (2 ^ k)]> st) steps).
Proof.
  intros Ho Hst Hv.
  assert (Ho' : (o = "|=" /\ ty = OR_ASSIGN) \/
                (o = "^=" /\ ty = XOR_ASSIGN)) by tauto.
  assert (Hk : isByte k) by (unfold isByte; lia).
  destruct (tokenizeFrom_bitStatement X o ty k Ho' X_identifier Hk)
    as [Htok1 Htok2].
  assert (Hf : isByte (f v (2 ^ k))).
  { destruct Ho as [(_ & _ & ->)|(_ & _ & ->)];
      auto using lor_byte, lxor_byte, pow2_bit_byte. }
  assert (Hap : forall st' w, st' !! X = Some w -> isByte w ->
            applyOp o (JS.nullish (getProperty st' X) (VNum 0))
              (byte (JS.shl (VNum 1) (VNum k))) = Ok (f w (2 ^ k))).
  { intros st' w Hst' Hw. rewrite (getProperty_own _ _ _ Hst'). unfold byte.
    rewrite one_shl_bit by assumption.
    destruct Ho as [(-> & _ & ->)|(-> & _ & ->)]; unfold applyOp; simpl;
      [rewrite bitOr_bytes | rewrite bitXor_bytes];
      auto using pow2_bit_byte. }
  eexists. rewrite evaluate_unfold, maxStatements_S. unfold tokenize.
  rewrite (proj2 (trim_bitStatement X o k X_identifier)), Htok2, Htok1.
  erewrite evalLoop_commit;
    [|apply parse_bitTokens_first; [exact Ho' | reflexivity]
     |exact (Hap st v Hst Hv)].
  simpl register. unfold setProperty at 1. rewrite Hst.
  erewrite evalLoop_commit;
    [|apply parse_bitTokens_last, Ho'
     |apply Hap; [apply lookup_insert_eq | exact Hf]].
  rewrite evalLoop_eof. simpl register. unfold setProperty.
  rewrite lookup_insert_eq, insert_insert_eq. reflexivity.
Qed.

End BitTwice.

(** C9: for every bit index [k] in [0,7], every register identifier [X]
    and every byte [v], from the state [X = v]: the program
    [X |= (1<<k); X |= (1<<k);] leaves the same [X] as [X |= (1<<k);]
    alone, namely [v | 2^k], and so does evaluating the statement again
    from the state that the first evaluation returned; the program
    [X ^= (1<<k); X ^= (1<<k);] leaves [X = v], and so does evaluating
    [X ^= (1<<k);] again from the state after the first evaluation. *)
Theorem C9_or_idempotent_xor_self_inverse X k v :
  isIdentifier X = true -> 0 <= k <= 7 -> isByte v ->
  let st : gmap string Z := {[ X := v ]} in
  let or1 := bitStatement X "|=" k in
  let xor1 := bitStatement X "^=" k in
  finalOf (evaluate or1 st) X = Some (Z.lor v (2 ^ k)) /\
  finalOf (evaluate (or1 ++ " " ++ or1) st) X = finalOf (evaluate or1 st) X /\
  (exists r1, evaluate or1 st = Some r1 /\ success r1 = true /\
     finalOf (evaluate or1 (registerStates r1)) X = finalOf (Some r1) X) /\
  finalOf (evaluate (xor1 ++ " " ++ xor1) st) X = Some v /\
  (exists r1, evaluate xor1 st = Some r1 /\ success r1 = true /\
     finalOf (evaluate xor1 (registerStates r1)) X = Some v).
Proof.
  intros HX Hk Hv st or1 xor1.
  assert (Hst : st !! X = Some v) by apply lookup_singleton_eq.
  assert (Hb : isByte (2 ^ k)) by auto using pow2_bit_byte.
  assert (Hor : Z.lor (Z.lor v (2 ^ k)) (2 ^ k) = Z.lor v (2 ^ k)).
  { rewrite <- Z.lor_assoc, Z.lor_diag. reflexivity. }
  assert (Hxor : Z.lxor (Z.lxor v (2 ^ k)) (2 ^ k) = v).
  { rewrite Z.lxor_assoc, Z.lxor_nilpotent, Z.lxor_0_r. reflexivity. }
  destruct (evaluate_bit_once X k HX Hk "|=" OR_ASSIGN Z.lor st v
              ltac:(tauto) Hst Hv) as [s1 E1].
  destruct (evaluate_bit_twice X k HX Hk "|=" OR_ASSIGN Z.lor st v
              ltac:(tauto) Hst Hv) as [s2 E2].
  destruct (evaluate_bit_once X k HX Hk "^=" XOR_ASSIGN Z.lxor st v
              ltac:(tauto) Hst Hv) as [s3 E3].
  destruct (evaluate_bit_twice X k HX Hk "^=" XOR_ASSIGN Z.lxor st v
              ltac:(tauto) Hst Hv) as [s4 E4].
  destruct (evaluate_bit_once X k HX Hk "|=" OR_ASSIGN Z.lor
              (<[X := Z.lor v (2 ^ k)]> st) (Z.lor v (2 ^ k))
              ltac:(tauto) (lookup_insert_eq _ _ _)
              (lor_byte _ _ Hv Hb)) as [s5 E5].
  destruct (evaluate_bit_once X k HX Hk "^=" XOR_ASSIGN Z.lxor
              (<[X := Z.lxor v (2 ^ k)]> st) (Z.lxor v (2 ^ k))
              ltac:(tauto) (lookup_insert_eq _ _ _)
              (lxor_byte _ _ Hv Hb)) as [s6 E6].
  fold or1 in E1, E2. fold xor1 in E3, E4.
  rewrite E1, E2, E4. unfold finalOf. simpl.
  rewrite !lookup_insert_eq, Hor, Hxor.
  split; [reflexivity|]. split; [reflexivity|].
  split.
  { eexists. split; [reflexivity|]. split; [reflexivity|].
    simpl. fold or1 in E5. rewrite E5. simpl.
    rewrite !lookup_insert_eq, Hor. reflexivity. }
  split; [reflexivity|].
  eexists. split; [exact E3|]. split; [reflexivity|].
  simpl. fold xor1 in E6. rewrite E6. simpl.
  rewrite lookup_insert_eq, Hxor. reflexivity.
Qed.

Lemma C9_bit_twice_witness :
  finalOf (evaluate "PORTD |= (1<<5); PORTD |= (1<<5);" {[ "PORTD" := 3 ]})
          "PORTD" = Some 35 /\
  finalOf (evaluate "PORTD ^= (1<<5); PORTD ^= (1<<5);" {[ "PORTD" := 35 ]})
          "PORTD" = Some 35.
Proof.
  pose proof (C9_or_idempotent_xor_self_inverse "PORTD" 5 3 eq_refl
                ltac:(lia) ltac:(unfold isByte; lia)) as (H1 & H2 & _).
  pose proof (C9_or_idempotent_xor_self_inverse "PORTD" 5 35 eq_refl
                ltac:(lia) ltac:(unfold isByte; lia)) as (_ & _ & _ & H4 & _).
  split; [|exact H4].
  etransitivity; [exact H2 | exact H1].
Defined.

(** ** Failed evaluations *)

(** C4 (fails on the code): the evaluation of [__proto__ = 1; X = FOO;]
    fails at the unknown identifier [FOO] with [success = false] and a
    message, after the one committed step, which assigns 1 to
    [__proto__]; yet the returned register states are empty: they are
    not the initial states updated by the statement listed in the
    steps. *)
Theorem C4_committed_proto_step_not_in_states :
  exists r,
    evaluate "__proto__ = 1; X = FOO;" ∅ = Some r /\
    success r = false /\
    error r = Some "Unknown identifier: FOO" /\
    steps r = [ {| stepRegister := "__proto__"; stepOp := "=";
                   exprValue := VNum 1; before := VProto "__proto__";
                   after := 1 |} ] /\
    registerStates r = ∅ /\
    updated ∅ (steps r) = {[ "__proto__" := 1 ]} /\
    registerStates r <> updated ∅ (steps r).
Proof.
  eexists. split; [vm_compute; reflexivity|].
  split; [reflexivity|]. split; [reflexivity|]. split; [reflexivity|].
  split; [reflexivity|]. split; [reflexivity|].
  intros H. apply (f_equal (fun m => m !! "__proto__")) in H.
  vm_compute in H. discriminate.
Qed.

(** ** The answer checker *)

(** C8: [checkAnswer] returns, for every input, what the evaluation of
    the user's code from the single entry [targetRegister ->
    initialValue] determines: [correct] holds exactly when that
    evaluation succeeds and leaves [expectedValue] in [targetRegister];
    when the evaluation fails, [correct] is false, the observed result
    is null and the error is the evaluator's. *)
Theorem C8_checkAnswer_compares_final_value userCode targetRegister
    initialValue expectedValue :
  exists r c,
    evaluate userCode {[ targetRegister := initialValue ]} = Some r /\
    checkAnswer userCode targetRegister initialValue expectedValue = Some c /\
    expected c = expectedValue /\
    checkSteps c = steps r /\
    (correct c = true <->
     success r = true /\
     registerStates r !! targetRegister = Some expectedValue) /\
    (success r = true ->
     exists n, registerStates r !! targetRegister = Some n /\
               userResult c = Some (VNum n)) /\
    (success r = false ->
     correct c = false /\ userResult c = None /\ checkError c = error r).
Proof.
  destruct (evaluate_total userCode {[ targetRegister := initialValue ]})
    as [r Hr].
  pose proof Hr as Hown. rewrite evaluate_unfold in Hown.
  apply (evalLoop_keeps_own _ _ _ _ _ targetRegister) in Hown;
    [|rewrite lookup_singleton_eq; eauto].
  destruct Hown as [n Hn].
  exists r. eexists. split; [exact Hr|].
  unfold checkAnswer. rewrite Hr. simpl.
  split; [reflexivity|].
  destruct (success r) eqn:Hs; simpl.
  - rewrite (getProperty_own _ _ _ Hn). simpl.
    split; [reflexivity|]. split; [reflexivity|]. split; [|split].
    + rewrite Hn. split.
      * intros E. apply Z.eqb_eq in E. subst n. auto.
      * intros [_ E]. injection E as ->. apply Z.eqb_refl.
    + intros _. eauto.
    + discriminate.
  - split; [reflexivity|]. split; [reflexivity|]. split; [|split].
    + split; [discriminate | intros [? _]; discriminate].
    + discriminate.
    + auto.
Qed.

Example checkAnswer_runs :
  (correct <$> checkAnswer "PORTA |= (1<<3);" "PORTA" 1 9) = Some true /\
  (correct <$> checkAnswer "PORTA |= (1<<3);" "PORTA" 1 8) = Some false /\
  (checkError <$> checkAnswer "PORTA |= (1<<3" "PORTA" 1 9) =
    Some (Some "Expected RPAREN but got EOF ('')").
Proof. by_evaluation. Qed.

(** * Further properties of the evaluator *)

(** ** Shape of the token sequence *)

Lemma twoCharOp_not_EOF c d t : twoCharOp c d = Some t -> type t <> EOF.
Proof.
  unfold twoCharOp. intros H.
  repeat (destruct (_ && _) in H; [injection H as <-; discriminate|]).
  discriminate.
Qed.

Lemma oneCharOp_not_EOF c t : oneCharOp c = Some t -> type t <> EOF.
Proof.
  unfold oneCharOp. intros H.
  repeat (destruct (Ascii.eqb c _) in H; [injection H as <-; discriminate|]).
  discriminate.
Qed.

Lemma lexNumber_type c rest : type (fst (lexNumber c rest)) = NUMBER.
Proof.
  unfold lexNumber.
  destruct rest as [|x r]; [|destruct (_ && _); [|destruct (_ && _)]];
    reflexivity.
Qed.

Lemma tokenAt_not_EOF c rest t n :
  tokenAt c rest = (Some t, n) -> type t <> EOF.
Proof.
  unfold tokenAt. intros H.
  destruct (isSpace c); [discriminate|].
  destruct (Ascii.eqb c ";"); [injection H as <- _; discriminate|].
  destruct (match rest with String d _ => twoCharOp c d | EmptyString => None end)
    as [t2|] eqn:E2.
  { injection H as <- _. destruct rest; [discriminate|].
    eapply twoCharOp_not_EOF, E2. }
  destruct (oneCharOp c) as [t1|] eqn:E1.
  { injection H as <- _. eapply oneCharOp_not_EOF, E1. }
  destruct (isDigit c).
  { pose proof (lexNumber_type c rest) as Hg.
    destruct (lexNumber c rest) as [t' n']. injection H as <- _.
    simpl in Hg. rewrite Hg. discriminate. }
  destruct (isIdentStart c); [injection H as <- _|]; discriminate.
Qed.

Lemma tokenizeFrom_ends_with_EOF s skip :
  exists ts, tokenizeFrom s skip = (ts ++ [eofToken])%list /\
             Forall (fun t => type t <> EOF) ts.
Proof.
  revert skip. induction s as [|c rest IH]; intros skip; simpl.
  { exists []. split; [reflexivity | constructor]. }
  destruct skip; [|apply IH].
  destruct (tokenAt c rest) as [[t|] n] eqn:E; [|apply IH].
  destruct (IH n) as (ts & -> & Hts).
  exists (t :: ts). split; [reflexivity|].
  constructor; [eapply tokenAt_not_EOF, E | exact Hts].
Qed.

(** The token sequence of every input ends with the one [EOF] token it
    holds, and each of its number tokens carries a value in [0,255]. *)
Theorem tokenize_shape input :
  exists ts,
    tokenize input = (ts ++ [eofToken])%list /\
    Forall (fun t => type t <> EOF) ts /\
    Forall (fun t => type t = NUMBER ->
                     exists n, numValue t = Some n /\ 0 <= n <= 255) ts.
Proof.
  destruct (tokenizeFrom_ends_with_EOF (Str.trim input) 0) as (ts & E & H).
  exists ts. split; [exact E|]. split; [exact H|].
  pose proof (tokenize_good input) as Hg. unfold tokenize in Hg.
  rewrite E in Hg. apply Forall_app in Hg. exact (proj1 Hg).
Qed.

(** ** Bounds and frame of an evaluation *)

Lemma evalLoop_steps_bound n ts st acc r :
  evalLoop n ts st acc = Some r ->
  (length (steps r) <= length acc + n)%nat.
Proof.
  revert ts st acc. induction n as [|n IH]; intros ts st acc H.
  { simpl in H. injection H as <-. simpl. lia. }
  rewrite evalLoop_S in H.
  destruct (parseStatement ts) as [[[[stmt|] ts']|msg]|];
    [| | |discriminate].
  - cbv zeta in H. destruct (applyOp _ _ _) as [after|msg].
    + apply IH in H. rewrite length_app in H. simpl in H. lia.
    + injection H as <-. simpl. lia.
  - destruct (atEOF ts').
    + injection H as <-. simpl. lia.
    + apply IH in H. lia.
  - injection H as <-. simpl. lia.
Qed.

(** One call of [evaluate] commits at most 100 statements, whatever the
    length of the code. *)
Theorem evaluate_at_most_100_steps code init r :
  evaluate code init = Some r -> (length (steps r) <= 100)%nat.
Proof.
  intros H. rewrite evaluate_unfold in H.
  apply evalLoop_steps_bound in H. exact H.
Qed.

Lemma evaluate_at_most_100_steps_witness :
  exists r,
    evaluate "PORTA = 1; PORTA |= 2;" ∅ = Some r /\
    (length (steps r) <= 100)%nat.
Proof.
  eexists. split; [vm_compute; reflexivity|].
  apply (evaluate_at_most_100_steps "PORTA = 1; PORTA |= 2;" ∅).
  vm_compute; reflexivity.
Defined.

Lemma setProperty_lookup_ne st k n j :
  k <> j -> setProperty st k n !! j = st !! j.
Proof.
  unfold setProperty. intros H.
  destruct (st !! k); [|destruct (String.eqb k "__proto__"); [reflexivity|]];
    apply lookup_insert_ne, H.
Qed.

Lemma replay_frame init steps k :
  ~ In k (stepRegisters steps) -> replay init steps !! k = init !! k.
Proof.
  revert init. induction steps as [|s steps IH]; intros init H;
    [reflexivity|].
  simpl in *. rewrite IH by tauto.
  apply setProperty_lookup_ne. tauto.
Qed.

Lemma setProperty_insert st k n :
  k <> "__proto__" -> setProperty st k n = <[k := n]> st.
Proof.
  intros H. unfold setProperty.
  destruct (st !! k); [reflexivity|].
  destruct (String.eqb_spec k "__proto__"); [contradiction|reflexivity].
Qed.

Lemma nullish_getProperty st k :
  JS.nullish (getProperty st k) (VNum 0) = startValue st k.
Proof.
  unfold getProperty, startValue.
  destruct (st !! k); [reflexivity|]. destruct (inherited k); reflexivity.
Qed.

Lemma replay_updated steps : forall init,
  ~ In "__proto__" (stepRegisters steps) ->
  replay init steps = updated init steps.
Proof.
  induction steps as [|s steps IH]; intros init H; [reflexivity|].
  simpl in H. unfold replay, updated. cbn [foldl].
  unfold commit at 2. rewrite setProperty_insert by tauto.
  apply IH. tauto.
Qed.

Lemma consistent_follows steps : forall init,
  ~ In "__proto__" (stepRegisters steps) ->
  consistent init steps -> follows init steps.
Proof.
  induction steps as [|s steps IH]; intros init H Hc; [exact I|].
  simpl in H. destruct Hc as (Hb & Ha & Hc).
  cbn [follows]. split; [rewrite <- nullish_getProperty; exact Hb|].
  split; [exact Ha|].
  apply IH; [tauto|].
  unfold commit in Hc. rewrite setProperty_insert in Hc by tauto. exact Hc.
Qed.

(** Whether it succeeds or fails, an evaluation whose steps do not
    assign [__proto__] returns the initial states updated by its
    recorded steps, in order, and by nothing else.  Each step starts
    from the value that the steps before it left for its register
    (without one: the member that every object inherits under that
    name, if any, and 0 otherwise) and records the value of its
    operator.  A register that no step names keeps the value, or the
    absence, it had in the initial states. *)
Theorem evaluate_changes_only_step_registers code init r :
  evaluate code init = Some r ->
  ~ In "__proto__" (stepRegisters (steps r)) ->
  registerStates r = updated init (steps r) /\
  follows init (steps r) /\
  forall k, ~ In k (stepRegisters (steps r)) ->
            registerStates r !! k = init !! k.
Proof.
  intros H Hp. rewrite evaluate_unfold in H.
  destruct (evalLoop_replay _ _ _ _ H) as (Hst & Hc & _).
  split; [rewrite Hst; apply replay_updated, Hp|].
  split; [apply consistent_follows; assumption|].
  intros k Hk. rewrite Hst. apply replay_frame, Hk.
Qed.

Lemma evaluate_changes_only_step_registers_witness :
  exists r,
    evaluate "PORTA |= 3; PORTC = FOO; PORTB = 1;"
             {[ "PORTA" := 4; "PORTB" := 7 ]} = Some r /\
    success r = false /\
    registerStates r = {[ "PORTA" := 7; "PORTB" := 7 ]} /\
    registerStates r = updated {[ "PORTA" := 4; "PORTB" := 7 ]} (steps r) /\
    registerStates r !! "PORTC" = None.
Proof.
  eexists. split; [vm_compute; reflexivity|].
  split; [reflexivity|]. split; [vm_compute; reflexivity|].
  match goal with
  | |- context [registerStates ?r] =>
      assert (E : evaluate "PORTA |= 3; PORTC = FOO; PORTB = 1;"
                    {[ "PORTA" := 4; "PORTB" := 7 ]} = Some r)
        by (vm_compute; reflexivity);
      assert (Hp : ~ In "__proto__" (stepRegisters (steps r)))
        by (vm_compute; intros [?|[]]; discriminate)
  end.
  destruct (evaluate_changes_only_step_registers _ _ _ E Hp) as (H1 & _ & H).
  split; [exact H1|].
  etransitivity; [apply H|vm_compute; reflexivity].
  vm_compute; intros [?|[]]; discriminate.
Defined.

(** ** Code without statements *)

Lemma allChars_dropWhile p q s :
  allChars p s = true -> allChars p (Str.dropWhile q s) = true.
Proof.
  induction s as [|c s IH]; [reflexivity|]. simpl. intros H.
  destruct (q c); [|exact H].
  apply andb_prop in H. apply IH, H.
Qed.

Lemma allChars_trimEnd p s :
  allChars p s = true -> allChars p (Str.trimEnd s) = true.
Proof.
  induction s as [|c s IH]; [reflexivity|]. simpl. intros H.
  apply andb_prop in H. destruct H as [Hc Hs].
  destruct (Str.trimEnd s) eqn:E.
  - destruct (isSpace c); [reflexivity|]. simpl. rewrite Hc. reflexivity.
  - simpl. rewrite Hc. exact (IH Hs).
Qed.

Lemma allChars_trim p s : allChars p s = true -> allChars p (Str.trim s) = true.
Proof. intros H. apply allChars_trimEnd, allChars_dropWhile, H. Qed.

Lemma tokenAt_blank c rest :
  isBlank c = true ->
  tokenAt c rest = (None, 0%nat) \/
  tokenAt c rest = (Some (tok SEMICOLON ";"), 0%nat).
Proof.
  unfold isBlank, tokenAt. intros H.
  destruct (isSpace c); [left; reflexivity|].
  simpl in H. rewrite H. right. reflexivity.
Qed.

Lemma tokenizeFrom_blank s :
  allChars isBlank s = true ->
  exists semis,
    tokenizeFrom s 0 = (semis ++ [eofToken])%list /\
    Forall (fun t => t = tok SEMICOLON ";") semis.
Proof.
  induction s as [|c s IH]; intros H.
  { exists []. split; [reflexivity | constructor]. }
  simpl in H. apply andb_prop in H. destruct H as [Hc Hs].
  destruct (IH Hs) as (semis & E & Hsemis). simpl.
  destruct (tokenAt_blank c s Hc) as [-> | ->]; rewrite E.
  - exists semis. auto.
  - exists (tok SEMICOLON ";" :: semis). split; [reflexivity|].
    constructor; auto.
Qed.

Lemma parseStatement_semicolon ts :
  parseStatement (tok SEMICOLON ";" :: ts) = Some (Ok (None, ts)).
Proof. reflexivity. Qed.

Lemma evalLoop_semicolons n semis st acc :
  Forall (fun t => t = tok SEMICOLON ";") semis ->
  evalLoop n (semis ++ [eofToken]) st acc = Some (succeeded st acc).
Proof.
  intros H. revert n. induction H as [|t semis -> _ IH]; intros n.
  { destruct n; reflexivity. }
  destruct n; [reflexivity|].
  change ((tok SEMICOLON ";" :: semis) ++ [eofToken])%list
    with (tok SEMICOLON ";" :: (semis ++ [eofToken]))%list.
  rewrite evalLoop_S, parseStatement_semicolon.
  destruct (atEOF _); [reflexivity | apply IH].
Qed.

(** Code that holds only white space and semicolons, the empty code
    included, evaluates with success to the unchanged initial states and
    no step, however many semicolons there are. *)
Theorem evaluate_blank_code code init :
  allChars isBlank code = true ->
  evaluate code init = Some (succeeded init []).
Proof.
  intros H. rewrite evaluate_unfold. unfold tokenize.
  destruct (tokenizeFrom_blank _ (allChars_trim _ _ H)) as (semis & -> & Hs).
  apply evalLoop_semicolons, Hs.
Qed.

Lemma evaluate_blank_code_witness :
  evaluate " ;;  ; " {[ "PORTA" := 5 ]} =
  Some (succeeded {[ "PORTA" := 5 ]} []).
Proof. apply evaluate_blank_code. reflexivity. Defined.

(** ** Every evaluation returns *)

(** For every code and every initial state the evaluation returns a
    result: the parser's recursion ends on every token sequence, and an
    error is returned as data.  The result is a success without an error
    message, or a failure with one that is not empty. *)
Theorem evaluate_returns code init :
  exists r,
    evaluate code init = Some r /\
    ((success r = true /\ error r = None) \/
     (success r = false /\ exists msg, error r = Some msg /\ msg <> "")).
Proof.
  destruct (evaluate_total code init) as [r Hr].
  exists r. split; [exact Hr|].
  rewrite evaluate_unfold in Hr.
  apply (evalLoop_invariant (fun _ _ _ => True)) in Hr; auto.
  destruct Hr as (ts' & st' & acc & _ & [-> | (msg & ->)]).
  - left. split; reflexivity.
  - right. split; [reflexivity | apply failed_error].
Qed.

(** ** Identifiers as operands *)

Lemma bind_Ok {A B} (m : M A) (k : A -> M B) ts a ts' :
  m ts = Some (Ok (a, ts')) -> (m ≫= k) ts = k a ts'.
Proof. unfold mbind, M_bind, bind. intros ->. reflexivity. Qed.

Lemma bind_Throw {A B} (m : M A) (k : A -> M B) ts msg :
  m ts = Some (Throw msg) -> (m ≫= k) ts = Some (Throw msg).
Proof. unfold mbind, M_bind, bind. intros ->. reflexivity. Qed.

Lemma loops_stop n left t rest :
  stopsExpression t ->
  shiftLoop (S n) left (t :: rest) = Some (Ok (left, t :: rest)) /\
  andLoop (S n) left (t :: rest) = Some (Ok (left, t :: rest)) /\
  xorLoop (S n) left (t :: rest) = Some (Ok (left, t :: rest)) /\
  orLoop (S n) left (t :: rest) = Some (Ok (left, t :: rest)).
Proof.
  intros (Hor & Hxor & Hand & Hl & Hr).
  rewrite shiftLoop_S, andLoop_S, xorLoop_S, orLoop_S.
  unfold mbind, M_bind, bind, peek, ret.
  cbv beta iota delta [hd].
  repeat destruct (decide _); try contradiction. auto.
Qed.

(** A primary expression before a token that continues no expression is
    the whole expression; an error of the primary expression is the
    error of the expression. *)
Lemma parseOr_primary n ts :
  type (hd eofToken ts) <> NOT ->
  match parsePrimary (S n) ts with
  | Some (Ok (v, t :: rest)) =>
      stopsExpression t ->
      parseOr (S (S (S (S (S (S n)))))) ts = Some (Ok (v, t :: rest))
  | Some (Throw msg) =>
      parseOr (S (S (S (S (S (S n)))))) ts = Some (Throw msg)
  | _ => True
  end.
Proof.
  intros Hnot.
  assert (Hu : parseUnary (S (S n)) ts = parsePrimary (S n) ts).
  { rewrite parseUnary_S. unfold mbind at 1, M_bind, bind, peek.
    destruct (decide _); [contradiction | reflexivity]. }
  destruct (parsePrimary (S n) ts) as [[[v [|t rest]]|msg]|] eqn:E; auto.
  - intros Hstop.
    destruct (loops_stop (S n) v t rest Hstop) as (Hs & _).
    destruct (loops_stop (S (S n)) v t rest Hstop) as (_ & Ha & _).
    destruct (loops_stop (S (S (S n))) v t rest Hstop) as (_ & _ & Hx & _).
    destruct (loops_stop (S (S (S (S n)))) v t rest Hstop) as (_ & _ & _ & Ho).
    rewrite parseOr_S. erewrite bind_Ok; [exact Ho|].
    rewrite parseXor_S. erewrite bind_Ok; [exact Hx|].
    rewrite parseAnd_S. erewrite bind_Ok; [exact Ha|].
    rewrite parseShift_S. erewrite bind_Ok; [exact Hs|].
    exact Hu.
  - rewrite parseOr_S. apply bind_Throw.
    rewrite parseXor_S. apply bind_Throw.
    rewrite parseAnd_S. apply bind_Throw.
    rewrite parseShift_S. apply bind_Throw.
    exact Hu.
Qed.

Lemma parsePrimary_identifier n U ts :
  parsePrimary (S n) (tok IDENTIFIER U :: ts) =
  if hasProperty allNamedBits U
  then Some (Ok (getProperty allNamedBits U, ts))
  else Some (Throw ("Unknown identifier: " ++ U)).
Proof.
  rewrite parsePrimary_S.
  unfold mbind, M_bind, bind, peek, advance, ret, throw.
  cbv beta iota delta [hd tl type value numValue tok].
  destruct (hasProperty allNamedBits U); reflexivity.
Qed.

(** The statement [R = e] in terms of the expression [e]. *)
Lemma parseStatement_assign R ts :
  parseStatement (tok IDENTIFIER R :: tok ASSIGN "=" :: ts) =
  match Parser.parseExpression
          (fuelFor (tok IDENTIFIER R :: tok ASSIGN "=" :: ts)) ts with
  | None => None
  | Some (Throw msg) => Some (Throw msg)
  | Some (Ok (v, ts')) =>
      Some (Ok (Some {| register := R; stmtValue := v; op := "=" |},
                if decide (type (hd eofToken ts') = SEMICOLON)
                then tl ts' else ts'))
  end.
Proof.
  unfold parseStatement, parseStatement_fuel.
  generalize (fuelFor (tok IDENTIFIER R :: tok ASSIGN "=" :: ts)).
  intros n.
  unfold expect, mbind, M_bind, bind, peek, advance, ret.
  cbv beta iota delta [hd tl type value numValue tok].
  repeat (destruct (decide _) as [?|_]; [discriminate|]).
  destruct (decide _) as [_|?]; [|contradiction].
  cbv beta iota.
  destruct (Parser.parseExpression n ts) as [[[v ts']|msg]|];
    [|reflexivity|reflexivity].
  destruct (decide _); reflexivity.
Qed.

Lemma parse_assign_identifier R U :
  parseStatement
    [ tok IDENTIFIER R; tok ASSIGN "="; tok IDENTIFIER U; tok SEMICOLON ";";
      eofToken ] =
  if hasProperty allNamedBits U
  then Some (Ok (Some {| register := R;
                         stmtValue := getProperty allNamedBits U;
                         op := "=" |}, [eofToken]))
  else Some (Throw ("Unknown identifier: " ++ U)).
Proof.
  rewrite parseStatement_assign. unfold Parser.parseExpression.
  change (fuelFor _) with (S (S (S (S (S (S 64)))))).
  pose proof (parseOr_primary 64
                [tok IDENTIFIER U; tok SEMICOLON ";"; eofToken]
                ltac:(discriminate)) as H.
  rewrite parsePrimary_identifier in H.
  destruct (hasProperty allNamedBits U).
  - rewrite H; [reflexivity|]. unfold stopsExpression. simpl.
    split_all; discriminate.
  - rewrite H. reflexivity.
Qed.

Lemma tokenize_assign_identifier R U :
  isIdentifier R = true -> isIdentifier U = true ->
  tokenize (R ++ " = " ++ U ++ ";") =
  [ tok IDENTIFIER R; tok ASSIGN "="; tok IDENTIFIER U; tok SEMICOLON ";";
    eofToken ].
Proof.
  intros HR HU. unfold tokenize.
  rewrite trim_identifier_first; [|assumption|no_trailing_space].
  rewrite tokenizeFrom_identifier by (assumption || reflexivity).
  change (tokenizeFrom (" = " ++ ?s) 0)
    with (tok ASSIGN "=" :: tokenizeFrom s 0).
  rewrite tokenizeFrom_identifier by (assumption || reflexivity).
  reflexivity.
Qed.

(** An identifier in operand position that is neither a key of the
    symbol table nor a name inherited from [Object.prototype] makes the
    statement [R = U;] fail with the error [Unknown identifier: U]; the
    states are returned unchanged, with no step.  A key of the table
    evaluates to its bit index, which is assigned to [R]. *)
Theorem assign_identifier_operand R U st :
  isIdentifier R = true -> isIdentifier U = true ->
  (hasProperty allNamedBits U = false ->
   evaluate (R ++ " = " ++ U ++ ";") st =
   Some (failed st [] ("Unknown identifier: " ++ U))) /\
  (forall i, allNamedBits !! U = Some i -> R <> "__proto__" ->
   exists r, evaluate (R ++ " = " ++ U ++ ";") st = Some r /\
             success r = true /\ registerStates r !! R = Some i /\
             0 <= i <= 7).
Proof.
  intros HR HU. split.
  - intros Hno. rewrite evaluate_unfold, maxStatements_S.
    rewrite tokenize_assign_identifier by assumption.
    rewrite evalLoop_S, parse_assign_identifier, Hno. reflexivity.
  - intros i Hi Hproto.
    pose proof (allNamedBits_indices _ _ Hi) as Hrange.
    eexists. split.
    + rewrite evaluate_unfold, maxStatements_S.
      rewrite tokenize_assign_identifier by assumption.
      erewrite evalLoop_commit.
      * rewrite evalLoop_eof. reflexivity.
      * rewrite parse_assign_identifier. unfold hasProperty. rewrite Hi.
        reflexivity.
      * reflexivity.
    + split; [reflexivity|]. split; [|exact Hrange].
      simpl. rewrite (getProperty_own _ _ _ Hi).
      unfold JS.byteOf, JS.int32.
      rewrite toInt32_byte, land_255_of_byte by (unfold isByte; lia).
      apply setProperty_lookup. auto.
Qed.

Lemma assign_identifier_operand_witness :
  evaluate "PORTA = FOO;" {[ "PORTA" := 5 ]} =
    Some (failed {[ "PORTA" := 5 ]} [] "Unknown identifier: FOO") /\
  finalOf (evaluate "UCSR0B = RXEN0;" ∅) "UCSR0B" = Some 4.
Proof.
  split.
  - apply (assign_identifier_operand "PORTA" "FOO" {[ "PORTA" := 5 ]});
      vm_compute; reflexivity.
  - destruct (proj2 (assign_identifier_operand "UCSR0B" "RXEN0" ∅
                       eq_refl eq_refl) 4
                ltac:(vm_compute; reflexivity) ltac:(discriminate))
      as (r & E & _ & H & _).
    replace (evaluate "UCSR0B = RXEN0;" ∅) with (Some r)
      by (symmetry; exact E).
    exact H.
Defined.

(** ** Operator precedence of the strict parser *)

Lemma tokenizeFrom_not s :
  tokenizeFrom (" & ~" ++ s) 0 =
  tok AND "&" :: tok NOT "~" :: tokenizeFrom s 0.
Proof. destruct s; reflexivity. Qed.

Lemma tokenize_mixedStatement X a b c d e :
  isIdentifier X = true ->
  isByte a -> isByte b -> isByte c -> isByte d -> isByte e ->
  tokenize (mixedStatement X a b c d e) =
  [ tok IDENTIFIER X; tok ASSIGN "="; numTok (numberToString a) a;
    tok OR "|"; numTok (numberToString b) b; tok XOR "^";
    numTok (numberToString c) c; tok AND "&"; tok NOT "~";
    numTok (numberToString d) d; tok LSHIFT "<<";
    numTok (numberToString e) e; tok SEMICOLON ";"; eofToken ].
Proof.
  intros HX Ha Hb Hc Hd He.
  destruct (numberToString_byte a Ha) as [Da Va].
  destruct (numberToString_byte b Hb) as [Db Vb].
  destruct (numberToString_byte c Hc) as [Dc Vc].
  destruct (numberToString_byte d Hd) as [Dd Vd].
  destruct (numberToString_byte e He) as [De Ve].
  unfold tokenize, mixedStatement.
  rewrite trim_identifier_first; [|assumption|no_trailing_space].
  rewrite tokenizeFrom_identifier by (assumption || reflexivity).
  change (tokenizeFrom (" = " ++ ?s) 0)
    with (tok ASSIGN "=" :: tokenizeFrom s 0).
  rewrite tokenizeFrom_decimal by (assumption || reflexivity).
  change (tokenizeFrom (" | " ++ ?s) 0)
    with (tok OR "|" :: tokenizeFrom s 0).
  rewrite tokenizeFrom_decimal by (assumption || reflexivity).
  change (tokenizeFrom (" ^ " ++ ?s) 0)
    with (tok XOR "^" :: tokenizeFrom s 0).
  rewrite tokenizeFrom_decimal by (assumption || reflexivity).
  rewrite tokenizeFrom_not.
  rewrite tokenizeFrom_decimal by (assumption || reflexivity).
  change (tokenizeFrom (" << " ++ ?s) 0)
    with (tok LSHIFT "<<" :: tokenizeFrom s 0).
  rewrite tokenizeFrom_decimal by (assumption || reflexivity).
  rewrite Va, Vb, Vc, Vd, Ve. reflexivity.
Qed.

Lemma parse_mixed X A a B b C c D d E e :
  parseStatement
    [ tok IDENTIFIER X; tok ASSIGN "="; numTok A a; tok OR "|"; numTok B b;
      tok XOR "^"; numTok C c; tok AND "&"; tok NOT "~"; numTok D d;
      tok LSHIFT "<<"; numTok E e; tok SEMICOLON ";"; eofToken ] =
  Some (Ok (Some {| register := X;
                    stmtValue :=
                      byte (JS.bitOr (VNum a)
                        (byte (JS.bitXor (VNum b)
                          (byte (JS.bitAnd (VNum c)
                            (byte (JS.shl (byte (JS.bitNot (VNum d)))
                                          (VNum e))))))));
                    op := "=" |}, [eofToken])).
Proof. reflexivity. Qed.

Lemma bitNot_byte d : isByte d -> Z.land (JS.bitNot (VNum d)) 255 = 255 - d.
Proof.
  intros Hd. unfold JS.bitNot, JS.int32. rewrite toInt32_byte by assumption.
  rewrite land_255_mod. unfold Z.lnot, isByte in *.
  replace (Z.pred (- d)) with (255 - d + (-1) * 256) by lia.
  rewrite Z.mod_add by lia. apply Z.mod_small. lia.
Qed.

Lemma bitAnd_bytes a b :
  isByte a -> isByte b ->
  Z.land (JS.bitAnd (VNum a) (VNum b)) 255 = Z.land a b /\
  isByte (Z.land a b).
Proof.
  intros Ha Hb. unfold JS.bitAnd, JS.int32.
  rewrite !toInt32_byte by assumption.
  rewrite <- Z.land_assoc, (land_255_of_byte b Hb).
  split; [reflexivity|].
  rewrite <- (land_255_of_byte b Hb), Z.land_assoc. apply land_255_byte.
Qed.

(** The strict parser gives the operators the precedence of C: for an
    identifier [X] other than [__proto__] and bytes [a] to [e], the
    statement [X = a | b ^ c & ~d << e;] leaves
    [X = a | (b ^ (c & ((~d) << e)))], every operation truncated to 8
    bits and the shift count taken modulo 32. *)
Theorem strict_precedence X a b c d e st :
  isIdentifier X = true -> X <> "__proto__" ->
  isByte a -> isByte b -> isByte c -> isByte d -> isByte e ->
  exists r,
    evaluate (mixedStatement X a b c d e) st = Some r /\
    success r = true /\
    registerStates r !! X =
    Some (Z.lor a (Z.lxor b (Z.land c
            (((255 - d) * 2 ^ (e mod 32)) mod 256)))).
Proof.
  intros HX Hproto Ha Hb Hc Hd He.
  assert (Hn : isByte (255 - d)) by (unfold isByte in *; lia).
  assert (Hs : isByte (((255 - d) * 2 ^ (e mod 32)) mod 256)).
  { rewrite <- shl_byte by assumption. apply land_255_byte. }
  destruct (bitAnd_bytes c _ Hc Hs) as [Eand Hand].
  pose proof (lxor_byte _ _ Hb Hand) as Hxor.
  eexists. split.
  - rewrite evaluate_unfold, maxStatements_S.
    rewrite tokenize_mixedStatement by assumption.
    erewrite evalLoop_commit; [|apply parse_mixed|reflexivity].
    rewrite evalLoop_eof. reflexivity.
  - split; [reflexivity|]. simpl.
    rewrite byteOf_byte. unfold byte.
    rewrite bitNot_byte, shl_byte, Eand, bitXor_bytes, bitOr_bytes
      by assumption.
    apply setProperty_lookup. auto.
Qed.

Lemma strict_precedence_witness :
  finalOf (evaluate "PORTA = 1 | 6 ^ 12 & ~243 << 1;" ∅) "PORTA" = Some 15.
Proof.
  destruct (strict_precedence "PORTA" 1 6 12 243 1 ∅ eq_refl
              ltac:(discriminate) ltac:(unfold isByte; lia)
              ltac:(unfold isByte; lia) ltac:(unfold isByte; lia)
              ltac:(unfold isByte; lia) ltac:(unfold isByte; lia))
    as (r & E & _ & H).
  change (evaluate "PORTA = 1 | 6 ^ 12 & ~243 << 1;" ∅)
    with (evaluate (mixedStatement "PORTA" 1 6 12 243 1) ∅).
  rewrite E. exact H.
Defined.

(** ** The display evaluator [safeEval] returns *)

Lemma string_length_app (a b : string) :
  String.length (a ++ b) = (String.length a + String.length b)%nat.
Proof.
  induction a as [|x a IH]; [reflexivity|].
  change (S (String.length (a ++ b)) = S (String.length a + String.length b)).
  now rewrite IH.
Qed.

Lemma append_nil_r (a : string) : a ++ "" = a.
Proof.
  induction a as [|x a IH]; [reflexivity|].
  change (String x (a ++ "") = String x a). now rewrite IH.
Qed.

Lemma filter_length p s :
  (String.length (Str.filter p s) <= String.length s)%nat.
Proof.
  induction s as [|c s IH]; simpl; [lia|]. destruct (p c); simpl; lia.
Qed.

Lemma drop_length n s :
  String.length (Str.drop n s) = (String.length s - n)%nat.
Proof.
  revert s. induction n as [|n IH]; intros [|c s]; simpl; try lia. apply IH.
Qed.

Lemma init_length s :
  String.length (Str.init s) = (String.length s - 1)%nat.
Proof.
  induction s as [|c s IH]; [reflexivity|].
  destruct s as [|d s]; [reflexivity|].
  change (S (String.length (Str.init (String d s))) =
          (S (S (String.length s)) - 1)%nat).
  rewrite IH. simpl. lia.
Qed.

Lemma take_length n s : (String.length (Str.take n s) <= n)%nat.
Proof.
  revert s. induction n as [|n IH]; intros [|c s]; simpl; try lia.
  specialize (IH s). lia.
Qed.

Lemma prefix_length pat s :
  String.prefix pat s = true -> (String.length pat <= String.length s)%nat.
Proof.
  revert s. induction pat as [|c pat IH]; intros [|d s]; simpl;
    try lia; try discriminate.
  destruct (Ascii.ascii_dec c d); [|discriminate].
  intros H. apply IH in H. lia.
Qed.

Lemma indexOf_bound pat s i :
  Str.indexOf pat s = Some i ->
  (i + String.length pat <= String.length s)%nat.
Proof.
  revert i. induction s as [|c s IH]; intros i; cbn [Str.indexOf].
  - destruct (String.prefix pat "") eqn:E; [|discriminate].
    intros [= <-]. apply prefix_length in E. simpl in E. lia.
  - destruct (String.prefix pat (String c s)) eqn:E.
    + intros [= <-]. apply prefix_length in E. lia.
    + destruct (Str.indexOf pat s) as [j|]; [|discriminate].
      intros [= <-]. specialize (IH j eq_refl). simpl. lia.
Qed.

Lemma stripOuterParens_length turns s :
  (String.length (stripOuterParens turns s) <= String.length s)%nat.
Proof.
  revert s. induction turns as [|n IH]; intros s; cbn [stripOuterParens];
    [lia|].
  destruct (_ && _); [|lia].
  specialize (IH (Str.init (Str.drop 1 s))).
  rewrite init_length, drop_length in IH. lia.
Qed.

(** The pieces [splitOnOperator] makes: one piece, the input itself; or
    none; or pieces shorter than the input. *)
Lemma splitLoop_shape o s : forall depth current parts,
  splitLoop o s depth current parts = (parts ++ [(current ++ s)%string])%list \/
  (splitLoop o s depth current parts = parts /\ current ++ s = "") \/
  exists new,
    splitLoop o s depth current parts = (parts ++ new)%list /\
    Forall (fun p => (String.length p
                      < String.length current + String.length s)%nat) new.
Proof.
  induction s as [|c rest IH]; intros depth current parts.
  - simpl. rewrite append_nil_r.
    destruct current; simpl; [right; left; auto|left; reflexivity].
  - assert (Keep : forall d,
      let r := splitLoop o rest d (current ++ String c "") parts in
      r = (parts ++ [(current ++ String c rest)%string])%list \/
      (r = parts /\ current ++ String c rest = "") \/
      exists new, r = (parts ++ new)%list /\
        Forall (fun p => (String.length p
           < String.length current + String.length (String c rest))%nat) new).
    { intros d r. subst r.
      destruct (IH d (current ++ String c "") parts) as [E|[[E1 E2]|(new & E & F)]].
      - left. rewrite E, append_assoc. reflexivity.
      - right; left. rewrite append_assoc in E2. auto.
      - right; right. exists new. split; [exact E|].
        rewrite string_length_app in F. simpl in *.
        eapply Forall_impl; [exact F|]. simpl. intros; lia. }
    assert (Cut : forall d,
      let r := splitLoop o rest d "" (parts ++ [current]) in
      exists new, r = (parts ++ new)%list /\
        Forall (fun p => (String.length p
           < String.length current + String.length (String c rest))%nat) new).
    { intros d r. subst r.
      destruct (IH d "" (parts ++ [current])%list) as [E|[[E1 E2]|(new & E & F)]].
      - exists [current; rest]. rewrite E, <- app_assoc. split; [reflexivity|].
        repeat constructor; simpl; lia.
      - exists [current]. rewrite E1. split; [reflexivity|].
        repeat constructor; simpl; lia.
      - exists (current :: new). rewrite E, <- app_assoc.
        split; [reflexivity|]. constructor; [simpl; lia|].
        eapply Forall_impl; [exact F|]. simpl. intros; lia. }
    cbn [splitLoop].
    destruct (_ && _ && _ && _ && _).
    + destruct (_ && _); [apply Keep|].
      destruct (_ && _); [apply Keep|].
      right; right. apply Cut.
    + apply Keep.
Qed.

Lemma splitOnOperator_shorter s o :
  (1 < length (splitOnOperator s o))%nat ->
  Forall (fun p => (String.length p < String.length s)%nat)
         (splitOnOperator s o).
Proof.
  unfold splitOnOperator.
  destruct (splitLoop_shape o s 0 "" []) as [E|[[E _]|(new & E & F)]];
    rewrite E; simpl; try lia.
  intros _. exact F.
Qed.

Section LoopsReturn.

Variable rec : string -> option (option jsval).

Lemma orParts_returns ps : forall acc,
  Forall (fun p => rec p <> None) ps -> orParts rec ps acc <> None.
Proof.
  induction ps as [|p ps IH]; intros acc F; simpl; [discriminate|].
  inversion F as [|? ? Hp F']; subst.
  destruct (rec p) as [[v|]|]; [apply IH; assumption|discriminate|contradiction].
Qed.

Lemma andParts_returns ps : forall acc,
  Forall (fun p => rec p <> None) ps -> andParts rec ps acc <> None.
Proof.
  induction ps as [|p ps IH]; intros acc F; simpl; [discriminate|].
  inversion F as [|? ? Hp F']; subst.
  destruct (rec p) as [[v|]|]; [apply IH; assumption|discriminate|contradiction].
Qed.

Lemma xorParts_returns ps : forall first acc,
  Forall (fun p => rec p <> None) ps -> xorParts rec ps first acc <> None.
Proof.
  induction ps as [|p ps IH]; intros first acc F; simpl; [discriminate|].
  inversion F as [|? ? Hp F']; subst.
  destruct (rec p) as [[v|]|]; [apply IH; assumption|discriminate|contradiction].
Qed.

Lemma orParts_good ps : forall acc v,
  orParts rec ps acc = Some (Some v) -> goodValue v.
Proof.
  induction ps as [|p ps IH]; intros acc v; simpl.
  - intros [= <-]. apply land_255_byte.
  - destruct (rec p) as [[w|]|]; try discriminate. apply IH.
Qed.

Lemma andParts_good ps : forall acc v,
  andParts rec ps acc = Some (Some v) -> goodValue v.
Proof.
  induction ps as [|p ps IH]; intros acc v; simpl.
  - intros [= <-]. apply land_255_byte.
  - destruct (rec p) as [[w|]|]; try discriminate. apply IH.
Qed.

Lemma xorParts_good ps : forall first acc v,
  xorParts rec ps first acc = Some (Some v) -> goodValue v.
Proof.
  induction ps as [|p ps IH]; intros first acc v; simpl.
  - intros [= <-]. apply land_255_byte.
  - destruct (rec p) as [[w|]|]; try discriminate. apply IH.
Qed.

End LoopsReturn.

Lemma parseNumberLiteral_byte s n : parseNumberLiteral s = Some n -> isByte n.
Proof.
  unfold parseNumberLiteral.
  repeat match goal with
         | |- context [if ?b then _ else _] => destruct b
         end;
    try discriminate;
    (match goal with
     | |- context [parseInt ?a ?b] => destruct (parseInt a b)
     end; simpl; [|discriminate]);
    intros [= <-]; apply land_255_byte.
Qed.

Lemma safeEval_fuel_returns fuel : forall expr,
  (String.length expr < fuel)%nat -> safeEval_fuel fuel expr <> None.
Proof.
  induction fuel as [|fuel IH]; intros expr Hlen; [lia|].
  cbn [safeEval_fuel].
  set (s0 := Str.removeSpaces expr).
  set (s := stripOuterParens (String.length s0) s0).
  assert (Hs : (String.length s <= String.length expr)%nat).
  { subst s s0. etransitivity; [apply stripOuterParens_length|].
    apply filter_length. }
  assert (Parts : forall o,
    (1 < length (splitOnOperator s o))%nat ->
    Forall (fun p => safeEval_fuel fuel p <> None) (splitOnOperator s o)).
  { intros o H. apply splitOnOperator_shorter in H.
    eapply Forall_impl; [exact H|]. simpl. intros p Hp. apply IH. lia. }
  destruct (1 <? length (splitOnOperator s "|"))%nat eqn:Eor.
  { apply orParts_returns, Parts. apply Nat.ltb_lt. exact Eor. }
  destruct (1 <? length (splitOnOperator s "&"))%nat eqn:Eand.
  { apply andParts_returns, Parts. apply Nat.ltb_lt. exact Eand. }
  destruct (1 <? length (splitOnOperator s "^"))%nat eqn:Exor.
  { apply xorParts_returns, Parts. apply Nat.ltb_lt. exact Exor. }
  destruct (Str.startsWith "~" s) eqn:Enot.
  { apply prefix_length in Enot. simpl in Enot.
    assert (H : safeEval_fuel fuel (Str.drop 1 s) <> None).
    { apply IH. rewrite drop_length. lia. }
    destruct (safeEval_fuel fuel (Str.drop 1 s)) as [[v|]|];
      [discriminate|discriminate|contradiction]. }
  assert (Shift : forall i pat,
    Str.indexOf pat s = Some i -> String.length pat = 2%nat ->
    safeEval_fuel fuel (Str.take i s) <> None /\
    safeEval_fuel fuel (Str.drop (i + 2) s) <> None).
  { intros i pat Hi Hp. apply indexOf_bound in Hi.
    split; apply IH.
    - pose proof (take_length i s). lia.
    - rewrite drop_length. lia. }
  destruct (Str.indexOf "<<" s) as [i|] eqn:El.
  { destruct (Shift i _ El eq_refl) as [H1 H2].
    destruct (safeEval_fuel fuel (Str.take i s)) as [[l|]|];
      [| |contradiction];
      (destruct (safeEval_fuel fuel (Str.drop (i + 2) s)) as [[r|]|];
        [discriminate|discriminate|contradiction]). }
  destruct (Str.indexOf ">>" s) as [i|] eqn:Er.
  { destruct (Shift i _ Er eq_refl) as [H1 H2].
    destruct (safeEval_fuel fuel (Str.take i s)) as [[l|]|];
      [| |contradiction];
      (destruct (safeEval_fuel fuel (Str.drop (i + 2) s)) as [[r|]|];
        [discriminate|discriminate|contradiction]). }
  destruct (parseNumberLiteral s); [discriminate|].
  destruct (hasProperty allNamedBits s); discriminate.
Qed.

Lemma safeEval_fuel_good fuel : forall expr v,
  safeEval_fuel fuel expr = Some (Some v) -> goodValue v.
Proof.
  induction fuel as [|fuel IH]; intros expr v; [discriminate|].
  cbn [safeEval_fuel].
  set (s0 := Str.removeSpaces expr).
  set (s := stripOuterParens (String.length s0) s0).
  destruct (1 <? length (splitOnOperator s "|"))%nat; [apply orParts_good|].
  destruct (1 <? length (splitOnOperator s "&"))%nat; [apply andParts_good|].
  destruct (1 <? length (splitOnOperator s "^"))%nat; [apply xorParts_good|].
  destruct (Str.startsWith "~" s).
  { destruct (safeEval_fuel fuel (Str.drop 1 s)) as [[w|]|]; try discriminate.
    intros [= <-]. apply land_255_byte. }
  destruct (Str.indexOf "<<" s) as [i|].
  { destruct (safeEval_fuel fuel (Str.take i s)) as [[l|]|];
      destruct (safeEval_fuel fuel (Str.drop (i + 2) s)) as [[r|]|];
      try discriminate.
    intros [= <-]. apply land_255_byte. }
  destruct (Str.indexOf ">>" s) as [i|].
  { destruct (safeEval_fuel fuel (Str.take i s)) as [[l|]|];
      destruct (safeEval_fuel fuel (Str.drop (i + 2) s)) as [[r|]|];
      try discriminate.
    intros [= <-]. apply land_255_byte. }
  destruct (parseNumberLiteral s) as [n|] eqn:En.
  { intros [= <-]. exact (parseNumberLiteral_byte _ _ En). }
  destruct (hasProperty allNamedBits s) eqn:Eh; [|discriminate].
  pose proof (getProperty_allNamedBits_good s Eh) as Hg.
  generalize dependent (getProperty allNamedBits s).
  intros w Hw [= <-]. exact Hw.
Qed.

(** With a call stack that has no bound, [safeEval] returns on every
    input: each of its recursive calls is on a strictly shorter
    string. *)
Lemma safeEval_returns expr : exists r, safeEval expr = Some r.
Proof.
  unfold safeEval.
  destruct (safeEval_fuel (S (String.length expr)) expr) as [r|] eqn:E.
  - eauto.
  - exfalso. revert E. apply safeEval_fuel_returns. lia.
Qed.

(** The operand value of the analyzer is a byte or a member that the
    symbol table object inherits: whatever the text, what
    [tryEvaluatePartial] returns is [null], a number in [0,255], or
    such a member, never a number outside that range.  (An exception
    of [safeEval] is caught and gives [null].) *)
Theorem tryEvaluatePartial_value expr v :
  tryEvaluatePartial expr = Some v -> goodValue v.
Proof.
  unfold tryEvaluatePartial. cbv zeta.
  destruct (Str.isEmpty (Str.trim expr)); [discriminate|].
  destruct (parseNumberLiteral (Str.trim expr)) as [n|] eqn:En.
  { intros [= <-]. exact (parseNumberLiteral_byte _ _ En). }
  destruct (resolveIdentifier (Str.trim expr)) as [w|] eqn:Er.
  { intros [= <-]. revert Er. unfold resolveIdentifier.
    destruct (hasProperty allNamedBits (Str.trim expr)) eqn:Eh;
      [|discriminate].
    pose proof (getProperty_allNamedBits_good _ Eh) as Hg.
    generalize dependent (getProperty allNamedBits (Str.trim expr)).
    intros w' Hw [= <-]. exact Hw. }
  clear En Er. generalize (Str.trim expr). intros s.
  pose proof (safeEval_fuel_good (S (String.length s)) s) as Hg.
  fold (safeEval s) in Hg.
  destruct (safeEval s) as [[w|]|]; try discriminate.
  intros [= <-]. apply Hg. reflexivity.
Qed.

Lemma tryEvaluatePartial_value_witness :
  tryEvaluatePartial "~(1<<PA3) | 0x1F0" = Some (VNum 247) /\
  isByte 247.
Proof.
  split; [vm_compute; reflexivity|].
  exact (tryEvaluatePartial_value "~(1<<PA3) | 0x1F0" (VNum 247)
           ltac:(vm_compute; reflexivity)).
Defined.

(** ** The question generator *)

Lemma gwp_ret {A} (a : A) (P : A -> Prop) : P a -> gwp (Random.ret a) P.
Proof. intros H src Hsrc. simpl. auto. Qed.

Lemma gwp_bind {A B} (m : Random.Gen A) (f : A -> Random.Gen B)
    (P : A -> Prop) (Q : B -> Prop) :
  gwp m P -> (forall a, P a -> gwp (f a) Q) -> gwp (m ≫= f) Q.
Proof.
  intros Hm Hf src Hsrc. specialize (Hm src Hsrc).
  unfold mbind, Random.Gen_bind, Random.bind.
  destruct (m src) as [[a src']|]; [|contradiction].
  destruct Hm as [Hsrc' Ha]. exact (Hf a Ha src' Hsrc').
Qed.

Lemma gwp_conseq {A} (m : Random.Gen A) (P Q : A -> Prop) :
  gwp m P -> (forall a, P a -> Q a) -> gwp m Q.
Proof.
  intros Hm HPQ src Hsrc. specialize (Hm src Hsrc).
  destruct (m src) as [[a src']|]; [|contradiction].
  destruct Hm; split; auto.
Qed.

Lemma gwp_random : gwp Random.random unitDraw.
Proof.
  intros src Hsrc. simpl. split; [|apply Hsrc].
  intros i. apply Hsrc.
Qed.

(** The floor of a draw scaled by [n] is an index below [n]. *)
Lemma floor_scaled r n :
  unitDraw r -> 0 < n -> 0 <= Qfloor (r * inject_Z n) < n.
Proof.
  intros [H0 H1] Hn.
  assert (Hq : (inject_Z 0 < inject_Z n)%Q) by (rewrite <- Zlt_Qlt; exact Hn).
  change (inject_Z 0) with 0%Q in Hq.
  split.
  - rewrite <- (Qfloor_Z 0). apply Qfloor_resp_le.
    apply Qmult_le_0_compat; [exact H0|apply Qlt_le_weak, Hq].
  - rewrite Zlt_Qlt.
    eapply Qle_lt_trans; [apply Qfloor_le|].
    rewrite <- (Qmult_1_l (inject_Z n)) at 2.
    apply Qmult_lt_compat_r; assumption.
Qed.

Lemma gwp_randomIndex n :
  0 < n -> gwp (Random.randomIndex n) (fun i => 0 <= i < n).
Proof.
  intros Hn. unfold Random.randomIndex.
  eapply gwp_bind; [apply gwp_random|].
  intros r Hr. apply gwp_ret, floor_scaled; assumption.
Qed.

Lemma gwp_randInt lo hi :
  lo <= hi -> gwp (Generator.randInt lo hi) (fun v => lo <= v <= hi).
Proof.
  intros H. unfold Generator.randInt.
  eapply gwp_bind; [apply gwp_random|].
  intros r Hr. apply gwp_ret.
  pose proof (floor_scaled r (hi - lo + 1) Hr ltac:(lia)). lia.
Qed.

Lemma gwp_uid : gwp Generator.uid (fun _ => True).
Proof.
  unfold Generator.uid. eapply gwp_bind; [apply gwp_random|].
  intros r _. apply gwp_ret. exact I.
Qed.

Lemma gwp_pick {A} count : forall (available : list A) taken,
  (count <= length available)%nat ->
  gwp (Random.pick count available taken)
      (fun res => exists l, res = (taken ++ (Some <$> l))%list /\
                            In l (arrangements count available)).
Proof.
  induction count as [|count IH]; intros available taken Hlen.
  - apply gwp_ret. exists []. rewrite app_nil_r. split; [reflexivity|].
    left; reflexivity.
  - cbn [Random.pick].
    eapply gwp_bind; [apply gwp_randomIndex; lia|].
    intros idx Hidx. cbv beta in Hidx. unfold Random.spliceOne.
    destruct (available !! Z.to_nat idx) as [x|] eqn:E.
    2:{ exfalso. apply lookup_ge_None in E. lia. }
    eapply gwp_conseq; [apply IH; rewrite length_delete; [lia|eauto]|].
    intros res (l & -> & Hl). exists (x :: l).
    rewrite <- app_assoc. split; [reflexivity|].
    cbn [arrangements]. apply in_flat_map.
    exists (Z.to_nat idx). split; [apply in_seq; lia|].
    rewrite E. apply in_map. exact Hl.
Qed.

(** [randInt(min, max)] returns a whole number from [min] to [max], and
    uses one random number. *)
Theorem randInt_in_range lo hi src :
  unitSource src -> lo <= hi ->
  exists v, Generator.randInt lo hi src = Some (v, fun i => src (S i)) /\
            lo <= v <= hi.
Proof.
  intros Hsrc H. pose proof (gwp_randInt lo hi H src Hsrc) as G.
  unfold Generator.randInt, mbind, Random.Gen_bind, Random.bind,
    Random.random, Random.ret in *.
  destruct G as [_ G]. eexists. split; [reflexivity|exact G].
Qed.

Lemma randInt_in_range_witness :
  exists v, Generator.randInt 3 8 (fun _ => 1 # 2) =
            Some (v, fun _ => 1 # 2) /\ 3 <= v <= 8.
Proof.
  apply (randInt_in_range 3 8 (fun _ => 1 # 2)); [|lia].
  intros i. unfold unitDraw, Qle, Qlt. simpl. lia.
Defined.

Lemma arrangements_length {A} k : forall (av l : list A),
  In l (arrangements k av) -> length l = k.
Proof.
  induction k as [|k IH]; intros av l; cbn [arrangements].
  - intros [<-|[]]. reflexivity.
  - intros H. apply in_flat_map in H. destruct H as (i & _ & H).
    destruct (av !! i) as [x|]; [|destruct H].
    apply in_map_iff in H. destruct H as (l' & <- & H).
    simpl. f_equal. exact (IH _ _ H).
Qed.

Lemma sortBits_defined l :
  Generator.sortBits (Some <$> l) = Some <$> merge_sort Z.le l.
Proof.
  unfold Generator.sortBits.
  assert (E1 : omap id (Some <$> l) = l).
  { induction l as [|x l IH]; [reflexivity|].
    change (x :: omap id (Some <$> l) = x :: l). now rewrite IH. }
  assert (E2 : List.filter (fun b : option Z => negb (bool_decide (is_Some b)))
                 (Some <$> l) = []).
  { clear E1. induction l as [|x l IH]; [reflexivity|]. exact IH. }
  rewrite E1, E2. apply app_nil_r.
Qed.

Lemma delete_middle {A} (l : list A) i x :
  l !! i = Some x ->
  l = (take i l ++ x :: drop (S i) l)%list /\
  delete i l = (take i l ++ drop (S i) l)%list.
Proof.
  intros E. split; [symmetry; apply take_drop_middle, E|].
  apply delete_take_drop.
Qed.

Lemma arrangements_distinct {A} k : forall (av l : list A),
  In l (arrangements k av) -> NoDup av ->
  NoDup l /\ (forall x, In x l -> In x av).
Proof.
  induction k as [|k IH]; intros av l; cbn [arrangements].
  - intros [<-|[]] _. split; [constructor|intros x []].
  - intros H Hav. apply in_flat_map in H. destruct H as (i & _ & H).
    destruct (av !! i) as [x|] eqn:E; [|destruct H].
    apply in_map_iff in H. destruct H as (l' & <- & H).
    destruct (delete_middle av i x E) as [Eav Edel].
    assert (Hx : ~ In x (delete i av) /\ NoDup (delete i av)).
    { rewrite Eav in Hav. apply NoDup_app in Hav.
      destruct Hav as (N1 & N2 & N3). apply NoDup_cons in N3.
      destruct N3 as [N3 N4]. rewrite Edel. split.
      - rewrite <- list_elem_of_In, elem_of_app. intros [Hin|Hin].
        + apply (N2 x Hin). left.
        + contradiction.
      - apply NoDup_app. split_all; [exact N1| |exact N4].
        intros y Hy Hy'. apply (N2 y Hy). right. exact Hy'. }
    destruct Hx as [Hx Hdel].
    destruct (IH _ _ H Hdel) as [Nl Hsub]. split.
    + apply NoDup_cons. split; [|exact Nl].
      rewrite list_elem_of_In. intros Hin. apply Hx, Hsub, Hin.
    + intros y [<-|Hy].
      * rewrite <- list_elem_of_In. eapply list_elem_of_lookup_2, E.
      * apply Hsub in Hy. rewrite Edel in Hy. rewrite Eav.
        apply in_app_iff in Hy. apply in_app_iff.
        destruct Hy; [left|right; right]; assumption.
Qed.

Lemma strictly_sorted l :
  StronglySorted Z.le l -> NoDup l -> StronglySorted Z.lt l.
Proof.
  induction 1 as [|x l Hs IH Hx]; intros Hn; constructor.
  - apply IH. apply NoDup_cons in Hn. tauto.
  - apply NoDup_cons in Hn. destruct Hn as [Hn _].
    rewrite Forall_forall in *. intros y Hy.
    specialize (Hx y Hy). assert (x <> y) by (intros ->; contradiction).
    lia.
Qed.

Lemma nil_in_sublists {A} (l : list A) : In [] (sublists l).
Proof.
  induction l as [|x l IH]; [left; reflexivity|].
  cbn [sublists]. apply in_app_iff. right. exact IH.
Qed.

(** A strictly ascending list of numbers of a range keeps some numbers
    of the range, in order. *)
Lemma sorted_in_sublists n : forall a l,
  StronglySorted Z.lt l ->
  Forall (fun x => a <= x < a + Z.of_nat n) l ->
  In l (sublists (seqZ a (Z.of_nat n))).
Proof.
  induction n as [|n IH]; intros a l Hs Hr.
  - destruct l as [|x l]; [left; reflexivity|].
    apply Forall_cons in Hr. lia.
  - rewrite seqZ_cons by lia.
    replace (Z.pred (Z.of_nat (S n))) with (Z.of_nat n) by lia.
    cbn [sublists]. apply in_app_iff.
    destruct l as [|x l]; [right; apply nil_in_sublists|].
    apply StronglySorted_inv in Hs. destruct Hs as [Hs Hx].
    apply Forall_cons in Hr. destruct Hr as [Hxr Hr].
    destruct (decide (x = a)) as [->|Hne].
    + left. apply in_map. apply IH; [exact Hs|].
      rewrite Forall_forall in *. intros y Hy.
      specialize (Hx y Hy). specialize (Hr y Hy). lia.
    + right. apply IH; [constructor; assumption|].
      constructor; [lia|].
      rewrite Forall_forall in *. intros y Hy.
      specialize (Hx y Hy). specialize (Hr y Hy). lia.
Qed.

Lemma ascending_of_arrangement k l :
  In l (arrangements k [0; 1; 2; 3; 4; 5; 6; 7]) ->
  In (Some <$> merge_sort Z.le l) ascendingBits.
Proof.
  intros Hl. unfold ascendingBits.
  apply (in_map (fun l : list Z => Some <$> l)).
  destruct (arrangements_distinct _ _ _ Hl) as [Hn Hsub].
  { apply (bool_decide_unpack _). vm_compute. exact I. }
  pose proof (merge_sort_Permutation Z.le l) as Hp.
  apply (sorted_in_sublists 8 0).
  - apply strictly_sorted.
    + apply StronglySorted_merge_sort; [apply _|].
      intros x y. lia.
    + rewrite Hp. exact Hn.
  - rewrite Hp. apply Forall_forall. intros x Hx.
    apply list_elem_of_In, Hsub in Hx. simpl in Hx. lia.
Qed.

Lemma ascendingBits_spec bits :
  In bits ascendingBits ->
  exists l, bits = Some <$> l /\ StronglySorted Z.lt l /\
            Forall (fun b => 0 <= b <= 7) l.
Proof.
  intros H. unfold ascendingBits in H. apply in_map_iff in H.
  destruct H as (l & <- & Hl). exists l. split; [reflexivity|].
  assert (F : Forall (fun l => StronglySorted Z.lt l /\
                               Forall (fun b => 0 <= b <= 7) l)
                     (sublists [0; 1; 2; 3; 4; 5; 6; 7])).
  { apply (bool_decide_unpack _). vm_compute. exact I. }
  rewrite Forall_forall in F. apply F, list_elem_of_In, Hl.
Qed.

Lemma length_merge_sort l : length (merge_sort Z.le l) = length l.
Proof. apply Permutation_length, merge_sort_Permutation. Qed.

Lemma gwp_randBits count :
  0 <= count <= 8 ->
  gwp (Generator.randBits count)
      (fun bits => In bits ascendingBits /\ length bits = Z.to_nat count).
Proof.
  intros Hc. unfold Generator.randBits.
  eapply gwp_bind; [apply gwp_pick; simpl; lia|].
  intros res (l & -> & Hl). apply gwp_ret.
  change ([] ++ (Some <$> l))%list with (Some <$> l).
  rewrite sortBits_defined. split.
  - exact (ascending_of_arrangement _ _ Hl).
  - rewrite length_fmap, length_merge_sort.
    exact (arrangements_length _ _ _ Hl).
Qed.

(** [randBits(count)], for a [count] of at most 8, returns [count]
    distinct bit numbers from 0 to 7 in ascending order, none of them
    [undefined]. *)
Theorem randBits_ascending count src :
  unitSource src -> 0 <= count <= 8 ->
  exists l src',
    Generator.randBits count src = Some (Some <$> l, src') /\
    length l = Z.to_nat count /\
    StronglySorted Z.lt l /\ Forall (fun b => 0 <= b <= 7) l.
Proof.
  intros Hsrc Hc. pose proof (gwp_randBits count Hc src Hsrc) as G.
  destruct (Generator.randBits count src) as [[bits src']|];
    [|contradiction].
  destruct G as (_ & Hin & Hlen).
  destruct (ascendingBits_spec bits Hin) as (l & -> & Hs & Hr).
  exists l, src'. rewrite length_fmap in Hlen. auto.
Qed.

Lemma randBits_ascending_witness :
  exists l src',
    Generator.randBits 3 (fun _ => 1 # 2) = Some (Some <$> l, src') /\
    length l = 3%nat /\
    StronglySorted Z.lt l /\ Forall (fun b => 0 <= b <= 7) l.
Proof.
  apply (randBits_ascending 3 (fun _ => 1 # 2)); [|lia].
  intros i. unfold unitDraw, Qle, Qlt. simpl. lia.
Defined.

(** *** One and two statements, checked *)

Lemma parsesTo_spec ts reg o v rest :
  parsesTo ts reg o v rest = true ->
  parseStatement ts =
  Some (Ok (Some {| register := reg; stmtValue := VNum v; op := o |}, rest)).
Proof.
  unfold parsesTo.
  destruct (parseStatement ts) as [[[[[r w o'] |] ts']|]|];
    try discriminate.
  cbn [register op stmtValue]. intros H.
  apply andb_prop in H. destruct H as [H H4].
  apply andb_prop in H. destruct H as [H H3].
  apply andb_prop in H. destruct H as [H1 H2].
  apply String.eqb_eq in H1. apply String.eqb_eq in H2.
  apply bool_decide_eq_true in H3. apply bool_decide_eq_true in H4.
  subst. reflexivity.
Qed.

Lemma singleton_read (reg : string) (initial : Z) :
  JS.nullish (getProperty {[ reg := initial ]} reg) (VNum 0) = VNum initial.
Proof.
  unfold getProperty. rewrite lookup_singleton_eq. reflexivity.
Qed.

Lemma written_read (st : gmap string Z) reg (initial a d : Z) :
  st !! reg = Some initial ->
  JS.nullish (getProperty (setProperty st reg a) reg) (VNum d) = VNum a.
Proof.
  intros H. unfold getProperty.
  rewrite setProperty_lookup by eauto. reflexivity.
Qed.

Lemma checkAnswer_one code reg o v initial expected :
  parsesTo (tokenize code) reg o v [eofToken] = true ->
  opGives o initial v expected = true ->
  exists c, checkAnswer code reg initial expected = Some c /\
            correct c = true /\ userResult c = Some (VNum expected) /\
            checkError c = None.
Proof.
  intros Hp Ho. apply parsesTo_spec in Hp. unfold opGives in Ho.
  destruct (applyOp o (VNum initial) (VNum v)) as [a|] eqn:Ea;
    [|discriminate].
  apply Z.eqb_eq in Ho. subst a.
  unfold checkAnswer. rewrite evaluate_unfold, maxStatements_S.
  erewrite evalLoop_commit;
    [|exact Hp|cbn [register op stmtValue]; rewrite singleton_read; exact Ea].
  rewrite evalLoop_eof. cbn [register op stmtValue].
  eexists. split; [reflexivity|].
  cbn [success negb succeeded registerStates correct userResult checkError].
  erewrite written_read by apply lookup_singleton_eq.
  cbn [strictEqNum]. rewrite Z.eqb_refl. auto.
Qed.

Lemma checkAnswer_two code reg o1 v1 o2 v2 initial middle expected :
  twoStatements code reg o1 v1 o2 v2 = true ->
  opGives o1 initial v1 middle = true ->
  opGives o2 middle v2 expected = true ->
  exists c, checkAnswer code reg initial expected = Some c /\
            correct c = true /\ userResult c = Some (VNum expected) /\
            checkError c = None.
Proof.
  unfold twoStatements. intros H H1 H2.
  apply andb_prop in H. destruct H as [_ H].
  destruct (parseStatement (tokenize code)) as [[[[[r w o'] |] ts']|]|] eqn:Ep;
    try discriminate.
  cbn [register op stmtValue] in H.
  apply andb_prop in H. destruct H as [H Hp2].
  apply andb_prop in H. destruct H as [H Hw].
  apply andb_prop in H. destruct H as [Hr Ho].
  apply String.eqb_eq in Hr. apply String.eqb_eq in Ho.
  apply bool_decide_eq_true in Hw. subst r o' w.
  apply parsesTo_spec in Hp2. unfold opGives in H1, H2.
  destruct (applyOp o1 (VNum initial) (VNum v1)) as [a|] eqn:Ea;
    [|discriminate].
  apply Z.eqb_eq in H1. subst a.
  destruct (applyOp o2 (VNum middle) (VNum v2)) as [b|] eqn:Eb;
    [|discriminate].
  apply Z.eqb_eq in H2. subst b.
  unfold checkAnswer. rewrite evaluate_unfold, maxStatements_S.
  erewrite evalLoop_commit;
    [|exact Ep|cbn [register op stmtValue]; rewrite singleton_read; exact Ea].
  cbn [register op stmtValue].
  erewrite evalLoop_commit;
    [|exact Hp2
     |cbn [register op stmtValue];
      erewrite written_read by apply lookup_singleton_eq; exact Eb].
  rewrite evalLoop_eof. cbn [register op stmtValue].
  eexists. split; [reflexivity|].
  cbn [success negb succeeded registerStates correct userResult checkError].
  erewrite written_read
    by (apply setProperty_lookup; right; rewrite lookup_singleton_eq; eauto).
  cbn [strictEqNum]. rewrite Z.eqb_refl. auto.
Qed.

Lemma solved_by_check q :
  Generator.isReadState q = false ->
  Str.trim (Generator.sampleAnswer q) = Generator.sampleAnswer q ->
  Str.isEmpty (Generator.sampleAnswer q) = false ->
  (exists c, checkAnswer (Generator.sampleAnswer q) (Generator.register q)
               (Generator.initialValue q) (Generator.expectedValue q)
             = Some c /\
             correct c = true /\
             userResult c = Some (VNum (Generator.expectedValue q)) /\
             checkError c = None) ->
  solved q.
Proof.
  intros Hr Ht He (c & Hc & H1 & H2 & H3).
  unfold solved, Live.evaluateLive. rewrite Ht, He, Hr, Hc. simpl.
  rewrite H1, H2, H3. reflexivity.
Qed.

Lemma solved_one q o v :
  Generator.isReadState q = false ->
  oneStatement (Generator.sampleAnswer q) (Generator.register q) o v = true ->
  opGives o (Generator.initialValue q) v (Generator.expectedValue q) = true ->
  solved q.
Proof.
  intros Hr H Ho. unfold oneStatement in H.
  apply andb_prop in H. destruct H as [H Hp].
  apply andb_prop in H. destruct H as [Ht He].
  apply String.eqb_eq in Ht. apply negb_true_iff in He.
  apply solved_by_check; auto.
  eapply checkAnswer_one; eassumption.
Qed.

Lemma solved_two q o1 v1 o2 v2 middle :
  Generator.isReadState q = false ->
  twoStatements (Generator.sampleAnswer q) (Generator.register q)
                o1 v1 o2 v2 = true ->
  opGives o1 (Generator.initialValue q) v1 middle = true ->
  opGives o2 middle v2 (Generator.expectedValue q) = true ->
  solved q.
Proof.
  intros Hr H H1 H2. pose proof H as H'. unfold twoStatements in H.
  apply andb_prop in H. destruct H as [H Hp].
  apply andb_prop in H. destruct H as [Ht He].
  apply String.eqb_eq in Ht. apply negb_true_iff in He.
  apply solved_by_check; auto.
  eapply checkAnswer_two; eassumption.
Qed.

Lemma gwp_getCommonPort :
  gwp (Generator.getCommonPort ≫= Generator.defined)
      (fun p => In p Generator.commonPorts).
Proof.
  unfold Generator.getCommonPort.
  apply gwp_bind
    with (P := fun o => exists p, o = Some p /\ In p Generator.commonPorts).
  - eapply gwp_bind; [apply gwp_randomIndex; vm_compute; reflexivity|].
    intros idx Hidx. cbv beta in Hidx. apply gwp_ret.
    destruct (Generator.commonPorts !! Z.to_nat idx) as [p|] eqn:E.
    + exists p. split; [reflexivity|].
      apply list_elem_of_In. eapply list_elem_of_lookup_2, E.
    + exfalso. apply lookup_ge_None in E.
      change (length Generator.commonPorts) with 4%nat in *. lia.
  - intros o (p & -> & Hp). apply gwp_ret. exact Hp.
Qed.

(** *** The generators, topic by topic *)

Lemma mask8_byte n : isByte (mask8 n).
Proof. apply land_255_byte. Qed.

Lemma forall_ports_bits (P : PortInfo -> list (option Z) -> bool) :
  forallb (fun p => forallb (P p) ascendingBits) Generator.commonPorts = true ->
  forall p bits, In p Generator.commonPorts -> In bits ascendingBits ->
                 P p bits = true.
Proof.
  intros H p bits Hp Hb. rewrite forallb_forall in H.
  specialize (H p Hp). rewrite forallb_forall in H. exact (H bits Hb).
Qed.

Lemma gwp_byte lo hi :
  0 <= lo -> lo <= hi -> hi <= 255 -> gwp (Generator.randInt lo hi) isByte.
Proof.
  intros. eapply gwp_conseq; [apply gwp_randInt; lia|].
  intros v Hv. cbv beta in Hv. unfold isByte. lia.
Qed.

Lemma gwp_bitCountFor d :
  gwp (Generator.bitCountFor d) (fun n => 1 <= n <= 4).
Proof.
  unfold Generator.bitCountFor.
  destruct (d <=? 3); [apply gwp_ret; lia|].
  destruct (d <=? 6);
    (eapply gwp_conseq; [apply gwp_randInt; lia|]);
    intros v Hv; cbv beta in Hv; lia.
Qed.


(** *** The arithmetic of the generators and of the evaluator agree *)

Ltac bitwise :=
  apply Z.bits_inj'; intros ?k ?Hk;
  repeat (rewrite ?Z.land_spec, ?Z.lor_spec, ?Z.lxor_spec,
                  ?Z.lnot_spec, ?Z.bits_0 by assumption);
  repeat match goal with
         | |- context [Z.testbit ?x ?k] => destruct (Z.testbit x k)
         end;
  reflexivity.

Lemma bit_value n : 0 <= n <= 7 -> Generator.bit (VNum n) = 2 ^ n.
Proof.
  intros Hn.
  assert (H : n = 0 \/ n = 1 \/ n = 2 \/ n = 3 \/ n = 4 \/ n = 5 \/ n = 6
              \/ n = 7) by lia.
  repeat (destruct H as [->|H]; [reflexivity|]). subst. reflexivity.
Qed.

Lemma land_byte_l e x : isByte e -> isByte (Z.land e x).
Proof.
  intros He. rewrite <- (land_255_of_byte e He).
  replace (Z.land (Z.land e 255) x) with (Z.land (Z.land e x) 255)
    by bitwise.
  apply land_255_byte.
Qed.

Lemma lnot_small x : isByte x -> toInt32 (Z.lnot x) = Z.lnot x.
Proof.
  intros Hx. apply toInt32_small. unfold Z.lnot, isByte in *. lia.
Qed.

Lemma step_or e n :
  isByte e -> 0 <= n <= 7 ->
  JS.bitOr (VNum e) (VNum (Generator.bit (VNum n))) = Z.lor e (2 ^ n).
Proof.
  intros He Hn. rewrite bit_value by assumption.
  unfold JS.bitOr, JS.int32.
  rewrite !toInt32_byte by (assumption || apply pow2_bit_byte, Hn).
  reflexivity.
Qed.

Lemma step_xor e n :
  isByte e -> 0 <= n <= 7 ->
  JS.bitXor (VNum e) (VNum (Generator.bit (VNum n))) = Z.lxor e (2 ^ n).
Proof.
  intros He Hn. rewrite bit_value by assumption.
  unfold JS.bitXor, JS.int32.
  rewrite !toInt32_byte by (assumption || apply pow2_bit_byte, Hn).
  reflexivity.
Qed.

Lemma step_clear e n :
  isByte e -> 0 <= n <= 7 ->
  JS.bitAnd (VNum e) (VNum (JS.bitNot (VNum (Generator.bit (VNum n))))) =
  Z.land e (Z.lnot (2 ^ n)).
Proof.
  intros He Hn. rewrite bit_value by assumption.
  pose proof (pow2_bit_byte n Hn) as Hp.
  unfold JS.bitAnd, JS.bitNot, JS.int32.
  rewrite (toInt32_byte (2 ^ n)), lnot_small, toInt32_byte by assumption.
  reflexivity.
Qed.

Lemma orBits_cons e n bits :
  Generator.orBits e (Some n :: bits) =
  Generator.orBits
    (JS.bitOr (VNum e) (VNum (Generator.bit (VNum n)))) bits.
Proof. reflexivity. Qed.

Lemma xorBits_cons e n bits :
  Generator.xorBits e (Some n :: bits) =
  Generator.xorBits
    (JS.bitXor (VNum e) (VNum (Generator.bit (VNum n)))) bits.
Proof. reflexivity. Qed.

Lemma clearBits_cons e n bits :
  Generator.clearBits e (Some n :: bits) =
  Generator.clearBits
    (JS.bitAnd (VNum e)
       (VNum (JS.bitNot (VNum (Generator.bit (VNum n)))))) bits.
Proof. reflexivity. Qed.

(** The loops over the bits, as one operation with the mask of the
    bits. *)
Lemma orBits_spec bits :
  Forall validBit bits -> forall e, isByte e ->
  Generator.orBits e bits = Z.lor e (Generator.orBits 0 bits) /\
  isByte (Generator.orBits e bits).
Proof.
  induction 1 as [|b bits (n & -> & Hn) _ IH]; intros e He.
  - change (Generator.orBits e []) with e.
    change (Generator.orBits 0 []) with 0.
    rewrite Z.lor_0_r. auto.
  - pose proof (pow2_bit_byte n Hn) as Hp.
    rewrite !orBits_cons, !step_or by (assumption || (unfold isByte; lia)).
    destruct (IH (Z.lor e (2 ^ n)) (lor_byte _ _ He Hp)) as [E1 B1].
    destruct (IH (Z.lor 0 (2 ^ n))
                 (lor_byte 0 (2 ^ n) ltac:(unfold isByte; lia) Hp)) as [E2 _].
    rewrite E1, E2. split.
    + bitwise.
    + rewrite <- E1. exact B1.
Qed.

Lemma xorBits_spec bits :
  Forall validBit bits -> forall e, isByte e ->
  Generator.xorBits e bits = Z.lxor e (Generator.xorBits 0 bits) /\
  isByte (Generator.xorBits e bits).
Proof.
  induction 1 as [|b bits (n & -> & Hn) _ IH]; intros e He.
  - change (Generator.xorBits e []) with e.
    change (Generator.xorBits 0 []) with 0.
    rewrite Z.lxor_0_r. auto.
  - pose proof (pow2_bit_byte n Hn) as Hp.
    rewrite !xorBits_cons, !step_xor by (assumption || (unfold isByte; lia)).
    destruct (IH (Z.lxor e (2 ^ n)) (lxor_byte _ _ He Hp)) as [E1 B1].
    destruct (IH (Z.lxor 0 (2 ^ n))
                 (lxor_byte 0 (2 ^ n) ltac:(unfold isByte; lia) Hp)) as [E2 _].
    rewrite E1, E2. split.
    + bitwise.
    + rewrite <- E1. exact B1.
Qed.

Lemma clearBits_spec bits :
  Forall validBit bits -> forall e, isByte e ->
  Generator.clearBits e bits =
  Z.land e (Z.lnot (Generator.orBits 0 bits)) /\
  isByte (Generator.clearBits e bits).
Proof.
  induction 1 as [|b bits (n & -> & Hn) Hbits IH]; intros e He.
  - change (Generator.clearBits e []) with e.
    change (Generator.orBits 0 []) with 0.
    split; [|exact He]. bitwise.
  - pose proof (pow2_bit_byte n Hn) as Hp.
    rewrite clearBits_cons, orBits_cons, step_clear, step_or
      by (assumption || (unfold isByte; lia)).
    destruct (IH (Z.land e (Z.lnot (2 ^ n))) (land_byte_l _ _ He))
      as [E1 B1].
    destruct (orBits_spec bits Hbits (Z.lor 0 (2 ^ n))
                (lor_byte 0 (2 ^ n) ltac:(unfold isByte; lia) Hp)) as [E2 _].
    rewrite E1, E2. split.
    + bitwise.
    + rewrite <- E1. exact B1.
Qed.

Lemma ascending_valid bits : In bits ascendingBits -> Forall validBit bits.
Proof.
  intros H. destruct (ascendingBits_spec bits H) as (l & -> & _ & Hr).
  apply Forall_fmap. eapply Forall_impl; [exact Hr|].
  intros n Hn. exists n. auto.
Qed.

Lemma mask8_of_byte n : isByte n -> mask8 n = n.
Proof.
  intros Hn. unfold mask8. rewrite toInt32_byte by assumption.
  apply land_255_of_byte, Hn.
Qed.

(** The masks of distinct bits: the exclusive or of the bits is their
    or, and no mask of some bits is zero. *)
Lemma ascending_masks bits :
  In bits ascendingBits ->
  Generator.xorBits 0 bits = Generator.orBits 0 bits /\
  (bits <> [] -> Generator.orBits 0 bits <> 0).
Proof.
  intros H.
  assert (F : forallb (fun bits =>
                (Generator.xorBits 0 bits =? Generator.orBits 0 bits)
                && match bits with
                   | [] => true
                   | _ => negb (Generator.orBits 0 bits =? 0)
                   end) ascendingBits = true)
    by (vm_compute; reflexivity).
  rewrite forallb_forall in F. specialize (F bits H).
  apply andb_prop in F. destruct F as [F1 F2].
  apply Z.eqb_eq in F1. split; [exact F1|].
  intros Hne. destruct bits; [contradiction|].
  apply negb_true_iff, Z.eqb_neq in F2. exact F2.
Qed.

Lemma opGives_or initial m :
  isByte initial -> isByte m ->
  opGives "|=" initial m (Z.lor initial m) = true.
Proof.
  intros Hi Hm. unfold opGives, applyOp. cbn [String.eqb Ascii.eqb Bool.eqb].
  rewrite bitOr_bytes by assumption. apply Z.eqb_refl.
Qed.

Lemma opGives_xor initial m :
  isByte initial -> isByte m ->
  opGives "^=" initial m (Z.lxor initial m) = true.
Proof.
  intros Hi Hm. unfold opGives, applyOp. cbn [String.eqb Ascii.eqb Bool.eqb].
  rewrite bitXor_bytes by assumption. apply Z.eqb_refl.
Qed.

Lemma opGives_clear initial m :
  isByte initial -> isByte m ->
  opGives "&=" initial (Z.land (JS.bitNot (VNum m)) 255)
          (Z.land initial (Z.lnot m)) = true.
Proof.
  intros Hi Hm. unfold opGives, applyOp. cbn [String.eqb Ascii.eqb Bool.eqb].
  destruct (bitAnd_bytes initial (Z.land (JS.bitNot (VNum m)) 255)
              Hi (land_255_byte _)) as [E _].
  rewrite E. unfold JS.bitNot, JS.int32. rewrite toInt32_byte by assumption.
  apply Z.eqb_eq. rewrite <- (land_255_of_byte initial Hi) at 2. bitwise.
Qed.

Lemma opGives_assign v : isByte v -> opGives "=" 0 v v = true.
Proof.
  intros Hv. unfold opGives, applyOp. cbn [String.eqb Ascii.eqb Bool.eqb].
  unfold JS.byteOf, JS.int32. rewrite toInt32_byte by assumption.
  rewrite land_255_of_byte by assumption. apply Z.eqb_refl.
Qed.

Lemma lxor_changes i m : m <> 0 -> Z.lxor i m <> i.
Proof.
  intros Hm H. apply Hm.
  assert (E : Z.lxor i (Z.lxor i m) = m) by bitwise.
  rewrite H, Z.lxor_nilpotent in E. symmetry. exact E.
Qed.

Lemma clear_changes i m :
  m <> 0 -> Z.land (Z.lor i m) (Z.lnot m) <> Z.lor i m.
Proof.
  intros Hm H. apply Hm.
  assert (E1 : Z.land (Z.land (Z.lor i m) (Z.lnot m)) m = 0) by bitwise.
  assert (E2 : Z.land (Z.lor i m) m = m) by bitwise.
  rewrite H, E2 in E1. exact E1.
Qed.

(** *** The sample answers, for every port and every choice of bits *)

Lemma set_sample_parses p bits :
  In p Generator.commonPorts -> In bits ascendingBits ->
  match bits with
  | [] => true
  | _ => oneStatement (setSample p bits) (port p) "|="
                      (Generator.orBits 0 bits)
  end = true.
Proof.
  apply (forall_ports_bits (fun p bits =>
    match bits with
    | [] => true
    | _ => oneStatement (setSample p bits) (port p) "|="
                        (Generator.orBits 0 bits)
    end)).
  vm_compute. reflexivity.
Qed.

Lemma toggle_sample_parses p bits :
  In p Generator.commonPorts -> In bits ascendingBits ->
  match bits with
  | [] => true
  | _ => oneStatement (toggleSample p bits) (port p) "^="
                      (Generator.orBits 0 bits)
  end = true.
Proof.
  apply (forall_ports_bits (fun p bits =>
    match bits with
    | [] => true
    | _ => oneStatement (toggleSample p bits) (port p) "^="
                        (Generator.orBits 0 bits)
    end)).
  vm_compute. reflexivity.
Qed.

Lemma clear_sample_parses p bits :
  In p Generator.commonPorts -> In bits ascendingBits ->
  match bits with
  | [] => true
  | _ => oneStatement (clearSample p bits) (port p) "&=" (clearMask bits)
  end = true.
Proof.
  apply (forall_ports_bits (fun p bits =>
    match bits with
    | [] => true
    | _ => oneStatement (clearSample p bits) (port p) "&=" (clearMask bits)
    end)).
  vm_compute. reflexivity.
Qed.

Lemma hex_sample_parses p bits :
  In p Generator.commonPorts -> In bits ascendingBits ->
  oneStatement (port p ++ " = " ++ Generator.toHex (Generator.orBits 0 bits)
                ++ ";")
               (port p) "=" (Generator.orBits 0 bits) = true.
Proof.
  apply (forall_ports_bits (fun p bits =>
    oneStatement (port p ++ " = " ++ Generator.toHex (Generator.orBits 0 bits)
                  ++ ";")
                 (port p) "=" (Generator.orBits 0 bits))).
  vm_compute. reflexivity.
Qed.

Lemma combined_sample_parses p bits :
  In p Generator.commonPorts -> In bits ascendingBits ->
  (if (3 <=? length bits)%nat && (length bits <=? 5)%nat then
     let mid := ((length bits + 1) / 2)%nat in
     twoStatements (combinedSample p (take mid bits) (drop mid bits))
                   (port p) "|=" (Generator.orBits 0 (take mid bits))
                   "&=" (clearMask (drop mid bits))
   else true) = true.
Proof.
  apply (forall_ports_bits (fun p bits =>
    if (3 <=? length bits)%nat && (length bits <=? 5)%nat then
      let mid := ((length bits + 1) / 2)%nat in
      twoStatements (combinedSample p (take mid bits) (drop mid bits))
                    (port p) "|=" (Generator.orBits 0 (take mid bits))
                    "&=" (clearMask (drop mid bits))
    else true)).
  vm_compute. reflexivity.
Qed.

(** *** The generators *)

Lemma nonempty_list {A} (l : list A) n :
  length l = Z.to_nat n -> 1 <= n -> l <> [].
Proof. intros H Hn ->. simpl in H. lia. Qed.

Lemma gwp_genHexAssign d :
  gwp (Generator.genHexAssign d)
      (fun q => sound Generator.hex_assign d q
                /\ Generator.expectedValue q <> 0
                /\ Generator.initialValue q = 0).
Proof.
  unfold Generator.genHexAssign.
  eapply gwp_bind; [apply gwp_getCommonPort|]. intros p Hp.
  apply gwp_bind with (P := fun n => 1 <= n <= 8).
  { destruct (d <=? 3); [|destruct (d <=? 6)];
      (eapply gwp_conseq; [apply gwp_randInt; lia|]);
      intros v Hv; cbv beta in Hv; lia. }
  intros n Hn.
  eapply gwp_bind; [apply gwp_randBits; lia|]. intros bits [Hb Hl].
  eapply gwp_bind; [apply gwp_uid|]. intros _ _. apply gwp_ret.
  pose proof (ascending_valid bits Hb) as Hv.
  destruct (orBits_spec bits Hv 0 ltac:(unfold isByte; lia)) as [_ Hbyte].
  destruct (ascending_masks bits Hb) as [_ Hnz].
  unfold sound. split_all.
  - apply (solved_one _ "=" (Generator.orBits 0 bits)); [reflexivity| |].
    + exact (hex_sample_parses p bits Hp Hb).
    + apply opGives_assign, Hbyte.
  - unfold isByte. simpl. lia.
  - exact Hbyte.
  - reflexivity.
  - reflexivity.
  - apply Hnz. eapply nonempty_list; [exact Hl|lia].
  - reflexivity.
Qed.

Lemma gwp_genSetBits d :
  gwp (Generator.genSetBits d) (sound Generator.set_bits d).
Proof.
  unfold Generator.genSetBits.
  eapply gwp_bind; [apply gwp_getCommonPort|]. intros p Hp.
  apply gwp_bind with (P := isByte).
  { destruct (d <=? 4); [apply gwp_ret; unfold isByte; lia|].
    apply gwp_byte; lia. }
  intros initial Hi.
  eapply gwp_bind; [apply gwp_bitCountFor|]. intros n Hn. cbv beta in Hn.
  eapply gwp_bind; [apply gwp_randBits; lia|]. intros bits [Hb Hl].
  eapply gwp_bind; [apply gwp_uid|]. intros _ _. apply gwp_ret.
  pose proof (ascending_valid bits Hb) as Hv.
  destruct (orBits_spec bits Hv 0 ltac:(unfold isByte; lia)) as [_ Hm].
  destruct (orBits_spec bits Hv initial Hi) as [E Hbyte].
  pose proof (set_sample_parses p bits Hp Hb) as Hs.
  assert (Hne : bits <> []) by (eapply nonempty_list; [exact Hl|lia]).
  unfold sound. split_all.
  - apply (solved_one _ "|=" (Generator.orBits 0 bits)); [reflexivity| |].
    + destruct bits; [contradiction|]. exact Hs.
    + cbn [Generator.initialValue Generator.expectedValue].
      rewrite mask8_of_byte, E by assumption.
      apply opGives_or; assumption.
  - exact Hi.
  - apply mask8_byte.
  - reflexivity.
  - reflexivity.
Qed.

Lemma gwp_genToggleBits d :
  gwp (Generator.genToggleBits d)
      (fun q => sound Generator.toggle_bits d q
                /\ Generator.expectedValue q <> Generator.initialValue q).
Proof.
  unfold Generator.genToggleBits.
  eapply gwp_bind; [apply gwp_getCommonPort|]. intros p Hp.
  eapply gwp_bind; [apply gwp_byte; lia|]. intros initial Hi.
  eapply gwp_bind; [apply gwp_bitCountFor|]. intros n Hn. cbv beta in Hn.
  eapply gwp_bind; [apply gwp_randBits; lia|]. intros bits [Hb Hl].
  eapply gwp_bind; [apply gwp_uid|]. intros _ _. apply gwp_ret.
  pose proof (ascending_valid bits Hb) as Hv.
  destruct (orBits_spec bits Hv 0 ltac:(unfold isByte; lia)) as [_ Hm].
  destruct (xorBits_spec bits Hv initial Hi) as [E Hbyte].
  destruct (ascending_masks bits Hb) as [Exor Hnz].
  pose proof (toggle_sample_parses p bits Hp Hb) as Hs.
  assert (Hne : bits <> []) by (eapply nonempty_list; [exact Hl|lia]).
  unfold sound. cbn [Generator.initialValue Generator.expectedValue].
  rewrite mask8_of_byte, E, Exor by assumption. split_all.
  - apply (solved_one _ "^=" (Generator.orBits 0 bits)); [reflexivity| |].
    + destruct bits; [contradiction|]. exact Hs.
    + apply opGives_xor; assumption.
  - exact Hi.
  - apply lxor_byte; assumption.
  - reflexivity.
  - reflexivity.
  - apply lxor_changes, Hnz, Hne.
Qed.

Lemma gwp_genClearBits d :
  gwp (Generator.genClearBits d)
      (fun q => sound Generator.clear_bits d q
                /\ Generator.expectedValue q <> Generator.initialValue q).
Proof.
  unfold Generator.genClearBits.
  eapply gwp_bind; [apply gwp_getCommonPort|]. intros p Hp.
  eapply gwp_bind; [apply gwp_bitCountFor|]. intros n Hn. cbv beta in Hn.
  eapply gwp_bind; [apply gwp_randBits; lia|]. intros bits [Hb Hl].
  eapply gwp_bind; [apply gwp_byte; lia|]. intros initial0 Hi0.
  eapply gwp_bind; [apply gwp_uid|]. intros _ _. apply gwp_ret.
  pose proof (ascending_valid bits Hb) as Hv.
  destruct (orBits_spec bits Hv 0 ltac:(unfold isByte; lia)) as [_ Hm].
  destruct (orBits_spec bits Hv initial0 Hi0) as [E0 Hi].
  destruct (clearBits_spec bits Hv _ Hi) as [E Hbyte].
  destruct (ascending_masks bits Hb) as [_ Hnz].
  pose proof (clear_sample_parses p bits Hp Hb) as Hs.
  assert (Hne : bits <> []) by (eapply nonempty_list; [exact Hl|lia]).
  unfold sound. cbn [Generator.initialValue Generator.expectedValue].
  rewrite !(mask8_of_byte (Generator.orBits initial0 bits)) by assumption.
  rewrite mask8_of_byte, E by assumption. split_all.
  - apply (solved_one _ "&=" (clearMask bits)); [reflexivity| |].
    + destruct bits; [contradiction|]. exact Hs.
    + apply opGives_clear; assumption.
  - exact Hi.
  - apply land_byte_l, Hi.
  - reflexivity.
  - reflexivity.
  - rewrite E0. apply clear_changes, Hnz, Hne.
Qed.

Lemma gwp_genCombinedOps d :
  gwp (Generator.genCombinedOps d) (sound Generator.combined_ops d).
Proof.
  unfold Generator.genCombinedOps.
  eapply gwp_bind; [apply gwp_getCommonPort|]. intros p Hp.
  eapply gwp_bind; [apply gwp_byte; lia|]. intros initial Hi.
  eapply gwp_bind; [apply gwp_randInt; lia|]. intros n Hn. cbv beta in Hn.
  eapply gwp_bind; [apply gwp_randBits; lia|]. intros bits [Hb Hl].
  eapply gwp_bind; [apply gwp_uid|]. intros _ _. apply gwp_ret.
  pose proof (ascending_valid bits Hb) as Hv.
  set (mid := ((length bits + 1) / 2)%nat).
  assert (Hset : Forall validBit (take mid bits)) by apply Forall_take, Hv.
  assert (Hclr : Forall validBit (drop mid bits)) by apply Forall_drop, Hv.
  destruct (orBits_spec _ Hset 0 ltac:(unfold isByte; lia)) as [_ Hms].
  destruct (orBits_spec _ Hclr 0 ltac:(unfold isByte; lia)) as [_ Hmc].
  destruct (orBits_spec _ Hset initial Hi) as [E1 Hmid].
  destruct (clearBits_spec _ Hclr _ Hmid) as [E2 Hbyte].
  pose proof (combined_sample_parses p bits Hp Hb) as Hs.
  replace ((3 <=? length bits)%nat && (length bits <=? 5)%nat) with true
    in Hs by (symmetry; apply andb_true_intro; split; apply Nat.leb_le; lia).
  unfold sound. cbn [Generator.initialValue Generator.expectedValue].
  rewrite mask8_of_byte by assumption. split_all.
  - apply (solved_two _ "|=" (Generator.orBits 0 (take mid bits))
                      "&=" (clearMask (drop mid bits))
                      (Z.lor initial (Generator.orBits 0 (take mid bits))));
      [reflexivity|exact Hs| |].
    + apply opGives_or; assumption.
    + cbn [Generator.initialValue Generator.expectedValue].
      rewrite E2, E1.
      apply opGives_clear; [|assumption]. apply lor_byte; assumption.
  - exact Hi.
  - exact Hbyte.
  - reflexivity.
  - reflexivity.
Qed.

(** *** A larger recursion budget changes no result of the parser *)

Lemma stable_refl {A} (m : M A) : stable m m.
Proof. intros ts r H. exact H. Qed.

Lemma stable_bind {A B} (m m' : M A) (k k' : A -> M B) :
  stable m m' -> (forall a, stable (k a) (k' a)) ->
  stable (m ≫= k) (m' ≫= k').
Proof.
  intros Hm Hk ts r. unfold mbind, M_bind, bind.
  destruct (m ts) as [[[a ts']|msg]|] eqn:E; [| |discriminate].
  - rewrite (Hm _ _ E). apply Hk.
  - rewrite (Hm _ _ E). auto.
Qed.

Lemma stable_zero {A} (m : M A) : stable outOfFuel m.
Proof. intros ts r H. discriminate H. Qed.

Ltac stable_step :=
  first
    [ apply stable_refl
    | assumption
    | match goal with H : forall _, stable _ _ |- _ => apply H end
    | apply stable_bind; [|intros ?]
    | match goal with
      | |- stable (if ?c then _ else _) _ => destruct c
      | |- stable (match ?x with _ => _ end) _ => destruct x
      end ].

Lemma parser_stable n :
  stable (parseOr n) (parseOr (S n)) /\
  (forall l, stable (orLoop n l) (orLoop (S n) l)) /\
  stable (parseXor n) (parseXor (S n)) /\
  (forall l, stable (xorLoop n l) (xorLoop (S n) l)) /\
  stable (parseAnd n) (parseAnd (S n)) /\
  (forall l, stable (andLoop n l) (andLoop (S n) l)) /\
  stable (parseShift n) (parseShift (S n)) /\
  (forall l, stable (shiftLoop n l) (shiftLoop (S n) l)) /\
  stable (parseUnary n) (parseUnary (S n)) /\
  stable (parsePrimary n) (parsePrimary (S n)).
Proof.
  induction n as [|n (Ho & Hol & Hx & Hxl & Ha & Hal & Hs & Hsl & Hu & Hp)].
  - split_all; intros; apply stable_zero.
  - split_all; intros;
      rewrite ?parseOr_S, ?orLoop_S, ?parseXor_S, ?xorLoop_S, ?parseAnd_S,
        ?andLoop_S, ?parseShift_S, ?shiftLoop_S, ?parseUnary_S,
        ?parsePrimary_S;
      repeat stable_step.
Qed.

Lemma parseStatement_fuel_stable n m :
  (n <= m)%nat -> stable (parseStatement_fuel n) (parseStatement_fuel m).
Proof.
  induction 1 as [|m _ IH]; [apply stable_refl|].
  intros ts r H. apply IH in H. revert ts r H.
  change (stable (parseStatement_fuel m) (parseStatement_fuel (S m))).
  destruct (parser_stable m) as (Ho & _).
  unfold parseStatement_fuel, Parser.parseExpression.
  repeat stable_step.
Qed.

(** What [parseStatement] returns with some budget, it returns. *)
Lemma parseStatement_enough n ts r :
  parseStatement_fuel n ts = Some r -> (n <= fuelFor ts)%nat ->
  parseStatement ts = Some r.
Proof.
  intros H Hn. exact (parseStatement_fuel_stable _ _ Hn ts r H).
Qed.

(** ** Masks of named bits: [R o (1<<A)|(1<<B);] *)

Lemma orTerms_cons nm more :
  orTerms (nm :: more) = shiftTerm nm ++ moreTerms more.
Proof.
  revert nm. induction more as [|m more IH]; intros nm.
  - symmetry. apply append_nil_r.
  - change (orTerms (nm :: m :: more))
      with (shiftTerm nm ++ "|" ++ orTerms (m :: more)).
    rewrite IH. reflexivity.
Qed.

Lemma tokenizeFrom_rparen rest :
  tokenizeFrom (")" ++ rest) 0 = tok RPAREN ")" :: tokenizeFrom rest 0.
Proof. destruct rest; reflexivity. Qed.

Lemma tokenizeFrom_term nm rest :
  isIdentifier nm = true ->
  tokenizeFrom (shiftTerm nm ++ rest) 0 =
  (termTokens nm ++ tokenizeFrom rest 0)%list.
Proof.
  intros Hnm. unfold shiftTerm. rewrite !append_assoc.
  change (tokenizeFrom ("(1<<" ++ ?s) 0)
    with (tok LPAREN "(" :: numTok "1" 1 :: tok LSHIFT "<<"
          :: tokenizeFrom s 0).
  rewrite tokenizeFrom_identifier by (assumption || reflexivity).
  rewrite tokenizeFrom_rparen. reflexivity.
Qed.

Lemma tokenizeFrom_pipe nm s :
  tokenizeFrom ("|" ++ shiftTerm nm ++ s) 0 =
  tok OR "|" :: tokenizeFrom (shiftTerm nm ++ s) 0.
Proof. reflexivity. Qed.

Lemma tokenizeFrom_moreTerms more rest :
  Forall (fun nm => isIdentifier nm = true) more ->
  tokenizeFrom (moreTerms more ++ rest) 0 =
  (moreTokens more ++ tokenizeFrom rest 0)%list.
Proof.
  induction 1 as [|nm more Hnm _ IH]; [reflexivity|].
  cbn [moreTerms moreTokens]. rewrite !append_assoc.
  rewrite tokenizeFrom_pipe, tokenizeFrom_term by assumption.
  rewrite IH. reflexivity.
Qed.

Lemma tokenizeFrom_assign o ty s :
  assignType o = Some ty ->
  tokenizeFrom (" " ++ o ++ " " ++ s) 0 = tok ty o :: tokenizeFrom s 0.
Proof.
  unfold assignType. intros H.
  destruct (String.eqb_spec o "=") as [->|_];
    [injection H as <-; reflexivity|].
  destruct (String.eqb_spec o "|=") as [->|_];
    [injection H as <-; reflexivity|].
  destruct (String.eqb_spec o "&=") as [->|_];
    [injection H as <-; reflexivity|].
  destruct (String.eqb_spec o "^=") as [->|_];
    [injection H as <-; reflexivity|discriminate].
Qed.

Lemma tokenize_maskStatement R o ty nm more :
  isIdentifier R = true -> assignType o = Some ty ->
  Forall (fun nm => isIdentifier nm = true) (nm :: more) ->
  tokenize (maskStatement R o (nm :: more)) =
  tok IDENTIFIER R :: tok ty o
  :: (termTokens nm ++ moreTokens more ++ [tok SEMICOLON ";"; eofToken])%list.
Proof.
  intros HR Ho Hn. apply Forall_cons in Hn. destruct Hn as [Hnm Hmore].
  unfold tokenize, maskStatement.
  rewrite trim_identifier_first; [|assumption|no_trailing_space].
  rewrite tokenizeFrom_identifier by (assumption || reflexivity).
  rewrite (tokenizeFrom_assign o ty) by assumption.
  rewrite orTerms_cons, !append_assoc.
  rewrite tokenizeFrom_term by assumption.
  rewrite tokenizeFrom_moreTerms by assumption.
  reflexivity.
Qed.

Lemma parseUnary_primary n ts :
  type (hd eofToken ts) <> NOT -> parseUnary (S n) ts = parsePrimary n ts.
Proof.
  intros H. rewrite parseUnary_S. unfold mbind at 1, M_bind, bind, peek.
  destruct (decide _); [contradiction | reflexivity].
Qed.

Lemma parsePrimary_number n s v ts :
  parsePrimary (S n) (numTok s v :: ts) = Some (Ok (VNum v, ts)).
Proof. rewrite parsePrimary_S. reflexivity. Qed.

Lemma parsePrimary_paren n ts :
  parsePrimary (S n) (tok LPAREN "(" :: ts) =
  (val ← parseOr n; expect RPAREN;; ret val) ts.
Proof. rewrite parsePrimary_S. reflexivity. Qed.

Lemma expect_rparen ts :
  expect RPAREN (tok RPAREN ")" :: ts) = Some (Ok (tok RPAREN ")", ts)).
Proof.
  unfold expect, mbind, M_bind, bind, peek, advance, ret.
  cbv beta iota delta [hd tl type tok].
  destruct (decide _); [reflexivity|contradiction].
Qed.

Lemma shiftLoop_lshift n left ts :
  shiftLoop (S n) left (tok LSHIFT "<<" :: ts) =
  (right ← parseUnary n; shiftLoop n (byte (JS.shl left right))) ts.
Proof.
  rewrite shiftLoop_S. unfold mbind at 1, M_bind, bind, peek.
  cbv beta iota delta [hd type tok].
  destruct (decide _); [reflexivity|contradiction].
Qed.

Lemma orLoop_or n left ts :
  orLoop (S n) left (tok OR "|" :: ts) =
  (r ← parseXor n; orLoop n (byte (JS.bitOr left r))) ts.
Proof.
  rewrite orLoop_S. unfold mbind at 1, M_bind, bind, peek.
  cbv beta iota delta [hd type tok].
  destruct (decide _); [reflexivity|contradiction].
Qed.

(** The loops above the or-loop stop at a token that is no operator of
    theirs. *)
Lemma inner_loops_stop n left t rest :
  type t <> XOR -> type t <> AND -> type t <> LSHIFT -> type t <> RSHIFT ->
  shiftLoop (S n) left (t :: rest) = Some (Ok (left, t :: rest)) /\
  andLoop (S n) left (t :: rest) = Some (Ok (left, t :: rest)) /\
  xorLoop (S n) left (t :: rest) = Some (Ok (left, t :: rest)).
Proof.
  intros Hxor Hand Hl Hr.
  rewrite shiftLoop_S, andLoop_S, xorLoop_S.
  unfold mbind, M_bind, bind, peek, ret.
  cbv beta iota delta [hd].
  repeat destruct (decide _); try contradiction. auto.
Qed.

(** The operand [1 << name] up to the closing parenthesis. *)
Lemma parseOr_shift_name n nm v rest :
  allNamedBits !! nm = Some v ->
  parseOr (S (S (S (S (S (S (S n)))))))
    (numTok "1" 1 :: tok LSHIFT "<<" :: tok IDENTIFIER nm
     :: tok RPAREN ")" :: rest) =
  Some (Ok (byte (JS.shl (VNum 1) (VNum v)), tok RPAREN ")" :: rest)).
Proof.
  intros Hv.
  assert (Hstop : stopsExpression (tok RPAREN ")"))
    by (unfold stopsExpression; simpl; split_all; discriminate).
  set (val := byte (JS.shl (VNum 1) (VNum v))).
  destruct (loops_stop (S n) val _ rest Hstop) as (Hs & _).
  destruct (loops_stop (S (S (S n))) val _ rest Hstop) as (_ & Ha & _).
  destruct (loops_stop (S (S (S (S n)))) val _ rest Hstop)
    as (_ & _ & Hx & _).
  destruct (loops_stop (S (S (S (S (S n))))) val _ rest Hstop)
    as (_ & _ & _ & Ho).
  rewrite parseOr_S. erewrite bind_Ok; [exact Ho|].
  rewrite parseXor_S. erewrite bind_Ok; [exact Hx|].
  rewrite parseAnd_S. erewrite bind_Ok; [exact Ha|].
  rewrite parseShift_S. erewrite bind_Ok.
  2:{ rewrite parseUnary_primary by discriminate.
      apply parsePrimary_number. }
  rewrite shiftLoop_lshift. erewrite bind_Ok.
  2:{ rewrite parseUnary_primary by discriminate.
      rewrite parsePrimary_identifier.
      unfold hasProperty. rewrite Hv.
      rewrite (getProperty_own _ _ _ Hv). reflexivity. }
  exact Hs.
Qed.

(** The term [(1<<name)] before a token that continues no term. *)
Lemma parseXor_term n nm v t rest :
  allNamedBits !! nm = Some v ->
  type t <> XOR -> type t <> AND -> type t <> LSHIFT -> type t <> RSHIFT ->
  parseXor (12 + n) (termTokens nm ++ t :: rest)%list =
  Some (Ok (VNum (2 ^ v), t :: rest)).
Proof.
  intros Hv Hxor Hand Hl Hr.
  pose proof (allNamedBits_indices _ _ Hv) as Hrange.
  assert (Eval : byte (JS.shl (VNum 1) (VNum v)) = VNum (2 ^ v)).
  { unfold byte. rewrite one_shl_bit by assumption. reflexivity. }
  cbn [Nat.add]. unfold termTokens. cbn [app].
  destruct (inner_loops_stop (S (S (S (S (S (S (S (S n))))))))
              (VNum (2 ^ v)) t rest Hxor Hand Hl Hr) as (Hs & _).
  destruct (inner_loops_stop (S (S (S (S (S (S (S (S (S n)))))))))
              (VNum (2 ^ v)) t rest Hxor Hand Hl Hr) as (_ & Ha & _).
  destruct (inner_loops_stop (S (S (S (S (S (S (S (S (S (S n))))))))))
              (VNum (2 ^ v)) t rest Hxor Hand Hl Hr) as (_ & _ & Hx).
  rewrite parseXor_S. erewrite bind_Ok; [exact Hx|].
  rewrite parseAnd_S. erewrite bind_Ok; [exact Ha|].
  rewrite parseShift_S. erewrite bind_Ok; [exact Hs|].
  rewrite parseUnary_primary by discriminate.
  rewrite parsePrimary_paren.
  erewrite bind_Ok; [|apply parseOr_shift_name, Hv].
  erewrite bind_Ok; [|apply expect_rparen].
  rewrite Eval. reflexivity.
Qed.

Lemma bitOfName_known nm v :
  allNamedBits !! nm = Some v -> bitOfName nm = 2 ^ v /\ isByte (2 ^ v).
Proof.
  intros Hv. unfold bitOfName. rewrite Hv. split; [reflexivity|].
  apply pow2_bit_byte. exact (allNamedBits_indices _ _ Hv).
Qed.

Lemma maskOfNames_byte names : forall acc,
  Forall knownBit names -> isByte acc -> isByte (maskOfNames acc names).
Proof.
  induction names as [|nm names IH]; intros acc Hk Ha; [exact Ha|].
  apply Forall_cons in Hk. destruct Hk as [[v Hv] Hk].
  destruct (bitOfName_known nm v Hv) as [E Hb].
  cbn [maskOfNames foldl]. apply IH; [exact Hk|].
  rewrite E. apply lor_byte; assumption.
Qed.

Lemma next_token_after_terms more t rest :
  type t <> XOR -> type t <> AND -> type t <> LSHIFT -> type t <> RSHIFT ->
  exists t' rest',
    (moreTokens more ++ t :: rest)%list = t' :: rest' /\
    type t' <> XOR /\ type t' <> AND /\ type t' <> LSHIFT /\
    type t' <> RSHIFT.
Proof.
  intros. destruct more as [|m more].
  - exists t, rest. auto.
  - eexists _, _. split; [reflexivity|]. simpl. split_all; discriminate.
Qed.

Lemma orLoop_terms more : forall n left t rest,
  Forall knownBit more -> isByte left -> stopsExpression t ->
  orLoop (S (length more + (12 + n))) (VNum left)
         (moreTokens more ++ t :: rest)%list =
  Some (Ok (VNum (maskOfNames left more), t :: rest)).
Proof.
  induction more as [|nm more IH]; intros n left t rest Hk Hl Ht.
  - apply loops_stop, Ht.
  - apply Forall_cons in Hk. destruct Hk as [[v Hv] Hk].
    destruct (bitOfName_known nm v Hv) as [E Hb].
    destruct Ht as (Hor & Hxor & Hand & Hls & Hrs).
    destruct (next_token_after_terms more t rest Hxor Hand Hls Hrs)
      as (t' & rest' & En & Hx' & Ha' & Hl' & Hr').
    change (S (length (nm :: more) + (12 + n)))
      with (S (S (length more + (12 + n)))).
    cbn [moreTokens app]. rewrite <- app_assoc, En.
    rewrite orLoop_or. erewrite bind_Ok.
    2:{ replace (S (length more + (12 + n)))
          with (12 + (S (length more + n)))%nat by lia.
        apply (parseXor_term _ nm v); assumption. }
    unfold byte. rewrite bitOr_bytes by assumption.
    rewrite <- En, IH; [|assumption|apply lor_byte; assumption|].
    + cbn [maskOfNames foldl]. rewrite E. reflexivity.
    + unfold stopsExpression. auto.
Qed.

Lemma parseOr_terms nm more n t rest :
  Forall knownBit (nm :: more) -> stopsExpression t ->
  parseOr (S (S (length more + (12 + n))))
          (termTokens nm ++ moreTokens more ++ t :: rest)%list =
  Some (Ok (VNum (maskOfNames 0 (nm :: more)), t :: rest)).
Proof.
  intros Hk Ht. apply Forall_cons in Hk. destruct Hk as [[v Hv] Hk].
  destruct (bitOfName_known nm v Hv) as [E Hb].
  pose proof Ht as (Hor & Hxor & Hand & Hls & Hrs).
  destruct (next_token_after_terms more t rest Hxor Hand Hls Hrs)
    as (t' & rest' & En & Hx' & Ha' & Hl' & Hr').
  rewrite parseOr_S, En. erewrite bind_Ok.
  2:{ replace (S (length more + (12 + n)))
        with (12 + (S (length more + n)))%nat by lia.
      apply (parseXor_term _ nm v); assumption. }
  rewrite <- En, orLoop_terms by assumption.
  cbn [maskOfNames foldl]. rewrite E. reflexivity.
Qed.

Lemma parseStatement_op n R o ty ts :
  assignType o = Some ty ->
  parseStatement_fuel n (tok IDENTIFIER R :: tok ty o :: ts) =
  match parseOr n ts with
  | None => None
  | Some (Throw msg) => Some (Throw msg)
  | Some (Ok (v, ts')) =>
      Some (Ok (Some {| register := R; stmtValue := v; op := o |},
                if decide (type (hd eofToken ts') = SEMICOLON)
                then tl ts' else ts'))
  end.
Proof.
  unfold assignType. intros H.
  assert (Hcases : (o = "=" /\ ty = ASSIGN) \/ (o = "|=" /\ ty = OR_ASSIGN)
                   \/ (o = "&=" /\ ty = AND_ASSIGN)
                   \/ (o = "^=" /\ ty = XOR_ASSIGN)).
  { destruct (String.eqb_spec o "=") as [->|_];
      [injection H as <-; auto|].
    destruct (String.eqb_spec o "|=") as [->|_];
      [injection H as <-; auto|].
    destruct (String.eqb_spec o "&=") as [->|_];
      [injection H as <-; auto|].
    destruct (String.eqb_spec o "^=") as [->|_];
      [injection H as <-; auto 6|discriminate]. }
  clear H.
  destruct Hcases as [[-> ->]|[[-> ->]|[[-> ->]|[-> ->]]]];
    unfold parseStatement_fuel, Parser.parseExpression;
    unfold expect, mbind, M_bind, bind, peek, advance, ret;
    cbv beta iota delta [hd tl type value numValue tok];
    repeat (destruct (decide _) as [?|_]; [discriminate|]);
    (destruct (decide _) as [_|?]; [|contradiction]);
    cbv beta iota;
    (destruct (parseOr n ts) as [[[v ts']|msg]|];
      [|reflexivity|reflexivity]);
    destruct (decide _); reflexivity.
Qed.

Lemma length_moreTokens more :
  length (moreTokens more) = (6 * length more)%nat.
Proof.
  induction more as [|nm more IH]; [reflexivity|].
  cbn [moreTokens length]. unfold termTokens. cbn [app length].
  rewrite IH. lia.
Qed.

Lemma parse_maskStatement R o ty nm more :
  assignType o = Some ty -> Forall knownBit (nm :: more) ->
  parseStatement
    (tok IDENTIFIER R :: tok ty o
     :: termTokens nm ++ moreTokens more ++ [tok SEMICOLON ";"; eofToken])%list =
  Some (Ok (Some {| register := R;
                    stmtValue := VNum (maskOfNames 0 (nm :: more));
                    op := o |}, [eofToken])).
Proof.
  intros Ho Hk.
  apply (parseStatement_enough (S (S (length more + (12 + 0))))).
  - rewrite parseStatement_op by assumption.
    rewrite parseOr_terms.
    + destruct (decide _); [reflexivity|contradiction].
    + exact Hk.
    + unfold stopsExpression. simpl. split_all; discriminate.
  - unfold fuelFor. cbn [length]. rewrite !length_app, length_moreTokens.
    lia.
Qed.

Lemma allNamedBits_identifiers nm v :
  allNamedBits !! nm = Some v -> isIdentifier nm = true.
Proof.
  intros Hv.
  assert (H : forallb (fun kn => isIdentifier (fst kn))
                (map_to_list allNamedBits) = true) by (vm_compute; reflexivity).
  exact (map_forallb_lookup _ _ H nm v Hv).
Qed.

Lemma validOp_assignType o : validOp o -> exists ty, assignType o = Some ty.
Proof. intros [ -> | [ -> | [ -> | -> ] ] ]; eexists; reflexivity. Qed.

Lemma applyOp_valid o before v : validOp o -> exists a, applyOp o before v = Ok a.
Proof. intros [ -> | [ -> | [ -> | -> ] ] ]; eexists; reflexivity. Qed.

Lemma trim_maskStatement R o names :
  isIdentifier R = true ->
  Str.trim (maskStatement R o names) = maskStatement R o names /\
  Str.isEmpty (maskStatement R o names) = false.
Proof.
  intros HR. unfold maskStatement. split.
  - apply trim_identifier_first; [assumption|no_trailing_space].
  - destruct R; [discriminate|reflexivity].
Qed.

Lemma parse_tokenize_maskStatement R o names :
  isIdentifier R = true -> validOp o -> names <> [] ->
  Forall knownBit names ->
  parseStatement (tokenize (maskStatement R o names)) =
  Some (Ok (Some {| register := R; stmtValue := VNum (maskOfNames 0 names);
                    op := o |}, [eofToken])).
Proof.
  intros HR Ho Hne Hk. destruct names as [|nm more]; [contradiction|].
  destruct (validOp_assignType o Ho) as [ty Hty].
  rewrite (tokenize_maskStatement R o ty) by
    (assumption ||
     (eapply Forall_impl; [exact Hk|];
      intros x [v Hv]; exact (allNamedBits_identifiers x v Hv))).
  apply parse_maskStatement; assumption.
Qed.

Lemma mask_statement_run R o names st :
  isIdentifier R = true -> validOp o -> names <> [] ->
  Forall knownBit names ->
  exists after,
    applyOp o (JS.nullish (getProperty st R) (VNum 0))
            (VNum (maskOfNames 0 names)) = Ok after /\
    evaluate (maskStatement R o names) st =
    Some (succeeded (setProperty st R after)
            [ {| stepRegister := R; stepOp := o;
                 exprValue := VNum (maskOfNames 0 names);
                 before := JS.nullish (getProperty st R) (VNum 0);
                 after := after |} ]).
Proof.
  intros HR Ho Hne Hk.
  destruct (applyOp_valid o (JS.nullish (getProperty st R) (VNum 0))
              (VNum (maskOfNames 0 names)) Ho) as [after Ha].
  exists after. split; [exact Ha|].
  rewrite evaluate_unfold, maxStatements_S.
  erewrite evalLoop_commit;
    [|apply parse_tokenize_maskStatement; assumption|exact Ha].
  rewrite evalLoop_eof. reflexivity.
Qed.

Lemma startValue_own st R :
  inherited R = false -> startValue st R = VNum (default 0 (st !! R)).
Proof.
  intros H. unfold startValue. rewrite H. destruct (st !! R); reflexivity.
Qed.

(** For an identifier [R] that is no member of [Object.prototype], an
    assignment operator [o] and names of the symbol table, the
    statement [R o (1<<n1)|...|(1<<nk);] succeeds with one step: its
    operand is the byte with the bits of the names, it starts from the
    value of [R] in the states, or from 0 when there is none, and [R]
    holds its new value afterwards. *)
Theorem mask_statement_evaluates R o names st :
  isIdentifier R = true -> inherited R = false -> validOp o ->
  names <> [] -> Forall knownBit names ->
  isByte (maskOfNames 0 names) /\
  exists after,
    applyOp o (VNum (default 0 (st !! R)))
            (VNum (maskOfNames 0 names)) = Ok after /\
    evaluate (maskStatement R o names) st =
    Some (succeeded (<[R := after]> st)
            [ {| stepRegister := R; stepOp := o;
                 exprValue := VNum (maskOfNames 0 names);
                 before := VNum (default 0 (st !! R));
                 after := after |} ]).
Proof.
  intros HR Hi Ho Hne Hk. split.
  - apply maskOfNames_byte; [exact Hk|unfold isByte; lia].
  - destruct (mask_statement_run R o names st HR Ho Hne Hk)
      as (after & Ha & E).
    rewrite nullish_getProperty, startValue_own in Ha, E by exact Hi.
    rewrite setProperty_insert in E by (intros ->; discriminate Hi).
    exists after. split; assumption.
Qed.

Lemma mask_statement_evaluates_witness :
  finalOf (evaluate "UCSR0B |= (1<<RXEN0)|(1<<TXEN0);" {[ "UCSR0B" := 1 ]})
          "UCSR0B" = Some 25.
Proof.
  destruct (mask_statement_evaluates "UCSR0B" "|=" ["RXEN0"; "TXEN0"]
              {[ "UCSR0B" := 1 ]} eq_refl eq_refl
              ltac:(right; left; reflexivity)
              ltac:(discriminate)
              ltac:(repeat constructor; vm_compute; eauto))
    as (_ & after & Ha & E).
  change (evaluate "UCSR0B |= (1<<RXEN0)|(1<<TXEN0);" {[ "UCSR0B" := 1 ]})
    with (evaluate (maskStatement "UCSR0B" "|=" ["RXEN0"; "TXEN0"])
                   {[ "UCSR0B" := 1 ]}).
  rewrite E. vm_compute in Ha. injection Ha as <-.
  vm_compute. reflexivity.
Defined.

(** *** The statements before an error *)

Lemma evalLoop_reads n : forall ts st acc r,
  Forall goodTok ts ->
  evalLoop n ts st acc = Some r ->
  exists stmts outcome,
    readStatements n ts = Some (stmts, outcome) /\
    stepStatement <$> steps r = ((stepStatement <$> acc) ++ stmts)%list /\
    match outcome with
    | None => success r = true /\ error r = None
    | Some msg =>
        success r = false /\
        error r = Some (if Str.isEmpty msg then "Parse error" else msg)
    end.
Proof.
  induction n as [|n IH]; intros ts st acc r Hts H.
  { injection H as <-. exists [], None. simpl. rewrite app_nil_r. auto. }
  cbn [evalLoop readStatements] in *.
  pose proof (parseStatement_wp ts Hts) as Hwp. unfold wp in Hwp.
  destruct (parseStatement ts) as [[[[stmt|] ts']|msg]|];
    [| | |discriminate].
  - destruct Hwp as (_ & Hts' & _ & Hop).
    destruct (applyOp_valid (op stmt)
                (JS.nullish (getProperty st (register stmt)) (VNum 0))
                (stmtValue stmt) Hop) as [a Ha].
    rewrite Ha in H.
    destruct (IH _ _ _ _ Hts' H) as (stmts & outcome & E & Hs & Hr).
    exists (stmt :: stmts), outcome. rewrite E. split; [reflexivity|].
    split; [|exact Hr].
    rewrite Hs, fmap_app, <- app_assoc. destruct stmt; reflexivity.
  - destruct Hwp as (_ & Hts' & _). destruct (atEOF ts').
    + injection H as <-. exists [], None. simpl. rewrite app_nil_r. auto.
    + exact (IH _ _ _ _ Hts' H).
  - injection H as <-. exists [], (Some msg). simpl. rewrite app_nil_r. auto.
Qed.

(** The statements are read without regard to the register values, and
    the steps of the result are, in order, exactly the statements that
    the parser reads from the code before its first error, or before
    the end of the code or of the 100 turns.  The result fails, with
    the message of that error, exactly when an error ended the reading;
    otherwise it succeeds without an error message. *)
Theorem evaluate_keeps_statements_before_error code init :
  exists r stmts outcome,
    evaluate code init = Some r /\
    readStatements maxStatements (tokenize code) = Some (stmts, outcome) /\
    stepStatement <$> steps r = stmts /\
    match outcome with
    | None => success r = true /\ error r = None
    | Some msg =>
        success r = false /\
        error r = Some (if Str.isEmpty msg then "Parse error" else msg)
    end.
Proof.
  destruct (evaluate_total code init) as [r Hr].
  pose proof Hr as H. rewrite evaluate_unfold in H.
  destruct (evalLoop_reads _ _ _ _ _ (tokenize_good code) H)
    as (stmts & outcome & E & Hs & Ho).
  exists r, stmts, outcome. auto.
Qed.

(** *** Named bits *)

Lemma parsesTo_intro ts reg o v rest :
  parseStatement ts =
  Some (Ok (Some {| register := reg; stmtValue := VNum v; op := o |}, rest)) ->
  parsesTo ts reg o v rest = true.
Proof.
  intros E. unfold parsesTo. rewrite E. cbn [register op stmtValue].
  rewrite !String.eqb_refl, !bool_decide_eq_true_2 by reflexivity.
  reflexivity.
Qed.

(** The register table agrees with the symbol table: the names of a
    register are distinct identifiers, and each has in the symbol table
    the bit that it has in the register. *)
Lemma namedRegisterBits_known reg bits :
  In (reg, bits) namedRegisterBits ->
  isIdentifier reg = true /\ NoDup (fst <$> bits) /\
  forall nm, In nm (fst <$> bits) ->
    exists v, allNamedBits !! nm = Some v /\
              Generator.namedBit bits (Some nm) = VNum v.
Proof.
  intros Hin.
  assert (H : forallb (fun '(reg, bits) =>
                 isIdentifier reg && bool_decide (NoDup (fst <$> bits))
                 && forallb (fun '(nm, v) =>
                      bool_decide (allNamedBits !! nm = Some v)
                      && bool_decide
                           (Generator.namedBit bits (Some nm) = VNum v))
                    bits)
                namedRegisterBits = true) by (vm_compute; reflexivity).
  rewrite forallb_forall in H. specialize (H _ Hin). cbv beta iota in H.
  apply andb_prop in H. destruct H as [H H3].
  apply andb_prop in H. destruct H as [H1 H2].
  apply bool_decide_eq_true in H2. split_all; [exact H1|exact H2|].
  intros nm Hnm. apply in_map_iff in Hnm.
  destruct Hnm as ([nm' v] & <- & Hnm).
  rewrite forallb_forall in H3. specialize (H3 _ Hnm). cbv beta iota in H3.
  apply andb_prop in H3. destruct H3 as [Ha Hb].
  apply bool_decide_eq_true in Ha. apply bool_decide_eq_true in Hb.
  exists v. auto.
Qed.

Lemma namedTerms_orTerms l : Generator.namedTerms (Some <$> l) = orTerms l.
Proof.
  unfold Generator.namedTerms, orTerms. rewrite <- list_fmap_compose.
  reflexivity.
Qed.

Lemma named_expected bits l :
  (forall nm, In nm l ->
     exists v, allNamedBits !! nm = Some v /\
               Generator.namedBit bits (Some nm) = VNum v) ->
  forall e, isByte e ->
  foldl (fun e name =>
           JS.bitOr (VNum e) (VNum (Generator.bit (Generator.namedBit bits name))))
        e (Some <$> l) = maskOfNames e l.
Proof.
  induction l as [|nm l IH]; intros Hl e He; [reflexivity|].
  destruct (Hl nm (or_introl eq_refl)) as (v & Hv & Hb).
  destruct (bitOfName_known nm v Hv) as [E Hbyte].
  cbn [fmap list_fmap foldl maskOfNames]. rewrite Hb.
  rewrite step_or by (assumption || exact (allNamedBits_indices _ _ Hv)).
  rewrite E. apply IH.
  - intros x Hx. apply Hl. right. exact Hx.
  - apply lor_byte; assumption.
Qed.

Lemma maskOfNames_zero names : forall acc,
  maskOfNames acc names = 0 -> acc = 0.
Proof.
  induction names as [|nm names IH]; intros acc H; [exact H|].
  cbn [maskOfNames foldl] in H. apply IH in H.
  apply Z.lor_eq_0_iff in H. tauto.
Qed.

Lemma maskOfNames_nonzero nm more :
  knownBit nm -> maskOfNames 0 (nm :: more) <> 0.
Proof.
  intros [v Hv] H. cbn [maskOfNames foldl] in H.
  apply maskOfNames_zero in H. destruct (bitOfName_known nm v Hv) as [E _].
  rewrite E in H. apply Z.lor_eq_0_iff in H. destruct H as [_ H].
  pose proof (allNamedBits_indices _ _ Hv).
  assert (0 < 2 ^ v) by (apply Z.pow_pos_nonneg; lia). lia.
Qed.

Lemma gwp_genNamedBits d :
  gwp (Generator.genNamedBits d)
      (fun q => sound Generator.named_bits d q
                /\ Generator.expectedValue q <> 0
                /\ Generator.initialValue q = 0).
Proof.
  unfold Generator.genNamedBits.
  eapply gwp_bind; [apply gwp_randomIndex; vm_compute; reflexivity|].
  intros idx Hidx. cbv beta in Hidx.
  destruct (namedRegisterBits !! Z.to_nat idx) as [[regName bits]|] eqn:E.
  2:{ exfalso. apply lookup_ge_None in E.
      change (length namedRegisterBits) with 14%nat in *. lia. }
  assert (Hin : In (regName, bits) namedRegisterBits)
    by (apply list_elem_of_In; eapply list_elem_of_lookup_2, E).
  destruct (namedRegisterBits_known _ _ Hin) as (Hreg & Hnd & Hbits).
  assert (Hlen : (6 <= length bits)%nat).
  { assert (H : forallb (fun rb => (6 <=? length (snd rb))%nat)
                  namedRegisterBits = true) by (vm_compute; reflexivity).
    rewrite forallb_forall in H. specialize (H _ Hin).
    apply Nat.leb_le in H. exact H. }
  cbn [Generator.defined]. change (Random.ret (regName, bits) ≫= ?k)
    with (fun src => k (regName, bits) src). cbv beta iota.
  apply gwp_bind with (P := fun n => 1 <= n <= 4).
  { destruct (d <=? 4);
      (eapply gwp_conseq; [apply gwp_randInt; lia|]);
      intros v Hv; cbv beta in Hv; lia. }
  intros n Hn.
  eapply gwp_bind.
  { apply gwp_pick. rewrite length_fmap. lia. }
  intros chosen (l & -> & Hl). cbv beta.
  change ([] ++ (Some <$> l))%list with (Some <$> l).
  eapply gwp_bind; [apply gwp_uid|]. intros _ _. apply gwp_ret.
  pose proof (arrangements_length _ _ _ Hl) as Hlen'.
  destruct (arrangements_distinct _ _ _ Hl Hnd) as [_ Hsub].
  assert (Hknown : forall nm, In nm l ->
            exists v, allNamedBits !! nm = Some v /\
                      Generator.namedBit bits (Some nm) = VNum v)
    by (intros nm Hnm; apply Hbits, Hsub, Hnm).
  assert (Hk : Forall knownBit l).
  { apply Forall_forall. intros nm Hnm.
    apply list_elem_of_In, Hknown in Hnm.
    destruct Hnm as (v & Hv & _). exists v. exact Hv. }
  assert (Hne : l <> []).
  { intros ->. simpl in Hlen'. rewrite length_fmap in Hlen'. lia. }
  pose proof (maskOfNames_byte l 0 Hk ltac:(unfold isByte; lia)) as Hbyte.
  unfold sound. cbn [Generator.initialValue Generator.expectedValue].
  rewrite (named_expected bits l Hknown 0) by (unfold isByte; lia).
  rewrite mask8_of_byte by assumption.
  destruct (trim_maskStatement regName "=" l Hreg) as [Ht He].
  split_all.
  - apply solved_by_check; [reflexivity| | |];
      cbn [Generator.sampleAnswer Generator.register Generator.initialValue
           Generator.expectedValue];
      rewrite ?namedTerms_orTerms.
    + exact Ht.
    + exact He.
    + apply (checkAnswer_one (maskStatement regName "=" l) regName "="
               (maskOfNames 0 l) 0 (maskOfNames 0 l)).
      * apply parsesTo_intro, parse_tokenize_maskStatement;
          [assumption|left; reflexivity|assumption|assumption].
      * apply opGives_assign, Hbyte.
  - unfold isByte. lia.
  - exact Hbyte.
  - reflexivity.
  - reflexivity.
  - destruct l as [|nm more]; [contradiction|].
    apply maskOfNames_nonzero. apply Forall_cons in Hk. tauto.
  - reflexivity.
Qed.

(** *** Read-state questions *)

Lemma commonPorts_cases p :
  In p Generator.commonPorts ->
  Generator.commonPorts !! 0%nat = Some p \/
  Generator.commonPorts !! 1%nat = Some p \/
  Generator.commonPorts !! 2%nat = Some p \/
  Generator.commonPorts !! 3%nat = Some p.
Proof.
  intros H. apply list_elem_of_In, list_elem_of_lookup_1 in H.
  destruct H as [i Hi].
  assert (Hlt : (i < 4)%nat) by (apply lookup_lt_Some in Hi; exact Hi).
  destruct i as [|[|[|[|i]]]];
    [left|right; left|right; right; left|right; right; right|lia];
    exact Hi.
Qed.

Ltac each_port Hp :=
  apply commonPorts_cases in Hp;
  destruct Hp as [Hp|[Hp|[Hp|Hp]]];
  vm_compute in Hp; injection Hp as <-.

Ltac each_choice c Hc :=
  let b := fresh "b" in
  let o := fresh "o" in
  let Hb := fresh "Hb" in
  let Ho := fresh "Ho" in
  destruct c as [b o]; destruct Hc as [Hb Ho]; cbn [fst snd] in Hb, Ho;
  assert (Ho' : o = 0 \/ o = 1 \/ o = 2) by lia;
  assert (Hb' : b = 0 \/ b = 1 \/ b = 2 \/ b = 3 \/ b = 4 \/ b = 5
                \/ b = 6 \/ b = 7) by lia;
  clear Hb Ho;
  destruct Ho' as [->|[->| ->]];
  destruct Hb' as [->|[->|[->|[->|[->|[->|[->| ->]]]]]]].

Lemma readOp_tokens p c rest :
  In p Generator.commonPorts -> validChoice c ->
  tokenizeFrom (readOpText p c ++ rest) 0 =
  (readOpTokens p c ++ tokenizeFrom rest 0)%list.
Proof.
  intros Hp Hc. each_port Hp; each_choice c Hc; reflexivity.
Qed.

Lemma length_readOpTokens p c : (8 <= length (readOpTokens p c))%nat.
Proof.
  destruct c as [b o]. unfold readOpTokens.
  destruct (o =? 0); [|destruct (o =? 1)]; cbn [length]; lia.
Qed.

Lemma readOp_parse p c rest :
  In p Generator.commonPorts -> validChoice c ->
  parseStatement (readOpTokens p c ++ rest)%list =
  Some (Ok (Some {| register := port p; stmtValue := VNum (readOpOperand c);
                    op := readOpOperator c |}, rest)).
Proof.
  intros Hp Hc. apply (parseStatement_enough 40).
  - each_port Hp; each_choice c Hc; vm_compute; reflexivity.
  - unfold fuelFor. rewrite length_app.
    pose proof (length_readOpTokens p c). lia.
Qed.

Lemma opGives_spec o initial v expected :
  opGives o initial v expected = true ->
  applyOp o (VNum initial) (VNum v) = Ok expected.
Proof.
  unfold opGives. destruct (applyOp o (VNum initial) (VNum v)) as [a|];
    [|discriminate].
  intros H. apply Z.eqb_eq in H. now subst.
Qed.

Lemma readOp_value s c :
  validChoice c -> isByte s ->
  applyOp (readOpOperator c) (VNum s) (VNum (readOpOperand c)) =
  Ok (readOpNext s c) /\ isByte (readOpNext s c).
Proof.
  intros [Hb Ho] Hs. destruct c as [b o]. cbn [fst snd] in Hb, Ho.
  pose proof (pow2_bit_byte b Hb) as Hp.
  unfold readOpOperator, readOpOperand, readOpNext. cbn [fst snd].
  assert (Ho' : o = 0 \/ o = 1 \/ o = 2) by lia.
  destruct Ho' as [->|[->| ->]]; cbn [Z.eqb Pos.eqb].
  - rewrite step_or, mask8_of_byte by (assumption || (apply lor_byte; assumption)).
    split; [|apply lor_byte; assumption].
    apply opGives_spec, opGives_or; assumption.
  - rewrite step_clear, mask8_of_byte
      by (assumption || (apply land_byte_l; assumption)).
    split; [|apply land_byte_l; assumption].
    apply opGives_spec, opGives_clear; assumption.
  - rewrite step_xor, mask8_of_byte
      by (assumption || (apply lxor_byte; assumption)).
    split; [|apply lxor_byte; assumption].
    apply opGives_spec, opGives_xor; assumption.
Qed.

Lemma gwp_readStateOps numOps p : forall ops state,
  gwp (Generator.readStateOps numOps p ops state)
      (fun res => exists choices,
         fst res = (ops ++ (readOpText p <$> choices))%list /\
         length choices = numOps /\ Forall validChoice choices /\
         snd res = foldl readOpNext state choices).
Proof.
  induction numOps as [|k IH]; intros ops state.
  - apply gwp_ret. exists []. cbn [fst snd]. rewrite app_nil_r.
    split_all; [reflexivity|reflexivity|constructor|reflexivity].
  - cbn [Generator.readStateOps].
    eapply gwp_bind; [apply gwp_randInt; lia|]. intros b Hb.
    eapply gwp_bind; [apply gwp_randInt; lia|]. intros o Ho.
    cbv beta in Hb, Ho.
    assert (Ho' : o = 0 \/ o = 1 \/ o = 2) by lia.
    destruct Ho' as [->|[->| ->]]; cbn [Z.eqb Pos.eqb]; cbv beta iota zeta;
      (eapply gwp_conseq; [apply IH|]);
      intros res (choices & E1 & E2 & E3 & E4);
      [exists ((b, 0) :: choices)|exists ((b, 1) :: choices)
      |exists ((b, 2) :: choices)];
      (split_all;
       [rewrite E1, <- app_assoc; reflexivity
       |cbn [length]; rewrite E2; reflexivity
       |constructor; [split; cbn [fst snd]; lia|exact E3]
       |rewrite E4; reflexivity]).
Qed.

Lemma evalLoop_readOps p choices :
  In p Generator.commonPorts -> Forall validChoice choices ->
  forall n rest (st : gmap string Z) acc s,
    st !! port p = Some s -> isByte s ->
    exists st' acc',
      evalLoop (length choices + n)
               (flat_map (readOpTokens p) choices ++ rest)%list st acc =
      evalLoop n rest st' acc' /\
      st' !! port p = Some (foldl readOpNext s choices) /\
      length acc' = (length acc + length choices)%nat.
Proof.
  intros Hp. induction 1 as [|c choices Hc _ IH]; intros n rest st acc s Hs Hb.
  - exists st, acc. cbn. split_all; [reflexivity|exact Hs|lia].
  - destruct (readOp_value s c Hc Hb) as [Hv Hnext].
    cbn [length Nat.add flat_map foldl]. rewrite <- app_assoc.
    erewrite evalLoop_commit;
      [|apply readOp_parse; assumption
       |cbn [register op stmtValue];
        rewrite (getProperty_own _ _ _ Hs); exact Hv].
    cbn [register op stmtValue].
    edestruct (IH n rest) as (st' & acc' & E1 & E2 & E3);
      [apply setProperty_lookup; right; rewrite Hs; eauto|exact Hnext|].
    exists st', acc'. split_all; [exact E1|exact E2|].
    rewrite E3, length_app. cbn [length]. lia.
Qed.

Lemma tokenizeFrom_newline s :
  tokenizeFrom (Generator.nl ++ s) 0 = tokenizeFrom s 0.
Proof. reflexivity. Qed.

Lemma readOps_tokens p choices :
  In p Generator.commonPorts -> Forall validChoice choices ->
  tokenizeFrom (String.concat Generator.nl (readOpText p <$> choices)) 0 =
  (flat_map (readOpTokens p) choices ++ [eofToken])%list.
Proof.
  intros Hp. induction 1 as [|c choices Hc Hcs IH]; [reflexivity|].
  destruct choices as [|c' choices].
  - cbn [fmap list_fmap String.concat flat_map].
    rewrite <- (append_nil_r (readOpText p c)), readOp_tokens by assumption.
    rewrite app_nil_r. reflexivity.
  - change (String.concat Generator.nl (readOpText p <$> c :: c' :: choices))
      with (readOpText p c ++ Generator.nl
            ++ String.concat Generator.nl (readOpText p <$> c' :: choices)).
    rewrite readOp_tokens, tokenizeFrom_newline, IH by assumption.
    cbn [flat_map]. rewrite <- !app_assoc. reflexivity.
Qed.

Lemma readOpText_shape p c :
  In p Generator.commonPorts -> validChoice c ->
  exists X, readOpText p c = port p ++ X ++ ");".
Proof.
  intros _ _. destruct c as [b o]. unfold readOpText.
  destruct (o =? 0); [|destruct (o =? 1)].
  - exists (" |= (1<<" ++ Generator.bitName p (Some b)). reflexivity.
  - exists (" &= ~(1<<" ++ Generator.bitName p (Some b)). reflexivity.
  - exists (" ^= (1<<" ++ Generator.bitName p (Some b)). reflexivity.
Qed.

Lemma readOps_trim p choices :
  In p Generator.commonPorts -> Forall validChoice choices ->
  choices <> [] ->
  Str.trim (String.concat Generator.nl (readOpText p <$> choices)) =
  String.concat Generator.nl (readOpText p <$> choices).
Proof.
  intros Hp Hcs Hne.
  assert (Hid : isIdentifier (port p) = true)
    by (each_port Hp; reflexivity).
  assert (Hlast : noTrailingSpace
            (String.concat Generator.nl (readOpText p <$> choices))).
  { clear Hne. induction Hcs as [|c choices Hc Hcs IH]; [exact I|].
    destruct (readOpText_shape p c Hp Hc) as [X EX].
    destruct choices as [|c' choices].
    - cbn [fmap list_fmap String.concat]. rewrite EX. no_trailing_space.
    - change (String.concat Generator.nl (readOpText p <$> c :: c' :: choices))
        with (readOpText p c ++ Generator.nl
              ++ String.concat Generator.nl (readOpText p <$> c' :: choices)).
      rewrite <- append_assoc. apply noTrailingSpace_app; [|exact IH].
      apply Forall_cons in Hcs. destruct Hcs as [Hc' _].
      destruct (readOpText_shape p c' Hp Hc') as [X' EX'].
      destruct choices; cbn [fmap list_fmap String.concat]; rewrite EX';
        destruct (port p); discriminate. }
  destruct choices as [|c choices]; [contradiction|].
  apply Forall_cons in Hcs. destruct Hcs as [Hc _].
  destruct (readOpText_shape p c Hp Hc) as [X EX].
  assert (Eshape : exists Y,
            String.concat Generator.nl (readOpText p <$> c :: choices)
            = port p ++ Y).
  { destruct choices; cbn [fmap list_fmap String.concat]; rewrite EX;
      eexists; rewrite ?append_assoc; reflexivity. }
  destruct Eshape as [Y EY]. rewrite EY in *.
  apply trim_identifier_first; assumption.
Qed.

Lemma evaluateLive_read q inputValue :
  Generator.isReadState q = true ->
  Live.evaluateLive q inputValue =
  Some (readJudgement inputValue (Generator.expectedValue q)).
Proof.
  intros Hr. unfold Live.evaluateLive, readJudgement. rewrite Hr.
  destruct (Str.isEmpty _); [reflexivity|].
  destruct (Live.readAnswer _); reflexivity.
Qed.

(** The answers to a read-state question that are judged correct: the
    expected byte in hexadecimal, in eight binary digits, after [0b],
    and in decimal. *)
Lemma read_answers e :
  isByte e ->
  readJudgement (Generator.toHex e) e = accepted e /\
  readJudgement (Generator.toBin8 e) e = accepted e /\
  readJudgement ("0b" ++ Generator.toBin8 e) e = accepted e /\
  readJudgement (numberToString e) e = accepted e.
Proof.
  intros He.
  assert (H0 : forallb
    (fun e =>
       bool_decide (readJudgement (Generator.toHex e) e = accepted e)
       && bool_decide (readJudgement (Generator.toBin8 e) e = accepted e)
       && bool_decide (readJudgement ("0b" ++ Generator.toBin8 e) e
                       = accepted e)
       && bool_decide (readJudgement (numberToString e) e = accepted e))
    allBytes = true) by (vm_compute; reflexivity).
  pose proof (forall_bytes _ H0 e He) as H.
  cbv beta in H.
  apply andb_prop in H. destruct H as [H H4].
  apply andb_prop in H. destruct H as [H H3].
  apply andb_prop in H. destruct H as [H1 H2].
  apply bool_decide_eq_true in H1, H2, H3, H4. auto.
Qed.

Lemma foldl_readOpNext_byte choices : forall s,
  Forall validChoice choices -> isByte s ->
  isByte (foldl readOpNext s choices).
Proof.
  induction choices as [|c choices IH]; intros s Hcs Hs; [exact Hs|].
  apply Forall_cons in Hcs. destruct Hcs as [Hc Hcs].
  cbn [foldl]. apply IH; [exact Hcs|].
  exact (proj2 (readOp_value s c Hc Hs)).
Qed.

(** The code of a read-state question, run by the evaluator. *)
Lemma readOps_evaluate p choices initial :
  In p Generator.commonPorts -> Forall validChoice choices ->
  choices <> [] -> (length choices <= 3)%nat -> isByte initial ->
  exists r,
    evaluate (String.concat Generator.nl (readOpText p <$> choices))
             {[ port p := initial ]} = Some r /\
    success r = true /\
    registerStates r !! port p = Some (foldl readOpNext initial choices) /\
    length (steps r) = length choices.
Proof.
  intros Hp Hcs Hne Hlen Hi.
  rewrite evaluate_unfold. unfold tokenize.
  rewrite readOps_trim, readOps_tokens by assumption.
  replace maxStatements with (length choices + S (99 - length choices))%nat
    by (unfold maxStatements; lia).
  destruct (evalLoop_readOps p choices Hp Hcs (S (99 - length choices))
              [eofToken] {[ port p := initial ]} [] initial
              (lookup_singleton_eq _ _) Hi)
    as (st' & acc' & E1 & E2 & E3).
  rewrite E1, evalLoop_eof. eexists. split; [reflexivity|].
  cbn [success registerStates steps succeeded]. auto.
Qed.

Lemma gwp_genReadState d :
  gwp (Generator.genReadState d)
      (fun q =>
         sound Generator.read_state d q /\
         exists ops,
           ops <> [] /\
           Generator.prompt q =
             Generator.readStateIntro (Generator.register q)
               (Generator.initialValue q)
             ++ String.concat Generator.nl ops ++ Generator.readStateOutro /\
           exists r,
             evaluate (String.concat Generator.nl ops)
               {[ Generator.register q := Generator.initialValue q ]}
             = Some r /\
             success r = true /\
             registerStates r !! Generator.register q
             = Some (Generator.expectedValue q) /\
             length (steps r) = length ops).
Proof.
  unfold Generator.genReadState.
  eapply gwp_bind; [apply gwp_getCommonPort|]. intros p Hp.
  eapply gwp_bind; [apply gwp_byte; lia|]. intros initial Hi.
  set (numOps := if d <=? 3 then 1%nat else if d <=? 6 then 2%nat else 3%nat).
  assert (HnumOps : (1 <= numOps <= 3)%nat)
    by (subst numOps; destruct (d <=? 3); [|destruct (d <=? 6)]; lia).
  eapply gwp_bind; [apply gwp_readStateOps|].
  intros [ops state] (choices & E1 & E2 & E3 & E4).
  cbn [fst snd] in E1, E4. change ([] ++ ?l)%list with l in E1. subst ops.
  eapply gwp_bind; [apply gwp_uid|]. intros _ _. apply gwp_ret.
  assert (Hne : choices <> []) by (intros ->; simpl in E2; lia).
  pose proof (foldl_readOpNext_byte choices initial E3 Hi) as Hbyte.
  rewrite <- E4 in Hbyte.
  split.
  - unfold sound. split_all; try reflexivity; try assumption.
    unfold solved. rewrite evaluateLive_read by reflexivity.
    cbn [Generator.sampleAnswer Generator.expectedValue].
    rewrite (proj1 (read_answers state Hbyte)). reflexivity.
  - exists (readOpText p <$> choices).
    cbn [Generator.prompt Generator.register Generator.initialValue
         Generator.expectedValue].
    split_all.
    + destruct choices; [contradiction|discriminate].
    + reflexivity.
    + rewrite E4, length_fmap.
      apply readOps_evaluate; try assumption. lia.
Qed.

(** *** Every generated question *)

Lemma gwp_generators t d :
  gwp (Generator.generators t d) (sound t d).
Proof.
  destruct t; cbn [Generator.generators].
  - eapply gwp_conseq; [apply gwp_genHexAssign|]. intros q H. apply H.
  - apply gwp_genSetBits.
  - eapply gwp_conseq; [apply gwp_genClearBits|]. intros q H. apply H.
  - eapply gwp_conseq; [apply gwp_genToggleBits|]. intros q H. apply H.
  - apply gwp_genCombinedOps.
  - eapply gwp_conseq; [apply gwp_genNamedBits|]. intros q H. apply H.
  - eapply gwp_conseq; [apply gwp_genReadState|]. intros q H. apply H.
Qed.

Lemma gwp_elim {A} (m : Random.Gen A) (P : A -> Prop) src :
  gwp m P -> unitSource src ->
  exists a src', m src = Some (a, src') /\ P a.
Proof.
  intros H Hsrc. specialize (H src Hsrc).
  destruct (m src) as [[a src']|]; [|contradiction].
  exists a, src'. split; [reflexivity|apply H].
Qed.

Lemma halves_unit : unitSource halves.
Proof. intros i. unfold unitDraw, halves, Qle, Qlt. simpl. lia. Qed.

(** Each generator, at any difficulty, returns a question of its topic
    whose initial and expected values are bytes and whose own sample
    answer, typed in, is judged correct. *)
Theorem generators_sound t d src :
  unitSource src ->
  exists q src',
    Generator.generators t d src = Some (q, src') /\
    Generator.topic q = t /\ Generator.difficulty q = d /\
    isByte (Generator.initialValue q) /\
    isByte (Generator.expectedValue q) /\
    Live.evaluateLive q (Generator.sampleAnswer q) =
    Some (accepted (Generator.expectedValue q)).
Proof.
  intros Hsrc.
  destruct (gwp_elim _ _ src (gwp_generators t d) Hsrc)
    as (q & src' & E & Hs & Hi & He & Ht & Hd).
  exists q, src'. split_all; assumption.
Qed.

Lemma generators_sound_witness :
  exists q src',
    Generator.generators Generator.combined_ops 7 halves = Some (q, src') /\
    Generator.topic q = Generator.combined_ops /\
    Generator.difficulty q = 7 /\
    isByte (Generator.initialValue q) /\
    isByte (Generator.expectedValue q) /\
    Live.evaluateLive q (Generator.sampleAnswer q) =
    Some (accepted (Generator.expectedValue q)).
Proof.
  exact (generators_sound Generator.combined_ops 7 halves halves_unit).
Defined.

Lemma topicsFor_nonempty sel level : (0 < length (topicsFor sel level))%nat.
Proof.
  unfold topicsFor. destruct (List.filter _ _); simpl; lia.
Qed.

Lemma generateQuestion_topics sel level :
  (if (length (List.filter (Generator.unlocked level)
                 (default Generator.ALL_TOPICS sel)) =? 0)%nat
   then [Generator.hex_assign; Generator.set_bits]
   else List.filter (Generator.unlocked level)
          (default Generator.ALL_TOPICS sel)) = topicsFor sel level.
Proof.
  unfold topicsFor. destruct (List.filter _ _); reflexivity.
Qed.

Lemma gwp_generateQuestion sel level :
  gwp (Generator.generateQuestion sel level)
      (fun q => exists t d,
         sound t d q /\ In t (topicsFor sel level) /\ 1 <= d <= 10).
Proof.
  unfold Generator.generateQuestion. rewrite generateQuestion_topics.
  pose proof (topicsFor_nonempty sel level) as Hne.
  eapply gwp_bind; [apply gwp_randomIndex; lia|].
  intros idx Hidx. cbv beta in Hidx.
  eapply gwp_bind; [apply gwp_randInt; lia|]. intros d _.
  destruct (topicsFor sel level !! Z.to_nat idx) as [t|] eqn:E.
  2:{ exfalso. apply lookup_ge_None in E. lia. }
  cbn [Generator.defined].
  change (Random.ret t ≫= ?k) with (fun src => k t src). cbv beta.
  eapply gwp_conseq; [apply gwp_generators|].
  intros q Hq. eexists _, _. split; [exact Hq|]. split; [|lia].
  apply list_elem_of_In. eapply list_elem_of_lookup_2, E.
Qed.

(** [generateQuestion], for any selection of topics and any level,
    returns a question of a difficulty from 1 to 10 on one of the
    selected topics that the level unlocks (or, when there is none, on
    hex assignment or setting bits), with bytes as values, and the
    question's own sample answer, typed in, is judged correct. *)
Theorem generateQuestion_sound sel level src :
  unitSource src ->
  exists q src',
    Generator.generateQuestion sel level src = Some (q, src') /\
    In (Generator.topic q) (topicsFor sel level) /\
    1 <= Generator.difficulty q <= 10 /\
    isByte (Generator.initialValue q) /\
    isByte (Generator.expectedValue q) /\
    Live.evaluateLive q (Generator.sampleAnswer q) =
    Some (accepted (Generator.expectedValue q)).
Proof.
  intros Hsrc.
  destruct (gwp_elim _ _ src (gwp_generateQuestion sel level) Hsrc)
    as (q & src' & E & t & d & (Hs & Hi & He & Ht & Hd) & Hin & Hrange).
  exists q, src'. subst t d. split_all; try assumption; apply Hrange.
Qed.

Lemma generateQuestion_sound_witness :
  exists q src',
    Generator.generateQuestion None 3 halves = Some (q, src') /\
    In (Generator.topic q) (topicsFor None 3) /\
    1 <= Generator.difficulty q <= 10 /\
    isByte (Generator.initialValue q) /\
    isByte (Generator.expectedValue q) /\
    Live.evaluateLive q (Generator.sampleAnswer q) =
    Some (accepted (Generator.expectedValue q)).
Proof.
  exact (generateQuestion_sound None 3 halves halves_unit).
Defined.

(** The expected value of a read-state question is the value that the
    evaluator computes: the code shown in the prompt, run from the
    initial value, succeeds with one step for each line and leaves the
    expected value in the register. *)
Theorem genReadState_matches_evaluator d src :
  unitSource src ->
  exists q src' ops r,
    Generator.genReadState d src = Some (q, src') /\
    ops <> [] /\
    Generator.prompt q =
      Generator.readStateIntro (Generator.register q)
        (Generator.initialValue q)
      ++ String.concat Generator.nl ops ++ Generator.readStateOutro /\
    evaluate (String.concat Generator.nl ops)
      {[ Generator.register q := Generator.initialValue q ]} = Some r /\
    success r = true /\
    registerStates r !! Generator.register q
    = Some (Generator.expectedValue q) /\
    length (steps r) = length ops.
Proof.
  intros Hsrc.
  destruct (gwp_elim _ _ src (gwp_genReadState d) Hsrc)
    as (q & src' & E & _ & ops & Hne & Hp & r & H1 & H2 & H3 & H4).
  exists q, src', ops, r. split_all; assumption.
Qed.

Lemma genReadState_matches_evaluator_witness :
  exists q src' ops r,
    Generator.genReadState 9 halves = Some (q, src') /\
    ops <> [] /\
    Generator.prompt q =
      Generator.readStateIntro (Generator.register q)
        (Generator.initialValue q)
      ++ String.concat Generator.nl ops ++ Generator.readStateOutro /\
    evaluate (String.concat Generator.nl ops)
      {[ Generator.register q := Generator.initialValue q ]} = Some r /\
    success r = true /\
    registerStates r !! Generator.register q
    = Some (Generator.expectedValue q) /\
    length (steps r) = length ops.
Proof.
  exact (genReadState_matches_evaluator 9 halves halves_unit).
Defined.

(** A question on hex assignment, clearing bits, toggling bits or named
    bits expects a value that differs from the initial value: code that
    leaves the register as it is does not solve it. *)
Theorem question_changes_register t d src :
  unitSource src ->
  In t [ Generator.hex_assign; Generator.clear_bits; Generator.toggle_bits;
         Generator.named_bits ] ->
  exists q src',
    Generator.generators t d src = Some (q, src') /\
    Generator.expectedValue q <> Generator.initialValue q.
Proof.
  intros Hsrc Ht. cbn [In] in Ht.
  destruct Ht as [<-|[<-|[<-|[<-|[]]]]]; cbn [Generator.generators].
  - destruct (gwp_elim _ _ src (gwp_genHexAssign d) Hsrc)
      as (q & src' & E & _ & Hnz & Hz).
    exists q, src'. split; [exact E|]. rewrite Hz. exact Hnz.
  - destruct (gwp_elim _ _ src (gwp_genClearBits d) Hsrc)
      as (q & src' & E & _ & Hne).
    exists q, src'. auto.
  - destruct (gwp_elim _ _ src (gwp_genToggleBits d) Hsrc)
      as (q & src' & E & _ & Hne).
    exists q, src'. auto.
  - destruct (gwp_elim _ _ src (gwp_genNamedBits d) Hsrc)
      as (q & src' & E & _ & Hnz & Hz).
    exists q, src'. split; [exact E|]. rewrite Hz. exact Hnz.
Qed.

Lemma question_changes_register_witness :
  exists q src',
    Generator.generators Generator.clear_bits 5 halves = Some (q, src') /\
    Generator.expectedValue q <> Generator.initialValue q.
Proof.
  apply (question_changes_register Generator.clear_bits 5 halves halves_unit).
  right; left; reflexivity.
Defined.

(** At a difficulty of 5 or more, a question on setting bits can
    expect the initial value itself, and is then solved by an empty
    statement: the bits to set are drawn without regard to the bits
    that the random initial value has already. *)
Theorem set_bits_question_can_be_solved_already d :
  5 <= d ->
  exists src q src',
    unitSource src /\
    Generator.genSetBits d src = Some (q, src') /\
    Generator.expectedValue q = Generator.initialValue q /\
    Live.evaluateLive q ";" = Some (accepted (Generator.expectedValue q)).
Proof.
  intros Hd. exists (fun _ => 255 # 256).
  assert (E4 : (d <=? 4) = false) by lia.
  assert (E3 : (d <=? 3) = false) by lia.
  unfold Generator.genSetBits, Generator.bitCountFor. rewrite E4, E3.
  destruct (d <=? 6);
    (eexists _, _; split;
     [ intros i; unfold unitDraw, Qle, Qlt; simpl; lia
     | split; [vm_compute; reflexivity|];
       split; vm_compute; reflexivity ]).
Qed.

Lemma set_bits_question_can_be_solved_already_witness :
  exists src q src',
    unitSource src /\
    Generator.genSetBits 7 src = Some (q, src') /\
    Generator.expectedValue q = Generator.initialValue q /\
    Live.evaluateLive q ";" = Some (accepted (Generator.expectedValue q)).
Proof. apply set_bits_question_can_be_solved_already. lia. Defined.

(** ** Shifts associate to the left *)

Lemma tokenize_shiftChain X a b c :
  isIdentifier X = true -> isByte a -> isByte b -> isByte c ->
  tokenize (shiftChain X a b c) =
  [ tok IDENTIFIER X; tok ASSIGN "="; numTok (numberToString a) a;
    tok LSHIFT "<<"; numTok (numberToString b) b; tok RSHIFT ">>";
    numTok (numberToString c) c; tok SEMICOLON ";"; eofToken ].
Proof.
  intros HX Ha Hb Hc.
  destruct (numberToString_byte a Ha) as [Da Va].
  destruct (numberToString_byte b Hb) as [Db Vb].
  destruct (numberToString_byte c Hc) as [Dc Vc].
  unfold tokenize, shiftChain.
  rewrite trim_identifier_first; [|assumption|no_trailing_space].
  rewrite tokenizeFrom_identifier by (assumption || reflexivity).
  change (tokenizeFrom (" = " ++ ?s) 0)
    with (tok ASSIGN "=" :: tokenizeFrom s 0).
  rewrite tokenizeFrom_decimal by (assumption || reflexivity).
  change (tokenizeFrom (" << " ++ ?s) 0)
    with (tok LSHIFT "<<" :: tokenizeFrom s 0).
  rewrite tokenizeFrom_decimal by (assumption || reflexivity).
  change (tokenizeFrom (" >> " ++ ?s) 0)
    with (tok RSHIFT ">>" :: tokenizeFrom s 0).
  rewrite tokenizeFrom_decimal by (assumption || reflexivity).
  rewrite Va, Vb, Vc. reflexivity.
Qed.

Lemma parse_shiftChain X A a B b C c :
  parseStatement
    [ tok IDENTIFIER X; tok ASSIGN "="; numTok A a; tok LSHIFT "<<";
      numTok B b; tok RSHIFT ">>"; numTok C c; tok SEMICOLON ";"; eofToken ] =
  Some (Ok (Some {| register := X;
                    stmtValue :=
                      byte (JS.shr (byte (JS.shl (VNum a) (VNum b))) (VNum c));
                    op := "=" |}, [eofToken])).
Proof. reflexivity. Qed.

Lemma byte_quotient x k : isByte x -> 0 <= k -> isByte (x / 2 ^ k).
Proof.
  intros Hx Hk. unfold isByte in *.
  assert (Hp : 0 < 2 ^ k) by (apply Z.pow_pos_nonneg; lia).
  split; [apply Z.div_pos; lia|].
  assert (x / 2 ^ k <= x); [|lia].
  apply Z.div_le_upper_bound; nia.
Qed.

(** A chain of shifts is evaluated from the left: for an identifier [X]
    other than [__proto__] and bytes [a], [b], [c], the statement
    [X = a << b >> c;] leaves [((a << b) & 0xFF) >> c] in [X], each
    shift count taken modulo 32. *)
Theorem shifts_associate_left X a b c st :
  isIdentifier X = true -> X <> "__proto__" ->
  isByte a -> isByte b -> isByte c ->
  exists r,
    evaluate (shiftChain X a b c) st = Some r /\
    success r = true /\
    registerStates r !! X =
    Some (((a * 2 ^ (b mod 32)) mod 256) / 2 ^ (c mod 32)).
Proof.
  intros HX Hproto Ha Hb Hc.
  assert (Hs : isByte ((a * 2 ^ (b mod 32)) mod 256)).
  { rewrite <- shl_byte by assumption. apply land_255_byte. }
  assert (Hq : isByte (((a * 2 ^ (b mod 32)) mod 256) / 2 ^ (c mod 32))).
  { apply byte_quotient; [exact Hs|]. apply Z.mod_pos_bound. lia. }
  eexists. split.
  - rewrite evaluate_unfold, maxStatements_S.
    rewrite tokenize_shiftChain by assumption.
    erewrite evalLoop_commit; [|apply parse_shiftChain|reflexivity].
    rewrite evalLoop_eof. reflexivity.
  - split; [reflexivity|]. simpl.
    rewrite byteOf_byte. unfold byte.
    rewrite shl_byte, shr_byte by assumption.
    rewrite Z.mod_small by (unfold isByte in Hq; lia).
    apply setProperty_lookup. auto.
Qed.

Lemma shifts_associate_left_witness :
  finalOf (evaluate "PORTA = 255 << 4 >> 4;" ∅) "PORTA" = Some 15.
Proof.
  destruct (shifts_associate_left "PORTA" 255 4 4 ∅ eq_refl
              ltac:(discriminate) ltac:(unfold isByte; lia)
              ltac:(unfold isByte; lia) ltac:(unfold isByte; lia))
    as (r & E & _ & H).
  change (evaluate "PORTA = 255 << 4 >> 4;" ∅)
    with (evaluate (shiftChain "PORTA" 255 4 4) ∅).
  rewrite E. exact H.
Defined.

(** ** The masking invariant, applied *)

Lemma masking_invariant_witness :
  exists r,
    evaluate "PORTA |= 0x1F0; PORTB = ~PORTA;" {[ "PORTA" := 5 ]} = Some r /\
    map_Forall (fun _ v => isByte v) (registerStates r) /\
    Forall stepInRange (steps r).
Proof.
  eexists. split; [vm_compute; reflexivity|].
  apply (masking_invariant "PORTA |= 0x1F0; PORTB = ~PORTA;"
           {[ "PORTA" := 5 ]}).
  - apply map_Forall_singleton. unfold isByte. lia.
  - vm_compute; reflexivity.
Defined.

(** ** The answers to read-state questions ([main.ts]) *)

(** A read-state question whose expected value is a byte accepts the
    value written in hexadecimal as [toHex] writes it, in eight binary
    digits as [toBin8] writes it, in binary after [0b], and in
    decimal. *)
Theorem read_state_answers q :
  Generator.isReadState q = true ->
  isByte (Generator.expectedValue q) ->
  let e := Generator.expectedValue q in
  Live.evaluateLive q (Generator.toHex e) = Some (accepted e) /\
  Live.evaluateLive q (Generator.toBin8 e) = Some (accepted e) /\
  Live.evaluateLive q ("0b" ++ Generator.toBin8 e) = Some (accepted e) /\
  Live.evaluateLive q (numberToString e) = Some (accepted e).
Proof.
  intros Hr He e. subst e. rewrite !evaluateLive_read by assumption.
  destruct (read_answers _ He) as (H1 & H2 & H3 & H4).
  rewrite H1, H2, H3, H4. auto.
Qed.

Lemma read_state_answers_witness :
  let q := {| Generator.topic := Generator.read_state;
              Generator.difficulty := 1; Generator.prompt := "";
              Generator.register := "PORTA"; Generator.initialValue := 0;
              Generator.expectedValue := 171; Generator.hint := "";
              Generator.acceptsMultipleStatements := false;
              Generator.isReadState := true;
              Generator.sampleAnswer := "0xAB" |} in
  Live.evaluateLive q "0xAB" = Some (accepted 171) /\
  Live.evaluateLive q "10101011" = Some (accepted 171) /\
  Live.evaluateLive q "0b10101011" = Some (accepted 171) /\
  Live.evaluateLive q "171" = Some (accepted 171).
Proof.
  intros q.
  exact (read_state_answers q eq_refl ltac:(unfold isByte; simpl; lia)).
Defined.

(** What a read-state question shows as the value of an answer is a
    byte, and an answer is judged correct exactly when that byte is the
    expected value. *)
Theorem read_state_value_is_byte q inputValue r :
  Generator.isReadState q = true ->
  Live.evaluateLive q inputValue = Some (Some r) ->
  match liveValue r with
  | Some (VNum v) =>
      isByte v /\ isCorrect r = (v =? Generator.expectedValue q)
  | Some _ => False
  | None => isCorrect r = false
  end.
Proof.
  intros Hr. rewrite evaluateLive_read by assumption.
  unfold readJudgement. destruct (Str.isEmpty _); [discriminate|].
  destruct (Live.readAnswer _) as [v|]; intros [= <-]; cbn.
  - split; [apply mask8_byte|reflexivity].
  - reflexivity.
Qed.

Lemma read_state_value_is_byte_witness :
  let q := {| Generator.topic := Generator.read_state;
              Generator.difficulty := 1; Generator.prompt := "";
              Generator.register := "PORTA"; Generator.initialValue := 0;
              Generator.expectedValue := 5; Generator.hint := "";
              Generator.acceptsMultipleStatements := false;
              Generator.isReadState := true;
              Generator.sampleAnswer := "0x05" |} in
  isByte 5 /\ true = (5 =? Generator.expectedValue q).
Proof.
  intros q.
  exact (read_state_value_is_byte q "0x105"
           {| liveValue := Some (VNum 5); liveError := None;
              isCorrect := true |} eq_refl ltac:(vm_compute; reflexivity)).
Defined.

(** ** Levels ([gamification.ts]) *)

Lemma double_exact n : - 2 ^ 53 < n < 2 ^ 53 -> Gamification.double n = n.
Proof.
  intros H. unfold Gamification.double, roundToDouble.
  destruct (Z.ltb_spec n 0).
  - destruct (Z.ltb_spec (- n) (2 ^ 53)); lia.
  - destruct (Z.ltb_spec n (2 ^ 53)); lia.
Qed.

Lemma xpForLevel_exact level :
  0 <= level <= 10 ^ 7 ->
  Gamification.xpForLevel level = 50 * level * (level + 1).
Proof.
  intros H. unfold Gamification.xpForLevel.
  rewrite (double_exact (50 * level)), (double_exact (level + 1)) by lia.
  apply double_exact. nia.
Qed.

Lemma levelUp_ends fuel : forall xp level,
  0 <= level <= 10 ^ 7 -> xp <= 10 ^ 15 ->
  (Z.to_nat (xp - level + 1) < fuel)%nat ->
  exists level',
    Gamification.levelUp fuel xp level = Some level' /\
    level <= level' <= 10 ^ 7 /\
    xp < 50 * level' * (level' + 1) /\
    (level' = level \/ 50 * (level' - 1) * level' <= xp).
Proof.
  induction fuel as [|fuel IH]; intros xp level Hl Hx Hf; [lia|].
  cbn [Gamification.levelUp]. rewrite xpForLevel_exact by exact Hl.
  destruct (Z.leb_spec (50 * level * (level + 1)) xp) as [Hle|Hgt].
  - assert (level < 4500000) by nia.
    rewrite double_exact by lia.
    destruct (IH xp (level + 1)) as (l' & E & H1 & H2 & H3);
      [lia|lia|nia|].
    exists l'. split_all; [exact E|lia|lia|exact H2|].
    right. destruct H3 as [->|H3]; [|exact H3].
    replace (level + 1 - 1) with level by lia. exact Hle.
  - exists level. split_all; [reflexivity|lia|lia|lia|left; reflexivity].
Qed.

(** The level-up loop ends for whole points up to 10^15 and a whole
    level from 0 to 10^7: it stops at the first level, from the one it
    starts with, whose threshold is above the points.  Every number it
    computes on the way is a whole number below 2^53, which doubles
    hold exactly. *)
Theorem levelUp_reaches_level fuel xp level :
  0 <= level <= 10 ^ 7 -> xp <= 10 ^ 15 ->
  (Z.to_nat (xp - level + 1) < fuel)%nat ->
  exists level',
    Gamification.levelUp fuel xp level = Some level' /\
    level <= level' /\
    xp < Gamification.xpForLevel level' /\
    (level' = level \/ Gamification.xpForLevel (level' - 1) <= xp) /\
    Gamification.xpForLevel level' = 50 * level' * (level' + 1) /\
    Gamification.xpForLevel level' < 2 ^ 53.
Proof.
  intros Hl Hx Hf.
  destruct (levelUp_ends fuel xp level Hl Hx Hf) as (l' & E & H1 & H2 & H3).
  exists l'. rewrite (xpForLevel_exact l') by lia.
  split_all; [exact E|lia|exact H2| |reflexivity|nia].
  destruct H3 as [->|H3]; [left; reflexivity|right].
  rewrite xpForLevel_exact by lia.
  replace (l' - 1 + 1) with l' by lia. exact H3.
Qed.

(** Outside that range the loop need not end: at level 2^53 the
    increment is lost in rounding, so with enough points the level
    never changes. *)
Lemma levelUp_stuck fuel xp :
  50 * 2 ^ 106 <= xp -> Gamification.levelUp fuel xp (2 ^ 53) = None.
Proof.
  intros H. induction fuel as [|fuel IH]; [reflexivity|].
  cbn [Gamification.levelUp].
  replace (Gamification.xpForLevel (2 ^ 53)) with (50 * 2 ^ 106)
    by (vm_compute; reflexivity).
  replace (Gamification.double (2 ^ 53 + 1)) with (2 ^ 53)
    by (vm_compute; reflexivity).
  destruct (Z.leb_spec (50 * 2 ^ 106) xp); [exact IH|lia].
Qed.

Lemma levelUp_reaches_level_witness :
  exists level',
    Gamification.levelUp 400 320 1 = Some level' /\
    1 <= level' /\ 320 < Gamification.xpForLevel level' /\
    (level' = 1 \/ Gamification.xpForLevel (level' - 1) <= 320) /\
    Gamification.xpForLevel level' = 50 * level' * (level' + 1) /\
    Gamification.xpForLevel level' < 2 ^ 53.
Proof.
  apply (levelUp_reaches_level 400 320 1); [lia|lia|].
  apply Nat.ltb_lt. vm_compute. reflexivity.
Defined.

(** ** Parentheses in the analyzer *)

Lemma countUnmatchedFrom_nonneg s : forall depth,
  0 <= depth -> 0 <= countUnmatchedFrom depth s.
Proof.
  induction s as [|c s IH]; intros depth Hd; [exact Hd|].
  cbn [countUnmatchedFrom]. apply IH.
  destruct (Ascii.eqb c "("); destruct (Ascii.eqb c ")"); lia.
Qed.

Lemma balanced_count s : forall depth,
  0 <= depth -> isBalancedFrom depth s = true ->
  countUnmatchedFrom depth s = 0.
Proof.
  induction s as [|c s IH]; intros depth Hd.
  - cbn. intros H. apply Z.eqb_eq in H. exact H.
  - cbn [isBalancedFrom countUnmatchedFrom].
    destruct (Ascii.eqb c "("); destruct (Ascii.eqb c ")");
      cbv zeta;
      match goal with
      | |- (if ?x <? 0 then _ else _) = _ -> _ =>
          destruct (Z.ltb_spec x 0) as [Hlt|Hge]; [discriminate|]
      end;
      intros Hbal; apply IH in Hbal; try lia;
      rewrite ?Z.max_r by lia; exact Hbal.
Qed.

(** The count of unmatched opening parentheses is never negative, and
    it is zero for a balanced text; so the analyzer adds no shadow
    parentheses to a balanced right-hand side. *)
Theorem balanced_has_no_unmatched s :
  0 <= countUnmatchedParens s /\
  (isBalanced s = true -> countUnmatchedParens s = 0).
Proof.
  split.
  - apply countUnmatchedFrom_nonneg. lia.
  - apply balanced_count. lia.
Qed.

Lemma balanced_has_no_unmatched_witness :
  countUnmatchedParens "((1<<PA1)|(1<<PA2))" = 0.
Proof.
  apply (proj2 (balanced_has_no_unmatched "((1<<PA1)|(1<<PA2))")).
  reflexivity.
Defined.

(** ** Binary display *)

(** The eight binary digits that the tool displays for a number are
    the same in the analyzer and in the generator, and read back, after
    [0b], as the low byte of the number. *)
Theorem toBin8_round_trip n :
  toBin8 (VNum n) = Generator.toBin8 n /\
  String.length (toBin8 (VNum n)) = 8%nat /\
  parseNumberLiteral ("0b" ++ toBin8 (VNum n)) = Some (mask8 n) /\
  tokenize ("0b" ++ toBin8 (VNum n)) =
  [numTok ("0b" ++ toBin8 (VNum n)) (mask8 n); eofToken].
Proof.
  unfold toBin8, Generator.toBin8.
  change (JS.byteOf (VNum n)) with (mask8 n).
  pose proof (mask8_byte n) as Hb. revert Hb. generalize (mask8 n).
  intros b Hb.
  assert (H0 : forallb
    (fun b =>
       String.eqb (bitsOf 8 b "") (Str.padStart 8 "0" (toStringRadix b 2))
       && (String.length (bitsOf 8 b "") =? 8)%nat
       && bool_decide (parseNumberLiteral ("0b" ++ bitsOf 8 b "") = Some b)
       && bool_decide (tokenize ("0b" ++ bitsOf 8 b "") =
                       [numTok ("0b" ++ bitsOf 8 b "") b; eofToken]))
    allBytes = true) by (vm_compute; reflexivity).
  pose proof (forall_bytes _ H0 b Hb) as H. cbv beta in H.
  apply andb_prop in H. destruct H as [H H4].
  apply andb_prop in H. destruct H as [H H3].
  apply andb_prop in H. destruct H as [H1 H2].
  apply String.eqb_eq in H1. apply Nat.eqb_eq in H2.
  apply bool_decide_eq_true in H3, H4. auto.
Qed.

(** ** The symbol table holds every bit name ([data/atmega2560.ts]) *)

(** Flattening loses nothing: the symbol table maps the [i]-th bit
    name, data direction bit name and pin bit name of every port to
    [i], and every bit name of a peripheral register to its bit. *)
Theorem allNamedBits_complete :
  (forall p i nm, In p ports ->
     bits p !! i = Some nm \/ ddrBits p !! i = Some nm
     \/ pinBits p !! i = Some nm ->
     allNamedBits !! nm = Some (Z.of_nat i)) /\
  (forall reg regBits nm v,
     In (reg, regBits) namedRegisterBits -> In (nm, v) regBits ->
     allNamedBits !! nm = Some v).
Proof.
  split.
  - intros p i nm Hp Hnm.
    assert (H : forallb (fun p =>
                  forallb (fun '(i, nm) =>
                     bool_decide (allNamedBits !! nm = Some (Z.of_nat i)))
                    (imap pair (bits p) ++ imap pair (ddrBits p)
                     ++ imap pair (pinBits p))) ports = true)
      by (vm_compute; reflexivity).
    rewrite forallb_forall in H. specialize (H p Hp).
    rewrite forallb_forall in H.
    specialize (H (i, nm)). cbv beta iota in H.
    eapply bool_decide_eq_true_1, H.
    rewrite !in_app_iff, <- !list_elem_of_In.
    destruct Hnm as [E|[E|E]]; [left|right; left|right; right];
      apply list_elem_of_lookup; exists i;
      rewrite list_lookup_imap, E; reflexivity.
  - intros reg regBits nm v Hreg Hnm.
    assert (H : forallb (fun rb =>
                  forallb (fun '(nm, v) =>
                     bool_decide (allNamedBits !! nm = Some v)) (snd rb))
                namedRegisterBits = true) by (vm_compute; reflexivity).
    rewrite forallb_forall in H. specialize (H _ Hreg). cbn [snd] in H.
    rewrite forallb_forall in H. specialize (H _ Hnm). cbv beta iota in H.
    apply bool_decide_eq_true in H. exact H.
Qed.

Lemma allNamedBits_complete_witness :
  allNamedBits !! "PINB5" = Some 5 /\ allNamedBits !! "ADEN" = Some 7.
Proof.
  split.
  - apply (proj1 allNamedBits_complete
             {| name := "B"; ddr := "DDRB"; port := "PORTB"; pin := "PINB";
                bits := ["PB0"; "PB1"; "PB2"; "PB3"; "PB4"; "PB5"; "PB6";
                         "PB7"];
                ddrBits := ["DDB0"; "DDB1"; "DDB2"; "DDB3"; "DDB4"; "DDB5";
                            "DDB6"; "DDB7"];
                pinBits := ["PINB0"; "PINB1"; "PINB2"; "PINB3"; "PINB4";
                            "PINB5"; "PINB6"; "PINB7"] |} 5%nat "PINB5").
    + vm_compute. auto.
    + right; right. reflexivity.
  - apply (proj2 allNamedBits_complete "ADCSRA"
             [("ADPS0", 0); ("ADPS1", 1); ("ADPS2", 2); ("ADIE", 3);
              ("ADIF", 4); ("ADATE", 5); ("ADSC", 6); ("ADEN", 7)]).
    + vm_compute. auto 20.
    + vm_compute. auto 20.
Defined.

(** ** Topics by level *)

(** A higher level keeps every topic available; hex assignment and
    setting bits are available from level 1 on, every topic from
    level 5 on, and none below level 1. *)
Theorem getAvailableTopics_monotone level level' :
  level <= level' ->
  (forall t, In t (Generator.getAvailableTopics level) ->
             In t (Generator.getAvailableTopics level')) /\
  (1 <= level -> In Generator.hex_assign (Generator.getAvailableTopics level)
                 /\ In Generator.set_bits (Generator.getAvailableTopics level)) /\
  (5 <= level -> Generator.getAvailableTopics level = Generator.ALL_TOPICS) /\
  (level < 1 -> Generator.getAvailableTopics level = []).
Proof.
  intros Hle. unfold Generator.getAvailableTopics. split_all.
  - intros t Ht. apply filter_In in Ht. destruct Ht as [Hin Hu].
    apply filter_In. split; [exact Hin|].
    unfold Generator.unlocked in *. lia.
  - intros H. split; apply filter_In; (split; [simpl; auto|]);
      unfold Generator.unlocked; simpl; lia.
  - intros H. unfold Generator.ALL_TOPICS, Generator.unlocked.
    cbn [List.filter Generator.topicUnlockLevel].
    repeat match goal with
           | |- context [?a <=? level] =>
               destruct (Z.leb_spec a level); [|lia]
           end.
    reflexivity.
  - intros H. unfold Generator.ALL_TOPICS, Generator.unlocked.
    cbn [List.filter Generator.topicUnlockLevel].
    repeat match goal with
           | |- context [?a <=? level] =>
               destruct (Z.leb_spec a level); [lia|]
           end.
    reflexivity.
Qed.

Lemma getAvailableTopics_monotone_witness :
  In Generator.clear_bits (Generator.getAvailableTopics 4) /\
  Generator.getAvailableTopics 6 = Generator.ALL_TOPICS.
Proof.
  split.
  - apply (proj1 (getAvailableTopics_monotone 2 4 ltac:(lia))).
    vm_compute. auto.
  - apply (getAvailableTopics_monotone 6 6 ltac:(lia)). lia.
Defined.

(** ** The analyzer and the evaluator on one bit *)

(** For every name of the symbol table, the analyzer's value of the
    operand [(1<<name)] is the value that the strict evaluator computes
    for it: the byte with the bit of the name. *)
Theorem analyzer_agrees_on_one_bit nm v :
  allNamedBits !! nm = Some v ->
  tryEvaluatePartial (shiftTerm nm) = Some (VNum (2 ^ v)) /\
  strictValue (shiftTerm nm) = Some (VNum (2 ^ v)).
Proof.
  intros Hv. split.
  - assert (H : forallb (fun kn =>
                  bool_decide (tryEvaluatePartial (shiftTerm (fst kn))
                               = Some (VNum (2 ^ snd kn))))
                (map_to_list allNamedBits) = true)
      by (vm_compute; reflexivity).
    pose proof (map_forallb_lookup _ _ H nm v Hv) as Hk. cbn [fst snd] in Hk.
    apply bool_decide_eq_true in Hk. exact Hk.
  - unfold strictValue.
    change ("X = " ++ shiftTerm nm ++ ";") with (maskStatement "X" "=" [nm]).
    rewrite evaluate_unfold, maxStatements_S.
    erewrite evalLoop_commit;
      [|apply parse_tokenize_maskStatement;
        [reflexivity|left; reflexivity|discriminate
        |repeat constructor; exists v; exact Hv]
       |reflexivity].
    rewrite evalLoop_eof. cbn.
    destruct (bitOfName_known nm v Hv) as [E _].
    unfold maskOfNames. cbn [foldl]. rewrite E. reflexivity.
Qed.

Lemma analyzer_agrees_on_one_bit_witness :
  tryEvaluatePartial "(1<<RXEN0)" = Some (VNum 16) /\
  strictValue "(1<<RXEN0)" = Some (VNum 16).
Proof.
  exact (analyzer_agrees_on_one_bit "RXEN0" 4 ltac:(vm_compute; reflexivity)).
Defined.
